(** * SGML2SQL: extraction and classification core

    A shallow embedding of the pure core of the SGML2SQL scripts
    (21_sgml2rawdata.py, 31_rawdata2women.py, 32_label_women_risk.py):
    Python strings, the small part of the [re] module the scripts use,
    ElementTree elements and paths, partner / group extraction, interaction
    flattening, the section locator and the rule classifier. *)

From Stdlib Require Import NArith ZArith List Ascii String Bool Lia.
From stdpp Require Import base decidable option list gmap sets strings.
Import ListNotations.

Local Open Scope N_scope.

(** ** Python strings

    A Python [str] is a sequence of Unicode code points. *)

Abbreviation char := N (only parsing).
Abbreviation pystr := (list N) (only parsing).

Module PyStr.

(** Decoder for UTF-8 source literals: [need] continuation bytes are still
    expected and [acc] holds the bits read so far. *)
Fixpoint utf8_go (bs : list N) (need : nat) (acc : N) : pystr :=
  match bs with
  | [] => []
  | b :: bs' =>
    match need with
    | O =>
      if b <? 128 then b :: utf8_go bs' 0 0
      else if b <? 224 then utf8_go bs' 1 (N.land b 31)
      else if b <? 240 then utf8_go bs' 2 (N.land b 15)
      else utf8_go bs' 3 (N.land b 7)
    | S O => (acc * 64 + N.land b 63) :: utf8_go bs' 0 0
    | S k => utf8_go bs' k (acc * 64 + N.land b 63)
    end
  end.

Definition u (s : string) : pystr :=
  utf8_go (map N_of_ascii (list_ascii_of_string s)) 0 0.

(** [str.isspace] on one code point; the same set is what [\s] matches in a
    [str] pattern. *)
Definition isspace (c : char) : bool :=
  ((9 <=? c) && (c <=? 13)) || ((28 <=? c) && (c <=? 32))
  || (c =? 133) || (c =? 160) || (c =? 5760)
  || ((8192 <=? c) && (c <=? 8202))
  || (c =? 8232) || (c =? 8233) || (c =? 8239) || (c =? 8287) || (c =? 12288).

(** Removal of a leading, respectively trailing, run of characters. *)
Fixpoint lstrip_by (p : char -> bool) (s : pystr) : pystr :=
  match s with
  | [] => []
  | c :: s' => if p c then lstrip_by p s' else s
  end.

Fixpoint rstrip_by (p : char -> bool) (s : pystr) : pystr :=
  match s with
  | [] => []
  | c :: s' =>
    match rstrip_by p s' with
    | [] => if p c then [] else [c]
    | r => c :: r
    end
  end.

(** [s.strip()] *)
Definition strip (s : pystr) : pystr := rstrip_by isspace (lstrip_by isspace s).

(** Truth value of a [str] and of an [Optional[str]]. *)
Definition truthy (s : pystr) : bool :=
  match s with [] => false | _ => true end.

Definition otruthy (o : option pystr) : bool :=
  match o with Some s => truthy s | None => false end.

(** [a or b] on [Optional[str]] values. *)
Definition por (a b : option pystr) : option pystr :=
  if otruthy a then a else b.

(** [s or None] *)
Definition or_none (s : pystr) : option pystr :=
  if truthy s then Some s else None.

Definition eqs (a b : pystr) : bool := bool_decide (a = b).

(** [s.startswith(p)] *)
Fixpoint startswith (p s : pystr) : bool :=
  match p, s with
  | [], _ => true
  | _ :: _, [] => false
  | a :: p', b :: s' => (a =? b) && startswith p' s'
  end.

(** [s.replace(old, new)] for a non-empty [old]: occurrences are replaced
    left to right without overlap; [skip] counts the characters of the
    occurrence just replaced that are still to be passed over. *)
Fixpoint replace_go (old new : pystr) (skip : nat) (s : pystr) : pystr :=
  match s with
  | [] => []
  | c :: s' =>
    match skip with
    | S k => replace_go old new k s'
    | O =>
      if startswith old s
      then new ++ replace_go old new (Nat.pred (length old)) s'
      else c :: replace_go old new 0 s'
    end
  end.

Definition replace (old new s : pystr) : pystr := replace_go old new 0 s.

(** [sep.join(parts)] *)
Fixpoint join (sep : pystr) (parts : list pystr) : pystr :=
  match parts with
  | [] => []
  | [p] => p
  | p :: rest => p ++ sep ++ join sep rest
  end.

(** [s.lower()] on the ASCII range (the only letters the scripts compare
    against are ASCII). *)
Definition lower_char (c : char) : char :=
  if (65 <=? c) && (c <=? 90) then c + 32 else c.

Definition lower (s : pystr) : pystr := map lower_char s.

(** [s.split(sep)[-1]] for a one-character separator: what follows the last
    occurrence of [sep], or all of [s] when there is none. *)
Fixpoint split_last (sep : char) (s : pystr) : pystr :=
  match s with
  | [] => []
  | c :: s' =>
    if existsb (N.eqb sep) s' then split_last sep s'
    else if c =? sep then s' else s
  end.

End PyStr.

Import PyStr.

(** ** The fragment of Python's [re] used by the scripts

    [ends r bos s] lists, in the order in which the backtracking matcher
    tries them, what remains of [s] after a match of [r] anchored at the
    start of [s]; [bos] says whether [s] starts at the beginning of the
    subject string. *)

Module Re.

Inductive regex : Type :=
| Str (l : pystr)            (* literal text *)
| Sat (p : char -> bool)     (* one character of a class ([.] under DOTALL) *)
| StarC (p : char -> bool)   (* greedy [X*] for a one-character [X] *)
| Seq (a b : regex)
| Alt (a b : regex)
| Opt (a : regex)            (* greedy [?] *)
| Bol                        (* [^] without MULTILINE *)
| Eol                        (* [$] without MULTILINE *)
| NegLook (a : regex).       (* [(?!a)] *)

Fixpoint star_ends (p : char -> bool) (s : pystr) : list pystr :=
  match s with
  | [] => [[]]
  | c :: s' => if p c then star_ends p s' ++ [s] else [s]
  end.

Fixpoint ends (r : regex) (bos : bool) (s : pystr) : list pystr :=
  match r with
  | Str l => if startswith l s then [drop (length l) s] else []
  | Sat p => match s with c :: s' => if p c then [s'] else [] | [] => [] end
  | StarC p => star_ends p s
  | Seq a b =>
    flat_map (fun s' => ends b (bos && (length s' =? length s)%nat) s') (ends a bos s)
  | Alt a b => ends a bos s ++ ends b bos s
  | Opt a => ends a bos s ++ [s]
  | Bol => if bos then [s] else []
  | Eol => match s with [] => [s] | [10] => [s] | _ => [] end
  | NegLook a => match ends a bos s with [] => [s] | _ :: _ => [] end
  end.

(** [X+] *)
Definition PlusC (p : char -> bool) : regex := Seq (Sat p) (StarC p).

Definition any_char (c : char) : bool := true.

(** [.*] under DOTALL *)
Definition DotStar : regex := StarC any_char.

Definition matches_at (r : regex) (bos : bool) (s : pystr) : bool :=
  match ends r bos s with [] => false | _ :: _ => true end.

(** [bool(rx.search(s))]: a match at some position of [s]. *)
Fixpoint search_from (r : regex) (bos : bool) (s : pystr) : bool :=
  matches_at r bos s ||
  match s with
  | [] => false
  | _ :: s' => search_from r false s'
  end.

Definition search (r : regex) (s : pystr) : bool := search_from r true s.

(** [re.sub(r, repl, s)] for a constant [repl] and a pattern that matches
    no empty string (as all patterns given to [re.sub] in the scripts):
    scanning left to right, the first match found at a position is replaced
    and scanning resumes after it; [skip] counts the matched characters
    still to be passed over. *)
Fixpoint sub_go (r : regex) (repl : pystr) (skip : nat) (bos : bool) (s : pystr) : pystr :=
  match s with
  | [] => []
  | c :: s' =>
    match skip with
    | S k => sub_go r repl k false s'
    | O =>
      match ends r bos s with
      | e :: _ =>
        match (length s - length e)%nat with
        | O => c :: sub_go r repl 0 false s'
        | S k => repl ++ sub_go r repl k false s'
        end
      | [] => c :: sub_go r repl 0 false s'
      end
    end
  end.

Definition sub (r : regex) (repl s : pystr) : pystr := sub_go r repl 0 true s.

End Re.

Import Re.

(** ** ElementTree elements and the paths the scripts use *)

Module ET.

(** [xml.etree.ElementTree.Element]: the qualified tag [{uri}local], the
    attribute dictionary, the direct text, the children in document order
    and the text that follows the element inside its parent. *)
#[local] Unset Elimination Schemes.
Inductive Element : Type :=
| Elem (tag : pystr) (attrib : gmap pystr pystr) (text : option pystr)
       (children : list Element) (tail : option pystr).
#[local] Set Elimination Schemes.

Definition tag (e : Element) : pystr := let 'Elem t _ _ _ _ := e in t.
Definition attrib (e : Element) : gmap pystr pystr := let 'Elem _ a _ _ _ := e in a.
Definition text (e : Element) : option pystr := let 'Elem _ _ x _ _ := e in x.
Definition children (e : Element) : list Element := let 'Elem _ _ _ c _ := e in c.
Definition tail (e : Element) : option pystr := let 'Elem _ _ _ _ x := e in x.

(** [e.get(key)] *)
Definition get (e : Element) (key : pystr) : option pystr := attrib e !! key.

(** [list(e.iter())]: the element and its descendants in document order. *)
Fixpoint iter (e : Element) : list Element :=
  match e with
  | Elem _ _ _ cs _ => e :: flat_map iter cs
  end.

(** [list(e.iter(tag))] *)
Definition iter_tag (t : pystr) (e : Element) : list Element :=
  filter (fun x => tag x = t) (iter e).

(** The strings yielded by [if t: yield t]. *)
Definition yield_text (t : option pystr) : list pystr :=
  match t with
  | Some s => if truthy s then [s] else []
  | None => []
  end.

(** [list(e.itertext())] *)
Fixpoint itertext (e : Element) : list pystr :=
  match e with
  | Elem _ _ t cs _ =>
    yield_text t ++ flat_map (fun c => itertext c ++ yield_text (tail c)) cs
  end.

(** ["".join(e.itertext())] *)
Definition alltext (e : Element) : pystr := concat (itertext e).

(** One step of an ElementPath: [tag] selects children, [//tag] selects
    proper descendants. *)
Inductive step : Type :=
| Child (t : pystr)
| Desc (t : pystr).

Definition select (st : step) (result : list Element) : list Element :=
  match st with
  | Child t => flat_map (fun e => filter (fun c => tag c = t) (children e)) result
  | Desc t => flat_map (fun e => flat_map (iter_tag t) (children e)) result
  end.

(** [e.findall(path)] and [e.find(path)] *)
Definition findall (path : list step) (e : Element) : list Element :=
  fold_left (fun result st => select st result) path [e].

Definition find (path : list step) (e : Element) : option Element :=
  head (findall path e).

(** Induction over elements with the hypothesis on all children. *)
End ET.

Import ET.

(** ** 21_sgml2rawdata.py: text selection, partner labels, interactions *)

Module Ingest.

Definition PI_NS : pystr :=
  u "http://info.pmda.go.jp/namespace/prescription_drugs/package_insert/1.0".
Definition XMLNS : pystr := u "http://www.w3.org/XML/1998/namespace".

(** The qualified tag that the prefix table [NS] gives to [pi:local]. *)
Definition pi (local : string) : pystr := u "{" ++ PI_NS ++ u "}" ++ u local.

(** The key [f"{{{XMLNS}}}lang"]. *)
Definition XML_LANG : pystr := u "{" ++ XMLNS ++ u "}lang".

Definition ja : pystr := u "ja".

(** The stripped direct text of an element, [None] when it is missing or
    blank: the common tail of [get_text] and [get_text_direct]. *)
Definition stripped_text (el : option Element) : option pystr :=
  match el with
  | Some el =>
    if otruthy (text el) then or_none (strip (default [] (text el))) else None
  | None => None
  end.

Definition get_text (node : option Element) (xpath : list step) : option pystr :=
  match node with
  | None => None
  | Some node => stripped_text (find xpath node)
  end.

Definition get_text_direct (el : option Element) : option pystr := stripped_text el.

(** The [for lang in ...] loop of [text_ja]. *)
Fixpoint text_ja_langs (langs : list Element) : option pystr :=
  match langs with
  | [] => None
  | lang :: rest =>
    if bool_decide (get lang XML_LANG = Some ja) && otruthy (text lang) then
      let s := strip (default [] (text lang)) in
      if truthy s then Some s else text_ja_langs rest
    else text_ja_langs rest
  end.

Definition text_ja (detail_elem : option Element) : option pystr :=
  match detail_elem with
  | None => None
  | Some d =>
    match text_ja_langs (findall [Child (pi "Lang")] d) with
    | Some s => Some s
    | None =>
      if otruthy (text d) && truthy (strip (default [] (text d)))
      then Some (strip (default [] (text d)))
      else None
    end
  end.

(** The [for lang in ...] loop of [lang_text_all]. *)
Fixpoint lang_text_all_langs (langs : list Element) : option pystr :=
  match langs with
  | [] => None
  | lang :: rest =>
    if bool_decide (get lang XML_LANG = Some ja) then
      let txt := strip (alltext lang) in
      if truthy txt then Some txt else lang_text_all_langs rest
    else lang_text_all_langs rest
  end.

Definition lang_text_all (detail_elem : option Element) : option pystr :=
  match detail_elem with
  | None => None
  | Some d => lang_text_all_langs (findall [Child (pi "Lang")] d)
  end.

(** *** Partner labels *)

Definition TOU : pystr := [31561].          (* 等 *)
Definition NADO : pystr := [12394; 12393].  (* など *)

(** The class [[、，,\s]]. *)
Definition punct_or_space (c : char) : bool :=
  (c =? 12289) || (c =? 65292) || (c =? 44) || isspace c.

Definition rx_lead_punct : regex := Seq Bol (PlusC punct_or_space).    (* ^[、，,\s]+ *)
Definition rx_trail_punct : regex := Seq (PlusC punct_or_space) Eol.   (* [、，,\s]+$ *)
Definition rx_trail_noise : regex := Seq (Alt (Str TOU) (Str NADO)) Eol.  (* (等|など)$ *)
Definition rx_lead_noise : regex := Seq Bol (Alt (Str TOU) (Str NADO)).   (* ^(等|など) *)

Definition normalize_partner_label (s : option pystr) : option pystr :=
  match s with
  | None => None
  | Some s =>
    if negb (truthy s) then None else
    let s := strip s in
    let s := sub rx_lead_punct [] s in
    let s := sub rx_trail_punct [] s in
    if negb (truthy s) then None else
    if eqs s TOU || eqs s NADO then None else
    let s := strip (sub rx_trail_noise [] s) in
    let s := strip (sub rx_lead_noise [] s) in
    if negb (truthy s) then None else
    Some s
  end.

Definition detail_text_full (detail_el : option Element) : option pystr :=
  match detail_el with
  | None => None
  | Some _ =>
    let s := lang_text_all detail_el in
    let s := if negb (otruthy s) then por (text_ja detail_el) (get_text_direct detail_el) else s in
    if negb (otruthy s) then None else
    normalize_partner_label (Some (strip (default [] s)))
  end.

(** *** Class label and items of a [Drug] element *)

(** The loop over [dn.findall("pi:Detail")]: it stops at the first
    [Detail] whose normalised text is non-empty. *)
Fixpoint first_label (dets : list Element) : option pystr :=
  match dets with
  | [] => None
  | det :: rest =>
    let s := detail_text_full (Some det) in
    if otruthy s then s else first_label rest
  end.

(** The loop over [dn.findall("pi:SimpleList/pi:Item/pi:Detail")]. *)
Fixpoint item_labels (its : list Element) : list pystr :=
  match its with
  | [] => []
  | it :: rest =>
    match detail_text_full (Some it) with
    | Some s => if truthy s then s :: item_labels rest else item_labels rest
    | None => item_labels rest
    end
  end.

(** One round of the de-duplication loop on the state [(seen, uniq_items)]. *)
Definition uniq_step (st : gset (list N) * list (list N)) (n : pystr)
  : gset (list N) * list (list N) :=
  if bool_decide (n ∈ st.1) then st else ({[ n ]} ∪ st.1, st.2 ++ [n]).

Definition uniq_items (items : list pystr) : list pystr :=
  (fold_left uniq_step items (∅, [])).2.

Definition extract_partner_group_and_items (drug_elem : Element)
  : option pystr * list pystr :=
  match find [Child (pi "DrugName")] drug_elem with
  | None => (None, [])
  | Some dn =>
    let class_label := first_label (findall [Child (pi "Detail")] dn) in
    let items :=
      item_labels
        (findall [Child (pi "SimpleList"); Child (pi "Item"); Child (pi "Detail")] dn) in
    (class_label, uniq_items items)
  end.

(** *** Flattened interactions *)

Record InteractionRecord : Type := mkRecord {
  partner : option pystr;
  group : option pystr;
  symptoms : option pystr;
  mechanism : option pystr;
  category : pystr
}.

Definition CONTRAINDICATED : pystr := Eval cbv in u "併用禁忌".
Definition CAUTION : pystr := Eval cbv in u "併用注意".

(** One of the two expressions of [get_symptoms_and_mechanism], for the
    child element called [name]. *)
Definition block_text (drug : Element) (name : string) : option pystr :=
  por (por (lang_text_all (find [Child (pi name); Child (pi "Detail")] drug))
           (text_ja (find [Child (pi name); Child (pi "Detail")] drug)))
      (get_text (Some drug) [Child (pi name)]).

Definition get_symptoms_and_mechanism (drug : Element) : option pystr * option pystr :=
  (block_text drug "ClinSymptomsAndMeasures", block_text drug "MechanismAndRiskFactors").

(** The body of the two [for drug in ...] loops, which differ in the
    category literal only: the records appended for one [Drug]. *)
Definition block_records (cat : pystr) (drug : Element) : list InteractionRecord :=
  let '(group_label, items) := extract_partner_group_and_items drug in
  let '(symptoms, mechanism) := get_symptoms_and_mechanism drug in
  match items with
  | _ :: _ =>
    map (fun p => mkRecord (Some p) group_label symptoms mechanism cat) items
  | [] =>
    if otruthy group_label
    then [mkRecord group_label group_label symptoms mechanism cat]
    else []
  end.

Fixpoint summary_parts (dets : list Element) : list pystr :=
  match dets with
  | [] => []
  | det :: rest =>
    let s := por (por (lang_text_all (Some det)) (text_ja (Some det)))
                 (get_text_direct (Some det)) in
    match s with
    | Some x => if truthy x then x :: summary_parts rest else summary_parts rest
    | None => summary_parts rest
    end
  end.

Definition contra_drugs (root : Element) : list Element :=
  findall [Child (pi "Interactions"); Child (pi "ContraIndicatedCombinations");
           Desc (pi "Drug")] root.

Definition caution_drugs (root : Element) : list Element :=
  findall [Child (pi "Interactions"); Child (pi "PrecautionsForCombinations");
           Desc (pi "Drug")] root.

(** The pair [(result["summary"], result["flat"])]. *)
Definition collect_interactions_flat (root : Element)
  : list pystr * list InteractionRecord :=
  let summary :=
    summary_parts
      (findall [Child (pi "Interactions"); Child (pi "SummaryOfCombination");
                Desc (pi "Detail")] root) in
  let flat :=
    flat_map (block_records CONTRAINDICATED) (contra_drugs root)
    ++ flat_map (block_records CAUTION) (caution_drugs root) in
  (summary, flat).

End Ingest.

Import Ingest.

(** ** 31_rawdata2women.py: the section locator *)

Module Women.

Definition XMLNS : pystr := u "http://www.w3.org/XML/1998/namespace".
Definition XML_LANG : pystr := u "{" ++ XMLNS ++ u "}lang".

Definition PREGNANT_TAGS : gset (list N) :=
  {[ u "UseInPregnant"; u "UseInPregnantWomen"; u "Pregnant" ]}.
Definition NURSING_TAGS : gset (list N) :=
  {[ u "UseInNursing"; u "UseInNursingMothers"; u "Nursing"; u "BreastFeeding" ]}.
Definition LANG_LOCAL : pystr := u "Lang".

(** [tag.split('}')[-1]] *)
Definition local_name (tag : pystr) : pystr := split_last 125 tag.

Definition blank_class (c : char) : bool := (c =? 32) || (c =? 9) || (c =? 12288).
Definition is_nl (c : char) : bool := c =? 10.

Definition rx_blanks : regex := PlusC blank_class.                    (* [ \t　]+ *)
Definition rx_newlines : regex := Seq (Str [10; 10; 10]) (StarC is_nl).  (* \n{3,} *)

Definition textnorm (s : option pystr) : option pystr :=
  match s with
  | None => None
  | Some s =>
    let s := replace [13] [10] (replace [13; 10] [10] s) in
    let s := sub rx_blanks [32] s in
    let s := sub rx_newlines [10; 10] s in
    Some (strip s)
  end.

(** The elements collected in [hits], in the order of [root.iter()]. *)
Definition find_hits (root : Element) (target_names : gset (list N)) : list Element :=
  filter (fun elem => local_name (tag elem) ∈ target_names) (iter root).

(** [n.attrib.get(xml:lang) or n.attrib.get("lang")] *)
Definition lang_attr (n : Element) : option pystr :=
  por (get n XML_LANG) (get n (u "lang")).

(** [lang and lang.lower().startswith("ja")] *)
Definition is_ja_lang (n : Element) : bool :=
  match lang_attr n with
  | Some lang => truthy lang && startswith (u "ja") (lower lang)
  | None => false
  end.

(** The two nested loops that fill [ja_texts] and [other_texts]: the state
    is the pair of the two lists. *)
Definition lang_step (st : list (list N) * list (list N)) (n : Element)
  : list (list N) * list (list N) :=
  if bool_decide (local_name (tag n) = LANG_LOCAL) then
    match textnorm (Some (alltext n)) with
    | Some t =>
      if negb (truthy t) then st
      else if is_ja_lang n then (st.1 ++ [t], st.2) else (st.1, st.2 ++ [t])
    | None => st
    end
  else st.

Definition collect_langs (hits : list Element) : list (list N) * list (list N) :=
  fold_left (fun st h => fold_left lang_step (iter h) st) hits ([], []).

(** The local function [uniq]: state [(seen, out)]. *)
Definition uniq_step (st : gset (list N) * list (list N)) (s : pystr)
  : gset (list N) * list (list N) :=
  if bool_decide (s ∈ st.1) then st else ({[ s ]} ∪ st.1, st.2 ++ [s]).

Definition uniq (seq : list pystr) : list pystr :=
  (fold_left uniq_step seq (∅, [])).2.

Definition SEP : pystr := [10; 10].

(** [extract_section_texts]; the argument is the result of
    [ET.fromstring(xml_str)], [None] standing for an absent, empty or
    ill-formed [xml_str]. *)
Definition extract_section_texts (root : option Element) (target_names : gset (list N))
  : option pystr * option pystr :=
  match root with
  | None => (None, None)
  | Some root =>
    match find_hits root target_names with
    | [] => (None, None)
    | (h0 :: _) as hits =>
      let first_id := get h0 (u "id") in
      let '(ja_texts, other_texts) := collect_langs hits in
      match ja_texts, other_texts with
      | [], [] => (textnorm (Some (alltext h0)), first_id)
      | _, _ =>
        let parts :=
          (match ja_texts with [] => [] | _ => [join SEP (uniq ja_texts)] end)
          ++ (match other_texts with [] => [] | _ => [join SEP (uniq other_texts)] end) in
        (match parts with [] => None | _ => Some (strip (join SEP parts)) end, first_id)
      end
    end
  end.

End Women.

(** ** 32_label_women_risk.py: rule classification and confidence *)

Module Risk.

Declare Scope re_scope.
Delimit Scope re_scope with re.
Infix "<|>" := Alt (at level 50, left associativity) : re_scope.
Infix "<.>" := Seq (at level 40, left associativity) : re_scope.

(** A literal of a pattern. *)
Definition L (s : string) : regex := Str (u s).

Definition ru_re (c : char) : bool := (c =? 12427) || (c =? 12428).   (* [るれ] *)

Local Open Scope re_scope.

Definition PREG_RX3 : regex :=
  L "禁忌" <|> L "投与してはならない" <|> L "使用してはならない"
  <|> (L "投与しないこと" <.> NegLook (L "が望ましい"))
  <|> (L "使用しないこと" <.> NegLook (L "が望ましい")).

Definition PREG_RX2 : regex :=
  L "投与しないことが望ましい" <|> L "使用しないことが望ましい"
  <|> (L "原則" <.> DotStar <.> (L "投与" <|> L "使用") <.> L "しない")
  <|> ((L "投与" <|> L "使用") <.> L "は推奨されない")
  <|> ((L "投与" <|> L "使用") <.> L "を避けることが望ましい")
  <|> ((L "使用" <|> L "投与") <.> L "を回避することが望ましい")
  <|> (L "可能な限り" <.> (L "投与" <|> L "使用") <.> L "を避ける").

Definition PREG_RX1 : regex :=
  (Opt (L "治療上の") <.> (L "有益性" <|> L "ベネフィット" <|> L "利益" <|> L "利点")
     <.> DotStar <.> (L "危険性" <|> L "リスク") <.> DotStar
     <.> (L "上回" <|> L "凌駕") <.> Sat ru_re)
  <|> (L "必要" <.> Opt (L "な" <|> L "時") <.> L "場合に" <.> (L "限り" <|> L "のみ")
         <.> DotStar <.> (L "投与" <|> L "使用"))
  <|> (L "やむを得ない場合" <.> (L "に限り" <|> L "のみ") <.> DotStar
         <.> (L "投与" <|> L "使用"))
  <|> (L "必要最小限" <.> Opt (L "の用量" <|> L "の範囲") <.> Opt (L "での")
         <.> (L "投与" <|> L "使用"))
  <|> L "慎重に投与".

Definition PREG_RULES : list (Z * regex * list N) :=
  [ (3%Z, PREG_RX3, u "contraindicated");
    (2%Z, PREG_RX2, u "not_recommended");
    (1%Z, PREG_RX1, u "benefit_over_risk_or_caution") ].

Definition NURS_RX3 : regex :=
  (L "授乳" <.> DotStar <.> L "中止") <|> L "断乳"
  <|> (L "母乳栄養" <.> DotStar <.> L "中止").

Definition NURS_RX2 : regex :=
  L "有益性" <.> DotStar <.> L "考慮" <.> DotStar <.> L "授乳" <.> DotStar
  <.> (L "継続" <|> L "中止") <.> DotStar <.> L "検討".

Definition NURS_RX1 : regex :=
  (L "乳汁" <|> L "母乳") <.> DotStar <.> (L "移行" <|> L "検出" <|> L "認められた").

Definition NURS_RULES : list (Z * regex * list N) :=
  [ (3%Z, NURS_RX3, u "stop_lactation");
    (2%Z, NURS_RX2, u "consider_benefit");
    (1%Z, NURS_RX1, u "info_only") ].

Local Close Scope re_scope.

Definition normalize_for_match (s : option pystr) : pystr :=
  match s with
  | None => []
  | Some s =>
    let s := replace [10] [32] (replace [13] [32] (replace [12288] [32] s)) in
    let s := sub (PlusC isspace) [32] s in
    let s := replace (u "上廻る") (u "上回る") (replace (u "上まわる") (u "上回る") s) in
    strip s
  end.

(** The [for score, rx, tag in rules] loop. *)
Fixpoint classify_rules (rules : list (Z * regex * list N)) (t : pystr) : Z * list N :=
  match rules with
  | [] => (0%Z, u "unclear")
  | (score, rx, tag) :: rest =>
    if search rx t then (score, tag) else classify_rules rest t
  end.

(** [classify]; a [text] that is not a [str] is [None]. *)
Definition classify (text : option pystr) (rules : list (Z * regex * list N)) : Z * list N :=
  match text with
  | None => (0%Z, u "none")
  | Some s =>
    if negb (truthy (strip s)) then (0%Z, u "none")
    else classify_rules rules (normalize_for_match text)
  end.

Definition extract_flags (text : option pystr) (rx_dict : gmap (list N) regex)
  : gmap (list N) bool :=
  match text with
  | None => ∅
  | Some s =>
    if negb (truthy (strip s)) then ∅
    else (fun rx => search rx s) <$> rx_dict
  end.

(** Truth value of [flags.get(key)]. *)
Definition flag_set (flags : gmap (list N) bool) (key : pystr) : bool :=
  match flags !! key with
  | Some b => b
  | None => false
  end.

(** [3 if s==3 else 2 if s==2 else 1 if s==1 else 0] *)
Definition base_conf (score : Z) : Z :=
  (if score =? 3 then 3 else if score =? 2 then 2 else if score =? 1 then 1 else 0)%Z.

Definition preg_conf (p_score : Z) (preg_flags : gmap (list N) bool) : Z :=
  Z.min 3 (base_conf p_score
           + (if flag_set preg_flags (u "has_human_terato") then 1 else 0)
           + (if flag_set preg_flags (u "has_animal_terato") then 1 else 0))%Z.

Definition nurs_conf (n_score : Z) (nurs_flags : gmap (list N) bool) : Z :=
  Z.min 3 (base_conf n_score
           + (if flag_set nurs_flags (u "milk_transfer_detected") then 1 else 0)
           + (if flag_set nurs_flags (u "adverse_infant_effects") then 1 else 0))%Z.

End Risk.

Import Women Risk.

(** ** Label normalisation, step by step *)

(** Cut [s] where what remains is exactly one of the two noise tokens. *)
Fixpoint cut_trail_noise (s : pystr) : pystr :=
  match s with
  | [] => []
  | c :: s' => if eqs s TOU || eqs s NADO then [] else c :: cut_trail_noise s'
  end.

(** Remove one noise token from the start of [s]. *)
Definition cut_lead_noise (s : pystr) : pystr :=
  if startswith TOU s then drop 1 s
  else if startswith NADO s then drop 2 s
  else s.

(** Both ends cleared of whitespace and comma-like punctuation. *)
Definition trim_label (s : pystr) : pystr :=
  rstrip_by punct_or_space (lstrip_by punct_or_space s).

Definition is_noise (s : pystr) : bool := eqs s TOU || eqs s NADO.

(** The steps of [normalize_partner_label] on plain list functions: after a
    token is removed only whitespace is trimmed again. *)
Definition clean_label (s : pystr) : option pystr :=
  let t := trim_label s in
  if eqs t [] || is_noise t then None
  else or_none (strip (cut_lead_noise (strip (cut_trail_noise t)))).

(** [normalizeLabel] as the specification words it: trim whitespace and
    punctuation, give up on a lone noise token, strip a trailing and a
    leading noise token and trim again, the same trim as in the first step. *)
Definition normalizeLabel_spec (s : pystr) : option pystr :=
  let t := trim_label s in
  if eqs t [] || is_noise t then None
  else or_none (trim_label (cut_lead_noise (cut_trail_noise t))).

(** ** De-duplication, declaratively *)

(** Keep the first occurrence of every label: the head stays and is removed
    from what the rest of the list gives. *)
Fixpoint dedup_first (l : list pystr) : list pystr :=
  match l with
  | [] => []
  | x :: r => x :: filter (fun y => y <> x) (dedup_first r)
  end.

(** What the de-duplication loop appends when it starts with the set
    [seen]. *)
Fixpoint uniq_from (seen : gset (list N)) (l : list pystr) : list pystr :=
  match l with
  | [] => []
  | x :: r =>
    if bool_decide (x ∈ seen) then uniq_from seen r
    else x :: uniq_from ({[ x ]} ∪ seen) r
  end.

(** ** Sample documents *)

Module Samples.

(** [<Lang xml:lang="code">txt</Lang>] *)
Definition lang (code txt : string) : Element :=
  Elem (pi "Lang") {[ Ingest.XML_LANG := u code ]} (Some (u txt)) [] None.

(** [<Detail><Lang xml:lang="ja">txt</Lang></Detail>] *)
Definition detail (txt : string) : Element :=
  Elem (pi "Detail") ∅ None [lang "ja" txt] None.

Definition item (txt : string) : Element :=
  Elem (pi "Item") ∅ None [detail txt] None.

Definition simple_list (txts : list string) : Element :=
  Elem (pi "SimpleList") ∅ None (map item txts) None.

(** A [Drug] whose [DrugName] holds the given children, with optional
    symptoms and mechanism texts. *)
Definition drug (name_children : list Element) (more : list Element) : Element :=
  Elem (pi "Drug") ∅ None (Elem (pi "DrugName") ∅ None name_children None :: more) None.

Definition section (name txt : string) : Element :=
  Elem (pi name) ∅ None [detail txt] None.

(** A [DrugName] with two labels, the first of which is a lone noise
    token. *)
Definition two_labels : Element := drug [detail "等"; detail "抗コリン剤"] [].

(** A [Detail] whose only language variant is tagged [ja-JP]. *)
Definition detail_ja_JP : Element :=
  Elem (pi "Detail") ∅ None [lang "ja-JP" "本文"] None.

(** A [Detail] whose Japanese variant is itself structured:
    [<Lang xml:lang="ja"> 本剤<Sub>A</Sub>と<Sub>B</Sub> </Lang>]. *)
Definition detail_nested : Element :=
  Elem (pi "Detail") ∅ (Some (u "x"))
    [ lang "en" "text";
      Elem (pi "Lang") {[ Ingest.XML_LANG := u "ja" ]} (Some (u " 本剤"))
        [ Elem (pi "Sub") ∅ (Some (u "A")) [] (Some (u "と"));
          Elem (pi "Sub") ∅ (Some (u "B")) [] (Some (u " ")) ] None ]
    None.

(** The block of the specification's cardinality scenario. *)
Definition cyp_block : Element :=
  drug [detail "CYP3A阻害剤"; simple_list ["イトラコナゾール"; "クラリスロマイシン"]] [].

(** The block of the fallback scenario: a label and no item. *)
Definition anticholinergic_block : Element := drug [detail "抗コリン剤"] [].

(** The block of the end-to-end scenario. *)
Definition qt_block : Element :=
  drug [detail "強い CYP3A阻害剤"; simple_list ["イトラコナゾール"]]
       [section "ClinSymptomsAndMeasures" "QT延長";
        section "MechanismAndRiskFactors" "代謝阻害"].

Definition wrap (name : string) (cs : list Element) : Element :=
  Elem (pi name) ∅ None cs None.

(** A document whose caution section comes before its contraindication
    section, the latter holding its blocks under a grouping element. *)
Definition interactions_doc : Element :=
  wrap "PackageInsert"
    [ wrap "Interactions"
        [ wrap "PrecautionsForCombinations" [anticholinergic_block];
          wrap "ContraIndicatedCombinations" [wrap "Group" [qt_block]; cyp_block] ] ].

(** A document with two pregnancy sections under different namespaces,
    the first one nested deeper than the second. *)
Definition two_sections_doc : Element :=
  Elem (u "{urn:a}Doc") ∅ None
    [ Elem (u "{urn:a}Precautions") ∅ None
        [ Elem (u "{urn:a}UseInPregnant") {[ u "id" := u "sec-9.5" ]} None
            [lang "ja" "妊婦には投与しないこと。"] None ] None;
      Elem (u "{urn:b}Pregnant") {[ u "id" := u "sec-x" ]} (Some (u "text")) [] None ]
    None.

End Samples.

(** ** Rule tables and evidence flags, declaratively *)

(** The scores of a rule table never increase along the table. *)
Fixpoint desc_by_score (rules : list (Z * regex * list N)) : bool :=
  match rules with
  | [] => true
  | r :: rest => forallb (fun r' => (r'.1.1 <=? r.1.1)%Z) rest && desc_by_score rest
  end.

(** How many of the [keys] are present and true in [flags]. *)
Definition boost_count (flags : gmap (list N) bool) (keys : list pystr) : Z :=
  Z.of_nat (length (filter (fun k => flags !! k = Some true) keys)).

(** ** Notions used by the further properties *)

(** [r] occurs in [s] as one contiguous piece. *)
Definition piece_of (r s : list N) : Prop := exists pre post, s = pre ++ r ++ post.

(** ** 21_sgml2rawdata.py: the generic serialiser *)

Module Serializer.

(** The dictionary built by [elem_to_json]: the key [tag] is always there,
    each of [attr], [text] and [children] only when the code sets it. *)
#[local] Unset Elimination Schemes.
Inductive jnode : Type :=
| JNode (jtag : pystr) (jattr : option (gmap (list N) (list N)))
        (jtext : option pystr) (jchildren : option (list jnode)).
#[local] Set Elimination Schemes.

Definition jtag (j : jnode) : pystr := let 'JNode t _ _ _ := j in t.
Definition jattr (j : jnode) : option (gmap (list N) (list N)) := let 'JNode _ a _ _ := j in a.
Definition jtext (j : jnode) : option pystr := let 'JNode _ _ x _ := j in x.
Definition jchildren (j : jnode) : option (list jnode) := let 'JNode _ _ _ c := j in c.

Definition TAIL : pystr := u "__tail__".

(** [t.strip()] when [t and t.strip()] holds. *)
Definition nonblank (t : option pystr) : option pystr :=
  match t with
  | Some s => if truthy s && truthy (strip s) then Some (strip s) else None
  | None => None
  end.

(** The pseudo-node appended after a child whose tail is not blank. *)
Definition tail_nodes (t : option pystr) : list jnode :=
  match nonblank t with
  | Some s => [JNode TAIL None (Some s) None]
  | None => []
  end.

(** [elem_to_json] on an element. *)
Fixpoint elem_to_json (el : Element) : jnode :=
  match el with
  | Elem t a x cs _ =>
    let children := flat_map (fun ch => elem_to_json ch :: tail_nodes (tail ch)) cs in
    JNode t
      (if bool_decide (a = ∅) then None else Some a)
      (nonblank x)
      (match children with [] => None | _ :: _ => Some children end)
  end.

(** [elem_to_json] on [Optional[Element]]. *)
Definition elem_to_json_opt (el : option Element) : option jnode :=
  match el with
  | None => None
  | Some e => Some (elem_to_json e)
  end.

(** The [text] values of a serialised tree, parents before children,
    children left to right. *)
Fixpoint json_texts (j : jnode) : list pystr :=
  match j with
  | JNode _ _ x cs =>
    match x with Some s => [s] | None => [] end
    ++ match cs with Some l => flat_map json_texts l | None => [] end
  end.

(** Tag and attributes of the nodes that are not tail pseudo-nodes, in the
    same order. *)
Fixpoint json_elements (j : jnode) : list (list N * gmap (list N) (list N)) :=
  match j with
  | JNode t a _ cs =>
    (if bool_decide (t = TAIL) then [] else [(t, default ∅ a)])
    ++ match cs with Some l => flat_map json_elements l | None => [] end
  end.

(** The text pieces that survive serialisation: each piece stripped, the
    blank ones dropped. *)
Definition kept_texts (pieces : list pystr) : list pystr :=
  filter (fun s => s <> []) (map strip pieces).

End Serializer.

Import Serializer.

(** A string as the text getters return it: not empty, no whitespace at
    either end. *)
Definition clean (s : pystr) : Prop := s <> [] /\ strip s = s.

Definition clean_or_absent (o : option pystr) : Prop :=
  match o with
  | Some s => clean s
  | None => True
  end.

(** ** 22_build_sgml_interaction.py *)

Module Interaction.

(** A value decoded from JSON, as the driver hands over a [jsonb] column:
    [None], a [bool], a number (numerator and denominator), a [str], a
    [list] or a [dict] with string keys. *)
#[local] Unset Elimination Schemes.
Inductive json : Type :=
| JNull
| JBool (b : bool)
| JNum (num : Z) (den : positive)
| JStr (s : pystr)
| JArr (items : list json)
| JObj (fields : gmap (list N) json).
#[local] Set Elimination Schemes.

(** Truth value of a decoded value. *)
Definition jtruthy (v : json) : bool :=
  match v with
  | JNull => false
  | JBool b => b
  | JNum n _ => negb (n =? 0)%Z
  | JStr s => truthy s
  | JArr l => match l with [] => false | _ :: _ => true end
  | JObj m => negb (bool_decide (m = ∅))
  end.

(** [item.get(key)]: a missing key gives [None]. *)
Definition jget (fields : gmap (list N) json) (key : string) : json :=
  default JNull (fields !! u key).

(** A row for [sgml_interaction]. *)
Record row : Type := mkRow {
  package_insert_no : pystr;
  yj_code : pystr;
  section_type : json;
  partner_group_ja : json;
  partner_name_ja : json;
  symptoms_measures_ja : json;
  mechanism_ja : json
}.

(** The body of the [for item in inter_flat] loop: the row appended for
    one item, if any. *)
Definition item_row (pkg yj : pystr) (item : json) : option row :=
  match item with
  | JObj fields =>
    let section_type := jget fields "category" in
    let partner_name := jget fields "partner" in
    let symptoms := jget fields "symptoms" in
    let mechanism := jget fields "mechanism" in
    let partner_group := jget fields "group" in
    if negb (jtruthy partner_name || jtruthy partner_group
             || jtruthy symptoms || jtruthy mechanism)
    then None
    else Some (mkRow pkg yj section_type partner_group partner_name symptoms mechanism)
  | _ => None
  end.

Fixpoint item_rows (pkg yj : pystr) (items : list json) : list row :=
  match items with
  | [] => []
  | item :: rest =>
    match item_row pkg yj item with
    | Some r => r :: item_rows pkg yj rest
    | None => item_rows pkg yj rest
    end
  end.

Section BuildRows.

(** [json.loads], [None] standing for an exception. *)
Variable json_loads : list N -> option json.

Definition build_interaction_rows (pkg yj : pystr) (inter_flat : json) : list row :=
  if negb (jtruthy inter_flat) then [] else
  match inter_flat with
  | JStr s =>
    match json_loads s with
    | Some (JArr items) => item_rows pkg yj items
    | _ => []
    end
  | JArr items => item_rows pkg yj items
  | _ => []
  end.

End BuildRows.

(** What reading [interactions_flat] back from the database gives for the
    list that [collect_interactions_flat] stored there. *)
Definition ojson (o : option pystr) : json :=
  match o with
  | Some s => JStr s
  | None => JNull
  end.

Definition record_json (r : InteractionRecord) : json :=
  JObj (<[ u "partner" := ojson (partner r) ]>
        (<[ u "group" := ojson (group r) ]>
        (<[ u "symptoms" := ojson (symptoms r) ]>
        (<[ u "mechanism" := ojson (mechanism r) ]>
        (<[ u "category" := JStr (category r) ]> ∅))))).

Definition flat_json (flat : list InteractionRecord) : json :=
  JArr (map record_json flat).

(** The row that corresponds to a flat record. *)
Definition record_row (pkg yj : pystr) (r : InteractionRecord) : row :=
  mkRow pkg yj (JStr (category r)) (ojson (group r)) (ojson (partner r))
        (ojson (symptoms r)) (ojson (mechanism r)).

End Interaction.

Import Interaction.

(** What every record of the flat interaction list satisfies. *)
Definition well_formed_record (r : InteractionRecord) : Prop :=
  (exists p, partner r = Some p /\ clean p)
  /\ clean_or_absent (group r)
  /\ clean_or_absent (symptoms r)
  /\ clean_or_absent (mechanism r)
  /\ (category r = CONTRAINDICATED \/ category r = CAUTION).

(** A row that the skip test of [build_interaction_rows] lets through. *)
Definition informative (r : row) : bool :=
  jtruthy (partner_name_ja r) || jtruthy (partner_group_ja r)
  || jtruthy (symptoms_measures_ja r) || jtruthy (mechanism_ja r).

(** ** Whitespace clean-up, declaratively *)

(** Every run of characters of the class [p] becomes one space; [prev]
    says whether the character before [s] belongs to such a run. *)
Fixpoint collapse (p : char -> bool) (prev : bool) (s : pystr) : pystr :=
  match s with
  | [] => []
  | c :: s' =>
    if p c then (if prev then collapse p true s' else 32 :: collapse p true s')
    else c :: collapse p false s'
  end.

(** Of every run of newlines the first two are kept; [run] counts the
    newlines right before [s]. *)
Fixpoint squeeze (run : nat) (s : pystr) : pystr :=
  match s with
  | [] => []
  | c :: s' =>
    if c =? 10 then (if (2 <=? run)%nat then squeeze (S run) s' else 10 :: squeeze (S run) s')
    else c :: squeeze 0 s'
  end.

(** Every character of the class [p] is a space that stands alone: none
    follows another character of the class ([prev]: the character before
    [s] is of the class). *)
Fixpoint single_spaced (p : char -> bool) (prev : bool) (s : pystr) : bool :=
  match s with
  | [] => true
  | c :: s' =>
    if p c then (c =? 32) && negb prev && single_spaced p true s'
    else single_spaced p false s'
  end.

(** No three newlines in a row ([run] newlines stand right before [s]). *)
Fixpoint short_runs (run : nat) (s : pystr) : bool :=
  match s with
  | [] => true
  | c :: s' =>
    if c =? 10 then (run <? 2)%nat && short_runs (S run) s'
    else short_runs 0 s'
  end.

(** The characters of [s] that are not whitespace, in order. *)
Definition visible (s : pystr) : pystr := filter (fun c => isspace c = false) s.

(** What the two replacements of line ends do to a character that is not
    part of a CR LF pair. *)
Definition cr_to_lf (c : char) : char := if c =? 13 then 10 else c.

(** No character of [s] belongs to the class [p]. *)
Definition free_of (p : char -> bool) (s : pystr) : bool :=
  forallb (fun c => negb (p c)) s.

(** The form [textnorm] leaves a string in, and that form for a string
    that is not empty. *)
Definition normalised (t : pystr) : Prop :=
  strip t = t /\ (13 ∉ t)
  /\ single_spaced Women.blank_class false t = true /\ short_runs 0 t = true.

Definition filled (t : pystr) : Prop := t <> [] /\ normalised t.

(** ** 21_sgml2rawdata.py: one document, one row per brand *)

Module RawData.

(** The dictionary that [parse_xml_to_rows] builds for one row; the JSON
    columns hold the value wrapped by [psycopg2.extras.Json]. *)
Record raw_row : Type := mkRawRow {
  package_insert_no : pystr;
  yj_code : pystr;
  company_identifier : option pystr;
  prepared_ym : option pystr;
  brand_name_ja : option pystr;
  brand_name_hiragana : option pystr;
  trademark_en : option pystr;
  generic_name_ja : option pystr;
  standard_name_ja : option pystr;
  therapeutic_class_ja : option pystr;
  approval_no : option pystr;
  start_marketing : option pystr;
  approval_etc_json : option jnode;
  indications_json : option jnode;
  info_dose_admin_json : option jnode;
  interactions_json : option jnode;
  adverse_reactions_json : option jnode;
  composition_json : option jnode;
  property_json : option jnode;
  interactions_flat : list InteractionRecord;
  doc_xml : pystr;
  raw_xml_path : pystr
}.

(** [x or ""] *)
Definition or_empty (o : option pystr) : pystr :=
  match o with
  | Some s => if truthy s then s else []
  | None => []
  end.

(** The path ["pi:a/pi:b/..."]. *)
Definition path (names : list string) : list step := map (fun n => Child (pi n)) names.

Definition collect_indications_json (root : Element) : option jnode :=
  elem_to_json_opt (find (path ["IndicationsOrEfficacy"]) root).

Definition collect_info_dose_admin_json (root : Element) : option jnode :=
  elem_to_json_opt (find (path ["InfoDoseAdmin"]) root).

Section Parse.

(** [ET.tostring(root, encoding="unicode")] *)
Variable tostring : Element -> pystr.

(** [parse_xml_to_rows], from the root that [ET.parse(xml_path)] gives.
    The values [storage_method] and [shelf_life] that the loop computes
    for every brand go into no column. *)
Definition parse_xml_to_rows (xml_path : pystr) (root : Element) : list raw_row :=
  let pkg := or_empty (get_text (Some root) (path ["PackageInsertNo"])) in
  let company := get_text (Some root) (path ["CompanyIdentifier"]) in
  let prepared :=
    get_text (Some root)
      (path ["DateOfPreparationOrRevision"; "PreparationOrRevision"; "YearMonth"]) in
  let generic :=
    por (text_ja (find (path ["GenericName"; "Detail"]) root))
        (get_text (Some root) (path ["GenericName"])) in
  let therapeutic :=
    por (text_ja (find (path ["TherapeuticClassification"; "Detail"]) root))
        (get_text (Some root) (path ["TherapeuticClassification"])) in
  let approval_etc_json := elem_to_json_opt (find (path ["ApprovalEtc"]) root) in
  let indications_json := collect_indications_json root in
  let info_dose_admin_json := collect_info_dose_admin_json root in
  let interactions_json := elem_to_json_opt (find (path ["Interactions"]) root) in
  let adverse_reactions_json := elem_to_json_opt (find (path ["AdverseReactions"]) root) in
  let composition_json := elem_to_json_opt (find (path ["Composition"]) root) in
  let property_json := elem_to_json_opt (find (path ["Properties"]) root) in
  let doc_xml := tostring root in
  let inter_flat := collect_interactions_flat root in
  let brands := findall (path ["ApprovalEtc"; "DetailBrandName"]) root in
  match brands with
  | [] =>
    [ mkRawRow pkg [] company prepared None None None generic None therapeutic None None
        approval_etc_json indications_json info_dose_admin_json interactions_json
        adverse_reactions_json composition_json property_json
        inter_flat.2 doc_xml xml_path ]
  | _ =>
    map (fun br =>
      let yj := or_empty (get_text (Some br) (path ["BrandCode"; "YJCode"])) in
      let brand_name_ja :=
        por (text_ja (find (path ["ApprovalBrandName"]) br))
            (get_text (Some br) (path ["ApprovalBrandName"])) in
      let brand_hira := get_text (Some br) (path ["BrandNameInHiragana"; "NameInHiragana"]) in
      let trademark_en := get_text (Some br) (path ["TrademarkInEnglish"; "TrademarkName"]) in
      let approval_no := get_text (Some br) (path ["ApprovalAndLicenseNo"; "ApprovalNo"]) in
      let start_marketing := get_text (Some br) (path ["StartingDateOfMarketing"]) in
      let standard_name :=
        por (text_ja (find (path ["StandardName"; "StandardNameCategory"; "StandardNameDetail"]) br))
            (get_text (Some br) (path ["StandardName"])) in
      mkRawRow pkg yj company prepared brand_name_ja brand_hira trademark_en generic
        standard_name therapeutic approval_no start_marketing
        approval_etc_json indications_json info_dose_admin_json interactions_json
        adverse_reactions_json composition_json property_json
        inter_flat.2 doc_xml xml_path) brands
  end.

End Parse.

(** The columns that describe the document, not one brand of it. *)
Definition document_columns (r : raw_row) :=
  (package_insert_no r, company_identifier r, prepared_ym r, generic_name_ja r,
   therapeutic_class_ja r, approval_etc_json r, indications_json r,
   info_dose_admin_json r, interactions_json r, adverse_reactions_json r,
   composition_json r, property_json r, interactions_flat r, doc_xml r, raw_xml_path r).

(** The optional text columns of a row. *)
Definition text_columns (r : raw_row) : list (option pystr) :=
  [ company_identifier r; prepared_ym r; brand_name_ja r; brand_name_hiragana r;
    trademark_en r; generic_name_ja r; standard_name_ja r; therapeutic_class_ja r;
    approval_no r; start_marketing r ].

(** The brand columns of a row. *)
Definition brand_columns (r : raw_row) : list (option pystr) :=
  [ brand_name_ja r; brand_name_hiragana r; trademark_en r; standard_name_ja r;
    approval_no r; start_marketing r ].

End RawData.

(** ** 32_label_women_risk.py: evidence flags, labels and the row of [main] *)

Module Label.

Import Risk.

Local Open Scope re_scope.

Definition first_to_third (c : char) : bool :=       (* [一二三1-3] *)
  (c =? 19968) || (c =? 20108) || (c =? 19977) || ((49 <=? c) && (c <=? 51)).
Definition one_to_three (c : char) : bool := (49 <=? c) && (c <=? 51).   (* [1-3] *)
Definition digit (c : char) : bool :=                (* [0-9０-９] *)
  ((48 <=? c) && (c <=? 57)) || ((65296 <=? c) && (c <=? 65305)).

Definition PREG_EVIDENCE_RX : gmap (list N) regex :=
  {[ u "has_human_terato" :=
       (L "ヒト" <|> L "人") <.> DotStar
       <.> (L "奇形" <|> L "催奇形" <|> L "胎児障害" <|> L "胎児毒性" <|> L "胎児への影響"
            <|> (L "出生児" <.> DotStar <.> (L "障害" <|> L "影響")));
     u "has_animal_terato" :=
       (L "動物" <|> L "非臨床" <|> L "ラット" <|> L "マウス" <|> L "ウサギ" <|> L "サル")
       <.> DotStar
       <.> (L "催奇形" <|> L "奇形性" <|> L "胎児毒性" <|> (L "胚" <.> DotStar <.> L "致死")
            <|> (L "胎仔" <.> DotStar <.> L "死亡") <|> (L "胎児" <.> DotStar <.> L "影響"));
     u "has_nonmalform_harm" :=
       (L "新生児" <|> L "出生児") <.> DotStar
       <.> (L "呼吸抑制" <|> L "低血糖" <|> L "離脱" <|> L "禁断" <|> L "鎮静"
            <|> (L "筋" <.> (L "緊張" <|> L "弛緩")) <|> L "神経" <|> L "発達遅延" <|> L "出血"
            <|> (L "動脈管" <.> DotStar <.> (L "収縮" <|> L "閉鎖"))
            <|> (L "骨" <.> DotStar <.> (L "発育" <|> L "成長" <|> L "石灰化")));
     u "mentions_trimester" :=
       (L "妊娠" <.> (L "初期" <|> L "中期" <|> L "後期" <|> L "末期"))
       <|> (L "第" <.> Sat first_to_third <.> Opt (L "三") <.> L "半期")
       <|> (Sat one_to_three <.> L "期")
       <|> (L "妊娠" <.> Sat digit <.> Opt (Sat digit) <.> StarC isspace
            <.> Opt (L "ヶ") <.> L "月");
     u "mentions_uncertain" :=
       L "影響が不明" <|> (L "データが" <.> (L "ない" <|> L "不足")) <|> L "情報が不足"
       <|> L "未知";
     u "pharm_concern" :=
       L "薬理作用" <|> L "プロスタグランジン" <|> L "RAAS" <|> L "アンジオテンシン"
       <|> L "NSAID" <|> L "抗てんかん" <|> L "葉酸拮抗" <|> L "レチノイド" <|> L "スタチン" ]}.

(** Three of the nursing patterns, named for the statements about them. *)
Definition MILK_TRANSFER_DETECTED : regex :=
  (L "乳汁" <|> L "母乳") <.> DotStar
  <.> (L "移行" <|> L "検出" <|> L "認められた" <|> L "検出された").

Definition RECOMMEND_STOP_LACTATION : regex :=
  (L "授乳" <.> DotStar <.> L "中止") <|> L "断乳"
  <|> (L "母乳栄養" <.> DotStar <.> L "中止").

Definition RECOMMEND_CONSIDERATION : regex :=
  L "有益性" <.> DotStar <.> L "考慮" <.> DotStar <.> (L "継続" <|> L "中止")
  <.> DotStar <.> L "検討".

Definition NURS_EVIDENCE_RX : gmap (list N) regex :=
  {[ u "milk_transfer_detected" := MILK_TRANSFER_DETECTED;
     u "milk_transfer_not_detected" :=
       (L "乳汁" <|> L "母乳") <.> DotStar
       <.> (L "移行しない" <|> L "検出されなかった" <|> L "認められない");
     u "adverse_infant_effects" :=
       (L "乳児" <|> L "新生児" <|> L "出生児") <.> DotStar
       <.> (L "傾眠" <|> L "鎮静" <|> L "下痢" <|> L "発疹" <|> L "嘔吐" <|> L "体重増加不良"
            <|> L "呼吸抑制" <|> L "肝障害" <|> L "黄疸");
     u "recommend_stop_lactation" := RECOMMEND_STOP_LACTATION;
     u "recommend_consideration" := RECOMMEND_CONSIDERATION;
     u "pumping_discard" :=
       (L "搾乳" <.> DotStar <.> L "破棄") <|> (L "ミルク" <.> DotStar <.> L "置換")
       <|> L "代替栄養" <|> L "人工乳" ]}.

Local Close Scope re_scope.

(** [{3: "D/X", 2: "C", 1: "B", 0: "不明"}.get(score, "不明")] *)
Definition tora_label_preg (score : Z) : pystr :=
  default (u "不明")
    (({[ 3%Z := u "D/X"; 2%Z := u "C"; 1%Z := u "B"; 0%Z := u "不明" ]} : gmap Z (list N))
       !! score).

Definition tora_label_nurs (score : Z) : pystr :=
  default (u "不明")
    (({[ 3%Z := u "授乳中止"; 2%Z := u "有益性考慮"; 1%Z := u "情報提供"; 0%Z := u "不明" ]}
        : gmap Z (list N)) !! score).

(** What the loop of [main] computes for one row of the source table. *)
Record labels : Type := mkLabels {
  p_score : Z;
  p_rule : pystr;
  n_score : Z;
  n_rule : pystr;
  overall : Z;
  preg_flags : gmap (list N) bool;
  nurs_flags : gmap (list N) bool;
  preg_confidence : Z;
  nurs_confidence : Z;
  pregnant_label : pystr;
  nursing_label : pystr
}.

(** [row["..."] or ""] for a text column, absent when NULL. *)
Definition or_blank (o : option pystr) : pystr :=
  match o with
  | Some s => if truthy s then s else []
  | None => []
  end.

Definition label_row (pregnant_text nursing_text : option pystr) : labels :=
  let ptx := or_blank pregnant_text in
  let ntx := or_blank nursing_text in
  let '(p_score, p_rule) := classify (Some ptx) PREG_RULES in
  let '(n_score, n_rule) := classify (Some ntx) NURS_RULES in
  let overall := Z.max p_score n_score in
  let preg_flags := extract_flags (Some ptx) PREG_EVIDENCE_RX in
  let nurs_flags := extract_flags (Some ntx) NURS_EVIDENCE_RX in
  mkLabels p_score p_rule n_score n_rule overall preg_flags nurs_flags
    (preg_conf p_score preg_flags) (nurs_conf n_score nurs_flags)
    (tora_label_preg p_score) (tora_label_nurs n_score).

End Label.

(** A document with two brands, the second without a YJ code. *)
Definition two_brands_doc : Element :=
  Samples.wrap "PackageInsert"
    [ Elem (pi "PackageInsertNo") ∅ (Some (u " 123 ")) [] None;
      Samples.wrap "ApprovalEtc"
        [ Samples.wrap "DetailBrandName"
            [ Samples.wrap "BrandCode" [Elem (pi "YJCode") ∅ (Some (u "1234567F1020")) [] None];
              Elem (pi "ApprovalBrandName") ∅ None [Samples.lang "ja" "錠A"] None ];
          Samples.wrap "DetailBrandName" [] ] ].

(** ** Patterns that normalisation cannot disturb *)

(** The characters that [normalize_for_match] may change, drop or
    insert: whitespace and the characters of the spelling variants. *)
Definition junk (c : char) : bool :=
  isspace c || existsb (N.eqb c) (u "上まわる廻回").

(** Patterns made of literal words without such characters, joined by
    [.*], sequence and alternation. *)
Inductive plain_rx : regex -> Prop :=
| plain_str w : free_of junk w = true -> plain_rx (Str w)
| plain_any : plain_rx DotStar
| plain_seq a b : plain_rx a -> plain_rx b -> plain_rx (Seq a b)
| plain_alt a b : plain_rx a -> plain_rx b -> plain_rx (Alt a b).

(** * Properties *)

(** ** Literals and small checks *)

Example u_ascii : u "ja-JP" = [106; 97; 45; 74; 80].
Proof. reflexivity. Qed.

Example u_kanji : u "等" = [31561] /\ u "など" = [12394; 12393].
Proof. split; reflexivity. Qed.

Example strip_ex : strip (u "  a b　") = u "a b".
Proof. reflexivity. Qed.

Example replace_ex : replace (u "aa") (u "b") (u "aaaxaa") = u "baxb".
Proof. reflexivity. Qed.

Example split_last_ex :
  split_last 125 (u "{http://x}Lang") = u "Lang" /\ split_last 125 (u "Lang") = u "Lang"
  /\ split_last 125 (u "a}") = [].
Proof. repeat split; reflexivity. Qed.

Example search_ex1 : search (Seq (Str (u "ab")) (NegLook (Str (u "c")))) (u "xabcab") = true.
Proof. reflexivity. Qed.

Example search_ex2 : search (Seq (Str (u "ab")) (NegLook (Str (u "c")))) (u "xabc") = false.
Proof. reflexivity. Qed.

Example sub_ex1 : sub (PlusC isspace) (u " ") (u "a  b
 c") = u "a b c".
Proof. reflexivity. Qed.

Example sub_ex2 : sub (Seq (Str (u "b")) Eol) [] (u "abb") = u "ab".
Proof. reflexivity. Qed.

(** Without MULTILINE [$] also holds right before a final newline. *)
Example sub_ex3 : sub (Seq (Str (u "b")) Eol) [] [97; 98; 10] = [97; 10].
Proof. reflexivity. Qed.

Example sub_ex4 : sub (Seq (Str [10; 10; 10]) (StarC is_nl)) [10; 10] [97; 10; 10; 10; 10; 98; 10; 10] =
                  [97; 10; 10; 98; 10; 10].
Proof. reflexivity. Qed.

(** [a//b] lists the [b] descendants of every [a] child in document order,
    [a/b] the [b] children only. *)
Example findall_ex :
  let b i cs := Elem (u "b") {[ u "id" := u i ]} None cs None in
  let r := Elem (u "r") ∅ None
             [ Elem (u "a") ∅ None [b "1" [Elem (u "c") ∅ None [b "2" []] None]; b "3" []] None;
               Elem (u "a") ∅ None [b "4" []] None ] None in
  omap (fun e => get e (u "id")) (findall [Child (u "a"); Desc (u "b")] r) = [u "1"; u "2"; u "3"; u "4"]
  /\ omap (fun e => get e (u "id")) (findall [Child (u "a"); Child (u "b")] r) = [u "1"; u "3"; u "4"].
Proof. split; vm_compute; reflexivity. Qed.

Example itertext_ex :
  alltext (Elem (u "p") ∅ (Some (u "a"))
             [Elem (u "q") ∅ (Some (u "b")) [] (Some (u "c")); Elem (u "q") ∅ None [] (Some (u "d"))]
             (Some (u "not mine"))) = u "abcd".
Proof. reflexivity. Qed.

Example punct_chars : u "、，," = [12289; 65292; 44].
Proof. reflexivity. Qed.

Example normalize_ex1 :
  normalize_partner_label (Some (u "イトラコナゾール等")) = Some (u "イトラコナゾール").
Proof. vm_compute. reflexivity. Qed.

Example normalize_ex2 : normalize_partner_label (Some (u "等")) = None.
Proof. reflexivity. Qed.

Example normalize_ex3 : normalize_partner_label (Some (u "  ")) = None.
Proof. reflexivity. Qed.

Example normalize_ex4 : normalize_partner_label (Some (u "A、等")) = Some (u "A、").
Proof. reflexivity. Qed.

Example normalize_ex5 :
  normalize_partner_label (Some (u " 、などセイヨウオトギリソウ含有食品など，")) =
  Some (u "セイヨウオトギリソウ含有食品").
Proof. vm_compute. reflexivity. Qed.

(** ** Facts about stripping *)

Section Strip.

Variable p : char -> bool.

Lemma rstrip_by_cons c s :
  rstrip_by p (c :: s) =
  if forallb p (c :: s) then [] else c :: rstrip_by p s.
Proof.
  revert c. induction s as [|d s IH]; intros c; simpl.
  - destruct (p c); reflexivity.
  - specialize (IH d). simpl in IH.
    destruct (rstrip_by p s) as [|r rs] eqn:Hr.
    + destruct (p d) eqn:Hd; simpl in IH.
      * destruct (forallb p s) eqn:Hall; [|discriminate].
        destruct (p c); reflexivity.
      * rewrite andb_false_r. reflexivity.
    + destruct (p d) eqn:Hd; simpl in IH.
      * destruct (forallb p s) eqn:Hall; [discriminate|].
        rewrite andb_false_r. reflexivity.
      * rewrite andb_false_r. reflexivity.
Qed.

Lemma rstrip_by_nil s : rstrip_by p s = [] <-> forallb p s = true.
Proof.
  destruct s as [|c s]; [simpl; tauto|].
  rewrite rstrip_by_cons. destruct (forallb p (c :: s)); split; congruence.
Qed.

Lemma lstrip_by_nil s : lstrip_by p s = [] <-> forallb p s = true.
Proof.
  induction s as [|c s IH]; simpl; [tauto|].
  destruct (p c); simpl; [exact IH|]. split; discriminate.
Qed.

Lemma lstrip_by_head s c : head (lstrip_by p s) = Some c -> p c = false.
Proof.
  induction s as [|d s IH]; simpl; [discriminate|].
  destruct (p d) eqn:Hd; [exact IH|]. simpl. congruence.
Qed.

Lemma rstrip_by_last s c : last (rstrip_by p s) = Some c -> p c = false.
Proof.
  induction s as [|d s IH]; [discriminate|].
  rewrite rstrip_by_cons. destruct (forallb p (d :: s)) eqn:Hall; [discriminate|].
  destruct (rstrip_by p s) as [|r rs] eqn:Hr.
  - simpl. intros [= <-]. apply rstrip_by_nil in Hr. simpl in Hall.
    rewrite Hr, andb_true_r in Hall. exact Hall.
  - exact IH.
Qed.

Lemma rstrip_by_head s c :
  head (rstrip_by p s) = Some c -> head s = Some c.
Proof.
  destruct s as [|d s]; [discriminate|]. rewrite rstrip_by_cons.
  destruct (forallb p (d :: s)); [discriminate|]. trivial.
Qed.

Lemma lstrip_by_drop s : lstrip_by p s = drop (length s - length (lstrip_by p s))%nat s.
Proof.
  induction s as [|c s IH]; [reflexivity|]. simpl lstrip_by.
  destruct (p c).
  - assert (length (lstrip_by p s) <= length s)%nat.
    { rewrite IH at 1. rewrite length_drop. lia. }
    replace (length (c :: s) - length (lstrip_by p s))%nat
      with (S (length s - length (lstrip_by p s))) by (simpl; lia).
    exact IH.
  - rewrite Nat.sub_diag. reflexivity.
Qed.

Lemma lstrip_by_length s : (length (lstrip_by p s) <= length s)%nat.
Proof. rewrite lstrip_by_drop at 1. rewrite length_drop. lia. Qed.

End Strip.

Section StripTwo.

Variables p q : char -> bool.

Lemma lstrip_rstrip_comm s :
  lstrip_by p (rstrip_by q s) = rstrip_by q (lstrip_by p s).
Proof.
  induction s as [|c s IH]; [reflexivity|].
  simpl lstrip_by at 2. simpl rstrip_by at 1.
  destruct (rstrip_by q s) as [|r rs] eqn:Hr.
  - destruct (p c) eqn:Hc.
    + rewrite <- IH. destruct (q c); simpl; rewrite ?Hc; reflexivity.
    + simpl rstrip_by. rewrite Hr. destruct (q c); simpl; rewrite ?Hc; reflexivity.
  - simpl lstrip_by. destruct (p c) eqn:Hc.
    + exact IH.
    + simpl rstrip_by. rewrite Hr. reflexivity.
Qed.

Hypothesis p_sub_q : forall c, p c = true -> q c = true.

Lemma lstrip_by_absorb s : lstrip_by q (lstrip_by p s) = lstrip_by q s.
Proof.
  induction s as [|c s IH]; [reflexivity|]. simpl.
  destruct (p c) eqn:Hc; [rewrite (p_sub_q _ Hc); exact IH | reflexivity].
Qed.

Lemma rstrip_by_absorb s : rstrip_by q (rstrip_by p s) = rstrip_by q s.
Proof.
  induction s as [|c s IH]; [reflexivity|].
  rewrite (rstrip_by_cons p c s).
  destruct (forallb p (c :: s)) eqn:Hall.
  - symmetry. apply rstrip_by_nil.
    apply forallb_forall. intros x Hx. apply p_sub_q.
    exact (proj1 (forallb_forall p (c :: s)) Hall x Hx).
  - simpl. rewrite IH. reflexivity.
Qed.

End StripTwo.

(** ** What the substitutions of [normalize_partner_label] compute *)

Section SubFacts.

Lemma sub_go_skip r repl k s :
  sub_go r repl k false s = sub_go r repl 0 false (drop k s).
Proof.
  revert k. induction s as [|c s IH]; intros [|k]; try reflexivity.
  simpl. apply IH.
Qed.

Lemma star_ends_head p s : exists tl, star_ends p s = lstrip_by p s :: tl.
Proof.
  induction s as [|c s [tl IH]]; simpl; [eauto|].
  destruct (p c); [|eauto]. rewrite IH. simpl. eauto.
Qed.

(** A pattern that starts with [^] matches nowhere but at the start. *)
Lemma sub_go_bol_false r repl s : sub_go (Seq Bol r) repl 0 false s = s.
Proof.
  induction s as [|c s IH]; [reflexivity|]. simpl. rewrite IH. reflexivity.
Qed.

Lemma ends_bol_true r s : ends (Seq Bol r) true s = ends r true s.
Proof.
  simpl. rewrite Nat.eqb_refl, app_nil_r. reflexivity.
Qed.

(** [re.sub(r'^X+', '', s)] removes the leading run of [X]. *)
Lemma sub_lead_class p s : sub (Seq Bol (PlusC p)) [] s = lstrip_by p s.
Proof.
  unfold sub. destruct s as [|c s]; [reflexivity|].
  cbn [sub_go]. rewrite ends_bol_true. cbn [ends PlusC flat_map]. simpl lstrip_by.
  destruct (p c); cbn [flat_map].
  - rewrite app_nil_r. destruct (star_ends_head p s) as [tl ->].
    pose proof (lstrip_by_length p s).
    replace (length (c :: s) - length (lstrip_by p s))%nat
      with (S (length s - length (lstrip_by p s))) by (simpl; lia).
    cbn [app]. rewrite sub_go_skip, <- lstrip_by_drop. apply sub_go_bol_false.
  - cbn [app]. rewrite sub_go_bol_false. reflexivity.
Qed.

Lemma ends_eol_nil b e : e <> [] -> e <> [10] -> ends Eol b e = [].
Proof.
  intros H1 H2. cbn [ends].
  repeat match goal with
         | |- context [match ?x with _ => _ end] => destruct x
         end; congruence.
Qed.

(** Inside or right after a run of [X] that stops before the end of the
    string, [$] does not hold, provided the newline is an [X]. *)
Lemma star_ends_no_eol p s b d t :
  p 10 = true -> lstrip_by p s = d :: t ->
  flat_map (fun e => ends Eol (b e) e) (star_ends p s) = [].
Proof.
  intros Hnl. induction s as [|c s IH]; cbn [star_ends lstrip_by]; [discriminate|].
  destruct (p c) eqn:Hc.
  - intros Hs. rewrite flat_map_app, (IH Hs). cbn [flat_map app].
    rewrite ends_eol_nil; [reflexivity|discriminate|].
    intros [= -> ->]. discriminate.
  - intros _. cbn [flat_map]. rewrite ends_eol_nil; [reflexivity|discriminate|].
    intros [= -> ->]. congruence.
Qed.

Lemma sub_go_cons r repl b c s :
  sub_go r repl 0 b (c :: s) =
  match ends r b (c :: s) with
  | e :: _ =>
    match (length (c :: s) - length e)%nat with
    | O => c :: sub_go r repl 0 false s
    | S k => repl ++ sub_go r repl k false s
    end
  | [] => c :: sub_go r repl 0 false s
  end.
Proof. reflexivity. Qed.

Lemma ends_seq a b bos s :
  ends (Seq a b) bos s =
  flat_map (fun s' => ends b (bos && (length s' =? length s)%nat) s') (ends a bos s).
Proof. reflexivity. Qed.

Lemma ends_plusC p bos c s :
  ends (PlusC p) bos (c :: s) = if p c then star_ends p s else [].
Proof.
  unfold PlusC. rewrite ends_seq. cbn [ends]. destruct (p c); cbn [flat_map].
  - apply app_nil_r.
  - reflexivity.
Qed.

(** [re.sub(r'X+$', '', s)] removes the trailing run of [X]. *)
Lemma sub_go_trail_class p b s :
  p 10 = true -> sub_go (Seq (PlusC p) Eol) [] 0 b s = rstrip_by p s.
Proof.
  intros Hnl. revert b. induction s as [|c s IH]; intros b; [reflexivity|].
  rewrite rstrip_by_cons, sub_go_cons, ends_seq, ends_plusC. cbn [forallb].
  destruct (p c) eqn:Hc; cbn [andb flat_map].
  - destruct (lstrip_by p s) as [|d t] eqn:Hl.
    + destruct (star_ends_head p s) as [tl Htl]. rewrite Htl, Hl. cbn [flat_map ends app].
      apply lstrip_by_nil in Hl. rewrite Hl.
      cbn [length]. rewrite Nat.sub_0_r. cbn [app].
      rewrite sub_go_skip, drop_all. reflexivity.
    + rewrite (star_ends_no_eol p s _ d t Hnl Hl).
      assert (forallb p s = false) as ->.
      { destruct (forallb p s) eqn:Hall; [|reflexivity].
        apply lstrip_by_nil in Hall. congruence. }
      rewrite IH. reflexivity.
  - rewrite IH. reflexivity.
Qed.

Lemma sub_trail_class p s :
  p 10 = true -> sub (Seq (PlusC p) Eol) [] s = rstrip_by p s.
Proof. intros. apply sub_go_trail_class. assumption. Qed.

End SubFacts.

Section NoiseFacts.

Lemma ends_trail_noise b s :
  last s <> Some 10 ->
  ends rx_trail_noise b s = if eqs s TOU || eqs s NADO then [[]] else [].
Proof.
  intros Hlast. unfold rx_trail_noise, eqs, TOU, NADO. rewrite ends_seq.
  remember Eol as eol eqn:Heol. cbn [ends]. subst eol.
  destruct s as [|c [|c' s]].
  - reflexivity.
  - cbn [startswith length drop andb].
    destruct (N.eqb_spec 31561 c) as [<-|Hc].
    + reflexivity.
    + destruct (N.eqb_spec 12394 c) as [<-|Hc']; cbn [andb app flat_map];
        repeat case_bool_decide; simplify_eq; reflexivity.
  - cbn [startswith length drop andb].
    destruct (N.eqb_spec 31561 c) as [<-|Hc].
    + cbn [andb app flat_map]. rewrite app_nil_r.
      rewrite ends_eol_nil; [|discriminate|intros [= -> ->]; apply Hlast; reflexivity].
      repeat case_bool_decide; simplify_eq; reflexivity.
    + destruct (N.eqb_spec 12394 c) as [<-|Hc']; cbn [andb app flat_map].
      * destruct (N.eqb_spec 12393 c') as [<-|Hc2]; cbn [andb app flat_map].
        -- rewrite app_nil_r. destruct s as [|c3 s].
           ++ reflexivity.
           ++ rewrite ends_eol_nil; [|discriminate|].
              ** repeat case_bool_decide; simplify_eq; reflexivity.
              ** intros [= -> ->]. apply Hlast. reflexivity.
        -- repeat case_bool_decide; simplify_eq; reflexivity.
      * repeat case_bool_decide; simplify_eq; reflexivity.
Qed.

Lemma last_cons_cons (c d : N) (s : list N) : last (c :: d :: s) = last (d :: s).
Proof. reflexivity. Qed.

(** [re.sub(r'(等|など)$', '', s)] on a string that does not end in a
    newline. *)
Lemma sub_go_trail_noise b s :
  last s <> Some 10 -> sub_go rx_trail_noise [] 0 b s = cut_trail_noise s.
Proof.
  revert b. induction s as [|c s IH]; intros b Hlast; [reflexivity|].
  rewrite sub_go_cons, (ends_trail_noise b (c :: s) Hlast). cbn [cut_trail_noise].
  assert (sub_go rx_trail_noise [] 0 false s = cut_trail_noise s) as Hrec.
  { destruct s as [|d s]; [reflexivity|]. apply IH. rewrite <- last_cons_cons with (c := c).
    exact Hlast. }
  destruct (eqs (c :: s) TOU || eqs (c :: s) NADO) eqn:Hn.
  - cbn [length]. rewrite Nat.sub_0_r, sub_go_skip, drop_all. reflexivity.
  - rewrite Hrec. reflexivity.
Qed.

Lemma sub_trail_noise s :
  last s <> Some 10 -> sub rx_trail_noise [] s = cut_trail_noise s.
Proof. apply sub_go_trail_noise. Qed.

(** [re.sub(r'^(等|など)', '', s)] *)
Lemma sub_lead_noise s : sub rx_lead_noise [] s = cut_lead_noise s.
Proof.
  unfold sub, cut_lead_noise, rx_lead_noise, TOU, NADO.
  destruct s as [|c s]; [reflexivity|].
  rewrite sub_go_cons, ends_bol_true. cbn [ends].
  destruct (startswith [31561] (c :: s)) eqn:H1.
  - cbn [app length skipn]. rewrite drop_0.
    replace (S (length s) - length s)%nat with 1%nat by lia.
    apply sub_go_bol_false.
  - destruct (startswith [12394; 12393] (c :: s)) eqn:H2; cbn [app].
    + destruct s as [|d s]; [simpl in H2; rewrite andb_false_r in H2; discriminate|].
      cbn [length skipn]. rewrite drop_0.
      replace (S (S (length s)) - length s)%nat with 2%nat by lia.
      rewrite sub_go_skip. cbn [skipn]. rewrite drop_0. apply sub_go_bol_false.
    + rewrite sub_go_bol_false. reflexivity.
Qed.

End NoiseFacts.

(** ** C5: label normalisation *)

Lemma isspace_punct c : isspace c = true -> punct_or_space c = true.
Proof. unfold punct_or_space. intros ->. rewrite !orb_true_r. reflexivity. Qed.

(** The three clean-up steps at the start of [normalize_partner_label]
    amount to trimming both ends. *)
Lemma trim_steps s :
  sub rx_trail_punct [] (sub rx_lead_punct [] (strip s)) = trim_label s.
Proof.
  unfold rx_trail_punct, rx_lead_punct, strip, trim_label.
  rewrite sub_lead_class, sub_trail_class by reflexivity.
  rewrite lstrip_rstrip_comm.
  rewrite (rstrip_by_absorb isspace punct_or_space isspace_punct).
  rewrite (lstrip_by_absorb isspace punct_or_space isspace_punct).
  reflexivity.
Qed.

Lemma trim_label_last s : last (trim_label s) <> Some 10.
Proof.
  intros H. apply rstrip_by_last in H. discriminate.
Qed.

Lemma truthy_eqs_nil s : negb (truthy s) = eqs s [].
Proof. destruct s; reflexivity. Qed.

Lemma normalize_partner_label_clean s :
  normalize_partner_label (Some s) = clean_label s.
Proof.
  unfold normalize_partner_label, clean_label.
  destruct s as [|c s]; [reflexivity|]. cbn [truthy negb].
  rewrite trim_steps. set (t := trim_label (c :: s)).
  rewrite truthy_eqs_nil. unfold is_noise.
  destruct (eqs t []) eqn:Hnil; [reflexivity|]. cbn [orb].
  destruct (eqs t TOU || eqs t NADO) eqn:Hnoise; [reflexivity|].
  rewrite (sub_trail_noise t) by apply trim_label_last.
  rewrite sub_lead_noise. unfold or_none.
  destruct (strip (cut_lead_noise (strip (cut_trail_noise t)))); reflexivity.
Qed.

(** What [cut_trail_noise] removes: one token at the very end. *)
Lemma cut_trail_noise_tou x : cut_trail_noise (x ++ TOU) = x.
Proof.
  induction x as [|c x IH]; [reflexivity|].
  cbn [app cut_trail_noise]. rewrite IH.
  assert (eqs (c :: x ++ TOU) TOU || eqs (c :: x ++ TOU) NADO = false) as ->; [|reflexivity].
  unfold eqs, TOU, NADO. destruct x as [|d [|d' x]]; cbn [app];
    repeat case_bool_decide; simplify_eq; reflexivity.
Qed.

Lemma cut_trail_noise_nado x : cut_trail_noise (x ++ NADO) = x.
Proof.
  induction x as [|c x IH]; [reflexivity|].
  cbn [app cut_trail_noise]. rewrite IH.
  assert (eqs (c :: x ++ NADO) TOU || eqs (c :: x ++ NADO) NADO = false) as ->; [|reflexivity].
  unfold eqs, TOU, NADO. destruct x as [|d [|d' x]]; cbn [app];
    repeat case_bool_decide; simplify_eq; reflexivity.
Qed.

Lemma cut_trail_noise_other s :
  (forall x, s <> x ++ TOU) -> (forall x, s <> x ++ NADO) -> cut_trail_noise s = s.
Proof.
  induction s as [|c s IH]; intros H1 H2; [reflexivity|].
  cbn [cut_trail_noise].
  assert (eqs (c :: s) TOU || eqs (c :: s) NADO = false) as ->.
  { unfold eqs. apply orb_false_intro; apply bool_decide_eq_false_2; intros E.
    - apply (H1 []). exact E.
    - apply (H2 []). exact E. }
  rewrite IH; [reflexivity| |].
  - intros x ->. apply (H1 (c :: x)). reflexivity.
  - intros x ->. apply (H2 (c :: x)). reflexivity.
Qed.

Lemma strip_idem s : strip (strip s) = strip s.
Proof.
  unfold strip. rewrite (lstrip_rstrip_comm isspace isspace).
  rewrite (rstrip_by_absorb isspace isspace) by auto.
  rewrite (lstrip_by_absorb isspace isspace) by auto.
  reflexivity.
Qed.

(** A normalised label is never empty and carries no surrounding
    whitespace. *)
Lemma normalize_partner_label_result o r :
  normalize_partner_label o = Some r -> r <> [] /\ strip r = r.
Proof.
  destruct o as [s|]; [|discriminate].
  rewrite normalize_partner_label_clean. unfold clean_label, or_none.
  destruct (eqs (trim_label s) [] || is_noise (trim_label s)); [discriminate|].
  destruct (strip (cut_lead_noise (strip (cut_trail_noise (trim_label s))))) eqn:E;
    [discriminate|].
  cbn [truthy]. intros [= <-]. split; [discriminate|].
  rewrite <- E. apply strip_idem.
Qed.

(** C5, as the code has it: [normalize_partner_label] gives absent for an
    absent input; otherwise it removes the surrounding whitespace and
    comma-like punctuation ([trim_label]), gives absent when nothing or
    exactly one of the noise tokens 等 / など is left, and else removes one
    trailing and then one leading noise token, trimming whitespace only
    ([strip]) after each removal; an empty result is absent, any other is
    returned.  The three sample labels of the specification come out as it
    says. *)
Theorem normalize_partner_label_steps :
  normalize_partner_label None = None
  /\ (forall s, normalize_partner_label (Some s) = clean_label s)
  /\ (forall x, cut_trail_noise (x ++ TOU) = x)
  /\ (forall x, cut_trail_noise (x ++ NADO) = x)
  /\ normalize_partner_label (Some (u "イトラコナゾール等")) = Some (u "イトラコナゾール")
  /\ normalize_partner_label (Some (u "等")) = None
  /\ normalize_partner_label (Some (u "  ")) = None.
Proof.
  split; [reflexivity|].
  split; [exact normalize_partner_label_clean|].
  split; [exact cut_trail_noise_tou|].
  split; [exact cut_trail_noise_nado|].
  repeat split; vm_compute; reflexivity.
Qed.

(** C5, as the specification words it, fails: after a noise token is
    removed the code trims whitespace but not punctuation, so the label
    "A、等" keeps its comma, where trimming again as in the first step
    would give "A". *)
Lemma normalize_partner_label_keeps_comma :
  normalize_partner_label (Some (u "A、等")) = Some (u "A、")
  /\ normalizeLabel_spec (u "A、等") = Some (u "A")
  /\ normalize_partner_label (Some (u "A、等")) <> normalizeLabel_spec (u "A、等").
Proof.
  repeat split; try (vm_compute; reflexivity).
  vm_compute. discriminate.
Qed.

(** ** C7: de-duplication by first occurrence *)

Section Dedup.

Implicit Types (l : list (list N)) (x : list N) (seen : gset (list N)).

Lemma uniq_items_loop l seen out :
  (fold_left Ingest.uniq_step l (seen, out)).2 = out ++ uniq_from seen l.
Proof.
  revert seen out. induction l as [|x l IH]; intros seen out; cbn [fold_left uniq_from].
  - rewrite app_nil_r. reflexivity.
  - unfold Ingest.uniq_step at 2. cbn [fst snd].
    destruct (bool_decide (x ∈ seen)).
    + apply IH.
    + rewrite IH, <- app_assoc. reflexivity.
Qed.

Lemma women_uniq_loop l seen out :
  (fold_left Women.uniq_step l (seen, out)).2 = out ++ uniq_from seen l.
Proof.
  revert seen out. induction l as [|x l IH]; intros seen out; cbn [fold_left uniq_from].
  - rewrite app_nil_r. reflexivity.
  - unfold Women.uniq_step at 2. cbn [fst snd].
    destruct (bool_decide (x ∈ seen)).
    + apply IH.
    + rewrite IH, <- app_assoc. reflexivity.
Qed.

Lemma uniq_from_filter l seen :
  uniq_from seen l = filter (fun y => y ∉ seen) (dedup_first l).
Proof.
  revert seen. induction l as [|x l IH]; intros seen; [reflexivity|].
  cbn [uniq_from dedup_first]. case_bool_decide as Hx.
  - rewrite filter_cons_False by tauto.
    rewrite list_filter_filter_l; [apply IH|].
    intros y Hy ->. tauto.
  - rewrite filter_cons_True by assumption. f_equal.
    rewrite IH, list_filter_filter. apply list_filter_iff.
    intros y. rewrite not_elem_of_union, not_elem_of_singleton. tauto.
Qed.

Lemma uniq_items_dedup_first l : uniq_items l = dedup_first l.
Proof.
  unfold uniq_items. rewrite uniq_items_loop, uniq_from_filter. cbn [app].
  induction (dedup_first l) as [|y r IH]; [reflexivity|].
  rewrite filter_cons_True by set_solver. f_equal. exact IH.
Qed.

Lemma women_uniq_dedup_first l : uniq l = dedup_first l.
Proof.
  unfold uniq. rewrite women_uniq_loop, uniq_from_filter. cbn [app].
  induction (dedup_first l) as [|y r IH]; [reflexivity|].
  rewrite filter_cons_True by set_solver. f_equal. exact IH.
Qed.

Lemma dedup_first_elem l x : x ∈ dedup_first l <-> x ∈ l.
Proof.
  induction l as [|y l IH]; [reflexivity|]. cbn [dedup_first].
  rewrite !elem_of_cons, list_elem_of_filter, IH.
  destruct (decide (x = y)); tauto.
Qed.

Lemma dedup_first_NoDup l : NoDup (dedup_first l).
Proof.
  induction l as [|y l IH]; cbn [dedup_first]; constructor.
  - rewrite list_elem_of_filter. tauto.
  - apply NoDup_filter, IH.
Qed.

Lemma dedup_first_sublist l : dedup_first l `sublist_of` l.
Proof.
  induction l as [|y l IH]; cbn [dedup_first]; [constructor|].
  apply sublist_skip. etransitivity; [apply sublist_filter|exact IH].
Qed.

(** A label met again is dropped; a new label goes to the end. *)
Lemma dedup_first_snoc l x :
  dedup_first (l ++ [x]) =
  if bool_decide (x ∈ l) then dedup_first l else dedup_first l ++ [x].
Proof.
  induction l as [|y l IH]; [reflexivity|].
  cbn [app dedup_first]. rewrite IH.
  destruct (decide (x = y)) as [->|Hne].
  - rewrite (bool_decide_eq_true_2 (y ∈ y :: l)) by set_solver.
    case_bool_decide; [reflexivity|].
    rewrite filter_app, filter_cons_False, filter_nil, app_nil_r by tauto. reflexivity.
  - case_bool_decide as Hin.
    + rewrite (bool_decide_eq_true_2 (x ∈ y :: l)) by set_solver. reflexivity.
    + rewrite (bool_decide_eq_false_2 (x ∈ y :: l)) by (rewrite not_elem_of_cons; tauto).
      rewrite filter_app, filter_cons_True, filter_nil by assumption. reflexivity.
Qed.

End Dedup.

(** C7: the item list comes out of the de-duplication loop with every
    repeated label dropped at its later occurrences and the distinct labels
    in first-seen order: a label already met is skipped and a new one is
    appended, the result has no duplicate, is a sub-sequence of the input
    with the same labels, and is the first-occurrence de-duplication
    [dedup_first]; the items A, B, A, C give A, B, C.  The item list of
    [extract_partner_group_and_items] is such a result, and the [uniq] of
    the section locator is the same function. *)
Theorem uniq_items_first_occurrence :
  (forall items x,
     uniq_items (items ++ [x]) =
     if bool_decide (x ∈ items) then uniq_items items else uniq_items items ++ [x])
  /\ uniq_items [] = []
  /\ (forall items, uniq_items items = dedup_first items)
  /\ (forall items, NoDup (uniq_items items))
  /\ (forall items, uniq_items items `sublist_of` items)
  /\ (forall items, list_to_set (uniq_items items) =@{gset (list N)} list_to_set items)
  /\ uniq_items [u "A"; u "B"; u "A"; u "C"] = [u "A"; u "B"; u "C"]
  /\ (forall drug, NoDup (extract_partner_group_and_items drug).2)
  /\ (forall seq, uniq seq = uniq_items seq).
Proof.
  split; [intros; rewrite !uniq_items_dedup_first; apply dedup_first_snoc|].
  split; [reflexivity|].
  split; [exact uniq_items_dedup_first|].
  split; [intros; rewrite uniq_items_dedup_first; apply dedup_first_NoDup|].
  split; [intros; rewrite uniq_items_dedup_first; apply dedup_first_sublist|].
  split.
  { intros items. apply set_eq. intros x.
    rewrite !elem_of_list_to_set, uniq_items_dedup_first. apply dedup_first_elem. }
  split; [vm_compute; reflexivity|].
  split.
  - intros drug. unfold extract_partner_group_and_items.
    destruct (find _ drug); cbn [snd].
    + rewrite uniq_items_dedup_first. apply dedup_first_NoDup.
    + constructor.
  - intros seq. rewrite women_uniq_dedup_first, uniq_items_dedup_first. reflexivity.
Qed.

(** ** C8: the class label *)

Lemma detail_text_full_some d s : detail_text_full d = Some s -> s <> [].
Proof.
  unfold detail_text_full. destruct d as [e|]; [|discriminate].
  destruct (negb (otruthy _)); [discriminate|].
  intros H. apply normalize_partner_label_result in H. tauto.
Qed.

Lemma otruthy_detail_text_full d :
  otruthy (detail_text_full d) = bool_decide (detail_text_full d <> None).
Proof.
  destruct (detail_text_full d) as [s|] eqn:E; [|reflexivity].
  apply detail_text_full_some in E. destruct s; [congruence|reflexivity].
Qed.

(** The label loop returns the first text that is not absent. *)
Lemma first_label_head dets :
  first_label dets = head (omap (fun e => detail_text_full (Some e)) dets).
Proof.
  induction dets as [|d dets IH]; [reflexivity|].
  cbn [first_label omap list_omap]. rewrite otruthy_detail_text_full.
  destruct (detail_text_full (Some d)) as [s|] eqn:E; [reflexivity|exact IH].
Qed.

Lemma first_label_skip pre d post s :
  Forall (fun e => detail_text_full (Some e) = None) pre ->
  detail_text_full (Some d) = Some s ->
  first_label (pre ++ d :: post) = Some s.
Proof.
  intros Hpre Hd. rewrite first_label_head.
  induction Hpre as [|e pre He _ IH]; cbn [app omap list_omap].
  - rewrite Hd. reflexivity.
  - rewrite He. exact IH.
Qed.

Lemma first_label_none dets :
  Forall (fun e => detail_text_full (Some e) = None) dets -> first_label dets = None.
Proof.
  intros H. rewrite first_label_head.
  induction H as [|e dets He _ IH]; [reflexivity|]. cbn [omap list_omap]. rewrite He. exact IH.
Qed.

(** C8, as the code has it: the group label is the normalised full text
    of the first [Detail] child of [DrugName], in document order, whose
    normalised text is not absent; [Detail] children before it that
    normalise to absent are passed over, those after it are ignored, and
    the group is absent when there is no [DrugName] or no such [Detail]. *)
Theorem class_label_first_usable :
  (forall drug,
     (extract_partner_group_and_items drug).1 =
     match find [Child (pi "DrugName")] drug with
     | Some dn =>
       head (omap (fun e => detail_text_full (Some e)) (findall [Child (pi "Detail")] dn))
     | None => None
     end)
  /\ (forall pre d post s,
        Forall (fun e => detail_text_full (Some e) = None) pre ->
        detail_text_full (Some d) = Some s ->
        first_label (pre ++ d :: post) = Some s)
  /\ (forall dets,
        Forall (fun e => detail_text_full (Some e) = None) dets ->
        first_label dets = None).
Proof.
  split; [|split; [exact first_label_skip | exact first_label_none]].
  intros drug. unfold extract_partner_group_and_items.
  destruct (find _ drug); cbn [fst]; [apply first_label_head|reflexivity].
Qed.

(** C8 on [Samples.two_labels]: the first label is
    passed over and the second one gives the group. *)
Lemma class_label_first_usable_witness :
  first_label ([Samples.detail "等"] ++ Samples.detail "抗コリン剤" :: []) =
  Some (u "抗コリン剤").
Proof.
  apply (proj1 (proj2 class_label_first_usable)).
  - constructor; [vm_compute; reflexivity|constructor].
  - vm_compute. reflexivity.
Defined.

(** C8 as the specification states it fails: in [Samples.two_labels] the first [Detail] of
    [DrugName] holds a lone 等, which normalises to absent, and the group
    comes from the second [Detail]. *)
Lemma class_label_not_first_detail :
  (exists dn,
     find [Child (pi "DrugName")] Samples.two_labels = Some dn
     /\ findall [Child (pi "Detail")] dn = [Samples.detail "等"; Samples.detail "抗コリン剤"])
  /\ detail_text_full (Some (Samples.detail "等")) = None
  /\ (extract_partner_group_and_items Samples.two_labels).1 = Some (u "抗コリン剤")
  /\ (extract_partner_group_and_items Samples.two_labels).1
     <> detail_text_full (Some (Samples.detail "等")).
Proof.
  split; [eexists; split; vm_compute; reflexivity|].
  split; [vm_compute; reflexivity|].
  split; [vm_compute; reflexivity|].
  vm_compute. discriminate.
Qed.

(** ** C6: which language variant the text selector accepts *)

(** The loop of [lang_text_all] returns the first non-blank stripped
    subtree text among the variants whose [xml:lang] is exactly [ja]. *)
Lemma lang_text_all_langs_head langs :
  lang_text_all_langs langs =
  head (filter (fun t => t <> [])
          (map (fun l => strip (alltext l))
             (filter (fun l => get l Ingest.XML_LANG = Some ja) langs))).
Proof.
  induction langs as [|l langs IH]; [reflexivity|].
  cbn [lang_text_all_langs]. rewrite filter_cons. case_bool_decide as Hja.
  - rewrite decide_True by assumption. cbn [map]. rewrite filter_cons.
    destruct (strip (alltext l)) as [|c t] eqn:E; cbn [truthy].
    + rewrite decide_False by tauto. exact IH.
    + rewrite decide_True by discriminate. reflexivity.
  - rewrite decide_False by assumption. exact IH.
Qed.

Lemma lang_text_all_langs_skip pre l post :
  Forall (fun e => get e Ingest.XML_LANG <> Some ja \/ strip (alltext e) = []) pre ->
  get l Ingest.XML_LANG = Some ja ->
  strip (alltext l) <> [] ->
  lang_text_all_langs (pre ++ l :: post) = Some (strip (alltext l)).
Proof.
  intros Hpre Hl Htxt. induction Hpre as [|e pre He _ IH]; cbn [app lang_text_all_langs].
  - rewrite bool_decide_eq_true_2 by assumption.
    destruct (strip (alltext l)); [congruence|reflexivity].
  - destruct He as [He|He].
    + rewrite bool_decide_eq_false_2 by assumption. exact IH.
    + rewrite He. cbn [truthy]. destruct (bool_decide _); exact IH.
Qed.

Lemma lang_text_all_langs_none langs :
  Forall (fun e => get e Ingest.XML_LANG <> Some ja) langs ->
  lang_text_all_langs langs = None.
Proof.
  intros H. induction H as [|e langs He _ IH]; [reflexivity|].
  cbn [lang_text_all_langs]. rewrite bool_decide_eq_false_2 by assumption. exact IH.
Qed.

Lemma lower_app (a b : list N) : lower (a ++ b) = lower a ++ lower b.
Proof. apply map_app. Qed.

Lemma startswith_app (p s : list N) : startswith p (p ++ s) = true.
Proof.
  induction p as [|c p IH]; [reflexivity|]. cbn [app startswith].
  rewrite N.eqb_refl. exact IH.
Qed.

(** The section locator takes any attribute value that starts with [ja],
    whatever the letter case. *)
Lemma is_ja_lang_prefix n code rest :
  lang_attr n = Some (code ++ rest) -> lower code = u "ja" -> is_ja_lang n = true.
Proof.
  intros Hattr Hcode. unfold is_ja_lang. rewrite Hattr, lower_app, Hcode.
  rewrite startswith_app, andb_true_r.
  destruct code; [discriminate|reflexivity].
Qed.

(** C6, as the code has it: in the text selector of the ingestion script
    a [Lang] child is the Japanese variant only when its [xml:lang]
    attribute is exactly [ja]; [lang_text_all] returns the stripped
    concatenation of all descendant text of the first such child whose text
    is not blank, and absent when no [Lang] child carries exactly [ja].  The
    prefix match that ignores case belongs to the section locator, whose
    [is_ja_lang] takes every attribute value that starts with [ja]. *)
Theorem lang_text_all_exact_ja :
  (forall d,
     lang_text_all (Some d) =
     head (filter (fun t => t <> [])
             (map (fun l => strip (alltext l))
                (filter (fun l => get l Ingest.XML_LANG = Some ja)
                   (findall [Child (pi "Lang")] d)))))
  /\ (forall d pre l post,
        findall [Child (pi "Lang")] d = pre ++ l :: post ->
        Forall (fun e => get e Ingest.XML_LANG <> Some ja \/ strip (alltext e) = []) pre ->
        get l Ingest.XML_LANG = Some ja ->
        strip (alltext l) <> [] ->
        lang_text_all (Some d) = Some (strip (alltext l)))
  /\ (forall d,
        Forall (fun e => get e Ingest.XML_LANG <> Some ja) (findall [Child (pi "Lang")] d) ->
        lang_text_all (Some d) = None)
  /\ (forall n code rest,
        lang_attr n = Some (code ++ rest) -> lower code = u "ja" -> is_ja_lang n = true).
Proof.
  split; [intros d; apply lang_text_all_langs_head|].
  split.
  { intros d pre l post Hall Hpre Hl Htxt. unfold lang_text_all. rewrite Hall.
    apply lang_text_all_langs_skip; assumption. }
  split; [intros d H; apply lang_text_all_langs_none; exact H|].
  exact is_ja_lang_prefix.
Qed.

(** C6 on [Samples.detail_nested]: the English variant is
    passed over and the whole subtree text of the [ja] variant is
    returned, stripped. *)
Lemma lang_text_all_exact_ja_witness :
  lang_text_all (Some Samples.detail_nested) = Some (u "本剤AとB").
Proof.
  apply (proj1 (proj2 lang_text_all_exact_ja) Samples.detail_nested
           [Samples.lang "en" "text"]
           (Elem (pi "Lang") {[ Ingest.XML_LANG := u "ja" ]} (Some (u " 本剤"))
              [ Elem (pi "Sub") ∅ (Some (u "A")) [] (Some (u "と"));
                Elem (pi "Sub") ∅ (Some (u "B")) [] (Some (u " ")) ] None)
           []).
  - vm_compute. reflexivity.
  - constructor; [left; vm_compute; discriminate|constructor].
  - vm_compute. reflexivity.
  - vm_compute. discriminate.
Defined.

(** C6 as the specification states it fails: a [Lang] child tagged [ja-JP] is not taken as the
    Japanese variant by the text selector ([lang_text_all], [text_ja] and
    [detail_text_full] all give absent on [Samples.detail_ja_JP]), although
    the section locator would take it. *)
Lemma lang_text_all_rejects_ja_JP :
  findall [Child (pi "Lang")] Samples.detail_ja_JP = [Samples.lang "ja-JP" "本文"]
  /\ is_ja_lang (Samples.lang "ja-JP" "本文") = true
  /\ strip (alltext (Samples.lang "ja-JP" "本文")) = u "本文"
  /\ lang_text_all (Some Samples.detail_ja_JP) = None
  /\ text_ja (Some Samples.detail_ja_JP) = None
  /\ detail_text_full (Some Samples.detail_ja_JP) = None
  /\ lang_text_all (Some Samples.detail_ja_JP)
     <> Some (strip (alltext (Samples.lang "ja-JP" "本文"))).
Proof.
  repeat split; try (vm_compute; reflexivity).
  vm_compute. discriminate.
Qed.

(** ** C1: records per drug-reference block *)

Lemma first_label_some dets s : first_label dets = Some s -> s <> [].
Proof.
  rewrite first_label_head.
  induction dets as [|d dets IH]; [discriminate|]. cbn [omap list_omap].
  destruct (detail_text_full (Some d)) as [t|] eqn:E; [|exact IH].
  cbn [head]. intros [= <-]. exact (detail_text_full_some _ _ E).
Qed.

(** The class label of a block is absent or a non-empty string. *)
Lemma class_label_truthy drug l :
  (extract_partner_group_and_items drug).1 = Some l -> otruthy (Some l) = true.
Proof.
  unfold extract_partner_group_and_items.
  destruct (find _ drug); cbn [fst]; [|discriminate].
  intros H. apply first_label_some in H. destruct l; [congruence|reflexivity].
Qed.

Lemma block_records_items cat drug g p items :
  extract_partner_group_and_items drug = (g, p :: items) ->
  block_records cat drug =
  map (fun x => mkRecord (Some x) g (get_symptoms_and_mechanism drug).1
                         (get_symptoms_and_mechanism drug).2 cat) (p :: items).
Proof.
  intros H. unfold block_records. rewrite H.
  destruct (get_symptoms_and_mechanism drug). reflexivity.
Qed.

Lemma block_records_label cat drug l :
  extract_partner_group_and_items drug = (Some l, []) ->
  block_records cat drug =
  [mkRecord (Some l) (Some l) (get_symptoms_and_mechanism drug).1
            (get_symptoms_and_mechanism drug).2 cat].
Proof.
  intros H. unfold block_records. rewrite H.
  destruct (get_symptoms_and_mechanism drug).
  rewrite (class_label_truthy drug l) by (rewrite H; reflexivity). reflexivity.
Qed.

Lemma block_records_none cat drug :
  extract_partner_group_and_items drug = (None, []) -> block_records cat drug = [].
Proof.
  intros H. unfold block_records. rewrite H.
  destruct (get_symptoms_and_mechanism drug). reflexivity.
Qed.

(** C1: a block whose extraction gives the items p1 .. pN (N >= 1) yields
    exactly N records, one per item in order, all with the block's group,
    symptoms and mechanism and the category of the section; a block with no
    item but a class label yields one record whose partner is its group; a
    block with neither yields none.  [collect_interactions_flat] appends
    these records block after block. *)
Theorem block_records_cardinality :
  (forall cat drug g p items,
     extract_partner_group_and_items drug = (g, p :: items) ->
     block_records cat drug =
     map (fun x => mkRecord (Some x) g (get_symptoms_and_mechanism drug).1
                            (get_symptoms_and_mechanism drug).2 cat) (p :: items)
     /\ length (block_records cat drug) = length (p :: items))
  /\ (forall cat drug l,
        extract_partner_group_and_items drug = (Some l, []) ->
        block_records cat drug =
        [mkRecord (Some l) (Some l) (get_symptoms_and_mechanism drug).1
                  (get_symptoms_and_mechanism drug).2 cat])
  /\ (forall cat drug,
        extract_partner_group_and_items drug = (None, []) ->
        block_records cat drug = [])
  /\ (forall root,
        (collect_interactions_flat root).2 =
        flat_map (block_records CONTRAINDICATED) (contra_drugs root)
        ++ flat_map (block_records CAUTION) (caution_drugs root)).
Proof.
  split.
  { intros cat drug g p items H. rewrite (block_records_items cat drug g p items H).
    split; [reflexivity|]. rewrite length_map. reflexivity. }
  split; [exact block_records_label|].
  split; [exact block_records_none|].
  reflexivity.
Qed.

(** The cardinality scenario of the specification: two items under the
    label CYP3A阻害剤 give two contraindication records. *)
Lemma block_records_cardinality_witness :
  block_records CONTRAINDICATED Samples.cyp_block =
  [ mkRecord (Some (u "イトラコナゾール")) (Some (u "CYP3A阻害剤")) None None CONTRAINDICATED;
    mkRecord (Some (u "クラリスロマイシン")) (Some (u "CYP3A阻害剤")) None None CONTRAINDICATED ]
  /\ length (block_records CONTRAINDICATED Samples.cyp_block) = 2%nat.
Proof.
  assert (extract_partner_group_and_items Samples.cyp_block =
          (Some (u "CYP3A阻害剤"), [u "イトラコナゾール"; u "クラリスロマイシン"])) as H
    by (vm_compute; reflexivity).
  destruct (proj1 block_records_cardinality CONTRAINDICATED _ _ _ _ H) as [Hrec Hlen].
  split; [|exact Hlen].
  rewrite Hrec. vm_compute. reflexivity.
Defined.

Example block_records_fallback :
  block_records CAUTION Samples.anticholinergic_block =
  [ mkRecord (Some (u "抗コリン剤")) (Some (u "抗コリン剤")) None None CAUTION ].
Proof. vm_compute. reflexivity. Qed.

Example block_records_end_to_end :
  block_records CONTRAINDICATED Samples.qt_block =
  [ mkRecord (Some (u "イトラコナゾール")) (Some (u "強い CYP3A阻害剤"))
             (Some (u "QT延長")) (Some (u "代謝阻害")) (u "併用禁忌") ].
Proof. vm_compute. reflexivity. Qed.

(** ** C10: order of the flat interaction list *)

Section DocumentOrder.

Lemma sublist_flat_map {A B} (f g : A -> list B) (l : list A) :
  (forall x, f x `sublist_of` g x) -> flat_map f l `sublist_of` flat_map g l.
Proof.
  intros H. induction l as [|x l IH]; cbn [flat_map]; [constructor|].
  apply sublist_app; [apply H|exact IH].
Qed.

Lemma children_sublist_iter e : flat_map iter (children e) `sublist_of` iter e.
Proof. destruct e as [t a x cs tl]. cbn [children iter]. apply sublist_cons. reflexivity. Qed.

Lemma self_sublist_iter (l : list Element) : l `sublist_of` flat_map iter l.
Proof.
  induction l as [|e l IH]; [constructor|]. cbn [flat_map].
  destruct e as [t a x cs tl]. cbn [iter app]. apply sublist_skip.
  etransitivity; [exact IH|]. apply sublist_inserts_l. reflexivity.
Qed.

Lemma sublist_flat_map_sub {A B} (f : A -> list B) (l k : list A) :
  l `sublist_of` k -> flat_map f l `sublist_of` flat_map f k.
Proof.
  induction 1 as [|x l k _ IH|x l k _ IH]; cbn [flat_map].
  - constructor.
  - apply sublist_app; [reflexivity|exact IH].
  - apply sublist_inserts_l. exact IH.
Qed.

(** A child step keeps the subtrees selected so far in document order. *)
Lemma select_child_order t (result : list Element) :
  flat_map iter (select (Child t) result) `sublist_of` flat_map iter result.
Proof.
  induction result as [|e result IH]; [constructor|].
  cbn [select flat_map] in *. rewrite flat_map_app.
  apply sublist_app; [|exact IH].
  etransitivity; [|apply children_sublist_iter].
  apply sublist_flat_map_sub, sublist_filter.
Qed.

(** A descendant step lists elements of the selected subtrees in document
    order. *)
Lemma select_desc_order t (result : list Element) :
  select (Desc t) result `sublist_of` flat_map iter result.
Proof.
  cbn [select]. apply sublist_flat_map. intros e.
  etransitivity; [|apply children_sublist_iter].
  apply sublist_flat_map. intros c. apply sublist_filter.
Qed.

Lemma section_drugs_order (name : string) root :
  findall [Child (pi "Interactions"); Child (pi name); Desc (pi "Drug")] root
  `sublist_of` iter root.
Proof.
  unfold findall. cbn [fold_left].
  etransitivity; [apply select_desc_order|].
  etransitivity; [apply select_child_order|].
  etransitivity; [apply select_child_order|].
  cbn [flat_map]. rewrite app_nil_r. reflexivity.
Qed.

Lemma block_records_category cat drug :
  Forall (fun r => category r = cat) (block_records cat drug).
Proof.
  unfold block_records.
  destruct (extract_partner_group_and_items drug) as [g items].
  destruct (get_symptoms_and_mechanism drug) as [sy me].
  destruct items as [|p items].
  - destruct (otruthy g); repeat constructor.
  - apply Forall_forall. intros r Hr. apply list_elem_of_In, in_map_iff in Hr.
    destruct Hr as (x & <- & _). reflexivity.
Qed.

Lemma flat_map_category cat (drugs : list Element) :
  Forall (fun r => category r = cat) (flat_map (block_records cat) drugs).
Proof.
  induction drugs as [|d drugs IH]; cbn [flat_map]; [constructor|].
  apply Forall_app. split; [apply block_records_category|exact IH].
Qed.

Lemma categories_differ : CONTRAINDICATED <> CAUTION.
Proof. discriminate. Qed.

End DocumentOrder.

(** C10: the flat list is the records of the contraindication blocks
    followed by the records of the caution blocks, so that every 併用禁忌
    record stands before every 併用注意 record; inside each part the
    records follow their blocks, which are taken in document order (the
    order of [iter]). *)
Theorem flat_contraindicated_first root :
  (collect_interactions_flat root).2 =
    flat_map (block_records CONTRAINDICATED) (contra_drugs root)
    ++ flat_map (block_records CAUTION) (caution_drugs root)
  /\ Forall (fun r => category r = CONTRAINDICATED)
       (flat_map (block_records CONTRAINDICATED) (contra_drugs root))
  /\ Forall (fun r => category r = CAUTION)
       (flat_map (block_records CAUTION) (caution_drugs root))
  /\ contra_drugs root `sublist_of` iter root
  /\ caution_drugs root `sublist_of` iter root
  /\ (forall i j ri rj,
        (collect_interactions_flat root).2 !! i = Some ri ->
        (collect_interactions_flat root).2 !! j = Some rj ->
        category ri = CONTRAINDICATED -> category rj = CAUTION -> (i < j)%nat).
Proof.
  split; [reflexivity|].
  split; [apply flat_map_category|].
  split; [apply flat_map_category|].
  split; [apply section_drugs_order|].
  split; [apply section_drugs_order|].
  intros i j ri rj Hi Hj Hci Hcj. cbn [collect_interactions_flat snd] in Hi, Hj.
  pose proof (flat_map_category CONTRAINDICATED (contra_drugs root)) as H1.
  pose proof (flat_map_category CAUTION (caution_drugs root)) as H2.
  set (l1 := flat_map (block_records CONTRAINDICATED) (contra_drugs root)) in *.
  set (l2 := flat_map (block_records CAUTION) (caution_drugs root)) in *.
  destruct (decide (i < length l1)%nat) as [Hlt|Hge].
  - destruct (decide (j < length l1)%nat) as [Hjlt|Hjge]; [|lia].
    rewrite lookup_app_l in Hj by assumption.
    apply list_elem_of_lookup_2 in Hj.
    rewrite Forall_forall in H1. specialize (H1 rj Hj).
    exfalso. apply categories_differ. congruence.
  - rewrite lookup_app_r in Hi by lia.
    apply list_elem_of_lookup_2 in Hi.
    rewrite Forall_forall in H2. specialize (H2 ri Hi).
    exfalso. apply categories_differ. congruence.
Qed.

Example flat_order_sample :
  map (fun r => (partner r, category r)) (collect_interactions_flat Samples.interactions_doc).2 =
  [ (Some (u "イトラコナゾール"), u "併用禁忌");
    (Some (u "イトラコナゾール"), u "併用禁忌");
    (Some (u "クラリスロマイシン"), u "併用禁忌");
    (Some (u "抗コリン剤"), u "併用注意") ].
Proof. vm_compute. reflexivity. Qed.

(** ** C9: the source id of the section locator *)

(** Settles a closed decidable statement by evaluation. *)
Ltac by_decide :=
  cbv beta;
  match goal with
  | |- ?P => apply (bool_decide_eq_true_1 P); vm_compute; reflexivity
  end.

Lemma find_hits_first (root : Element) (targets : gset (list N)) pre h post :
  iter root = pre ++ h :: post ->
  Forall (fun e => local_name (tag e) ∉ targets) pre ->
  local_name (tag h) ∈ targets ->
  exists rest, find_hits root targets = h :: rest.
Proof.
  intros Hiter Hpre Hh. unfold find_hits. rewrite Hiter, filter_app.
  assert (filter (fun elem => local_name (tag elem) ∈ targets) pre = []) as ->.
  { clear Hiter. induction Hpre as [|e pre He _ IH]; [reflexivity|].
    rewrite filter_cons_False by assumption. exact IH. }
  rewrite filter_cons_True by assumption. eauto.
Qed.

Lemma find_hits_none (root : Element) (targets : gset (list N)) :
  Forall (fun e => local_name (tag e) ∉ targets) (iter root) ->
  find_hits root targets = [].
Proof.
  unfold find_hits. intros H.
  induction H as [|e l He _ IH]; [reflexivity|].
  rewrite filter_cons_False by assumption. exact IH.
Qed.

Lemma extract_section_texts_id (root : Element) (targets : gset (list N)) h rest :
  find_hits root targets = h :: rest ->
  (extract_section_texts (Some root) targets).2 = get h (u "id").
Proof.
  intros H. unfold extract_section_texts. rewrite H.
  destruct (collect_langs (h :: rest)) as [[|j js] [|o os]]; reflexivity.
Qed.

(** C9: when some element of the document has its local tag name in the
    target set, the source id returned by [extract_section_texts] is the
    [id] attribute of the first such element in the depth-first, document
    order traversal [iter]; when no element has, the result is
    (absent, absent). *)
Theorem extract_section_texts_source_id :
  (forall (root : Element) (targets : gset (list N)) pre h post,
     iter root = pre ++ h :: post ->
     Forall (fun e => local_name (tag e) ∉ targets) pre ->
     local_name (tag h) ∈ targets ->
     (extract_section_texts (Some root) targets).2 = get h (u "id"))
  /\ (forall (root : Element) (targets : gset (list N)),
        Forall (fun e => local_name (tag e) ∉ targets) (iter root) ->
        extract_section_texts (Some root) targets = (None, None))
  /\ (forall t a x cs tl,
        iter (Elem t a x cs tl) = Elem t a x cs tl :: flat_map iter cs).
Proof.
  split.
  { intros root targets pre h post Hiter Hpre Hh.
    destruct (find_hits_first root targets pre h post Hiter Hpre Hh) as [rest Hhits].
    exact (extract_section_texts_id root targets h rest Hhits). }
  split; [|reflexivity].
  intros root targets H. unfold extract_section_texts.
  rewrite (find_hits_none root targets H). reflexivity.
Qed.

(** C9 on [Samples.two_sections_doc]: of its two pregnancy sections the
    one met first in document order gives the source id, although it lies
    deeper in the tree than the other. *)
Lemma extract_section_texts_source_id_witness :
  (extract_section_texts (Some Samples.two_sections_doc) PREGNANT_TAGS).2 =
  Some (u "sec-9.5").
Proof.
  rewrite (proj1 extract_section_texts_source_id Samples.two_sections_doc PREGNANT_TAGS
           [ Samples.two_sections_doc;
             Elem (u "{urn:a}Precautions") ∅ None
               [ Elem (u "{urn:a}UseInPregnant") {[ u "id" := u "sec-9.5" ]} None
                   [Samples.lang "ja" "妊婦には投与しないこと。"] None ] None ]
           (Elem (u "{urn:a}UseInPregnant") {[ u "id" := u "sec-9.5" ]} None
              [Samples.lang "ja" "妊婦には投与しないこと。"] None)
           [ Samples.lang "ja" "妊婦には投与しないこと。";
             Elem (u "{urn:b}Pregnant") {[ u "id" := u "sec-x" ]} (Some (u "text")) [] None ]).
  - vm_compute. reflexivity.
  - vm_compute. reflexivity.
  - apply Forall_cons_2; [by_decide|]. apply Forall_cons_2; [by_decide|]. apply Forall_nil_2.
  - by_decide.
Defined.

Example extract_section_texts_sample :
  extract_section_texts (Some Samples.two_sections_doc) PREGNANT_TAGS =
  (Some (u "妊婦には投与しないこと。"), Some (u "sec-9.5")).
Proof. vm_compute. reflexivity. Qed.

Example extract_section_texts_no_hit :
  extract_section_texts (Some Samples.two_sections_doc) NURSING_TAGS = (None, None).
Proof. vm_compute. reflexivity. Qed.

(** ** C2 and C3: rule classification *)

Lemma forallb_lstrip_by p s : forallb p (lstrip_by p s) = forallb p s.
Proof.
  induction s as [|c s IH]; [reflexivity|]. cbn [lstrip_by forallb].
  destruct (p c) eqn:Hc; [exact IH|]. cbn [forallb]. rewrite Hc. reflexivity.
Qed.

(** A string strips to nothing exactly when it is whitespace only. *)
Lemma truthy_strip s : truthy (strip s) = negb (forallb isspace s).
Proof.
  unfold strip. rewrite <- forallb_lstrip_by.
  destruct (rstrip_by isspace (lstrip_by isspace s)) as [|c r] eqn:E.
  - apply rstrip_by_nil in E. rewrite E. reflexivity.
  - destruct (forallb isspace (lstrip_by isspace s)) eqn:Hall; [|reflexivity].
    apply rstrip_by_nil in Hall. congruence.
Qed.

Lemma classify_blank s rules :
  forallb isspace s = true -> classify (Some s) rules = (0%Z, u "none").
Proof. intros H. unfold classify. rewrite truthy_strip, H. reflexivity. Qed.

Lemma classify_nonblank s rules :
  forallb isspace s = false ->
  classify (Some s) rules = classify_rules rules (normalize_for_match (Some s)).
Proof. intros H. unfold classify. rewrite truthy_strip, H. reflexivity. Qed.

Lemma classify_rules_first pre score rx tag post t :
  Forall (fun r => search r.1.2 t = false) pre ->
  search rx t = true ->
  classify_rules (pre ++ (score, rx, tag) :: post) t = (score, tag).
Proof.
  intros Hpre Hrx. induction Hpre as [|[[s0 r0] t0] pre H0 _ IH]; cbn [app classify_rules].
  - rewrite Hrx. reflexivity.
  - cbn [fst snd] in H0. rewrite H0. exact IH.
Qed.

Lemma classify_rules_none rules t :
  Forall (fun r => search r.1.2 t = false) rules ->
  classify_rules rules t = (0%Z, u "unclear").
Proof.
  intros H. induction H as [|[[s0 r0] t0] rules H0 _ IH]; [reflexivity|].
  cbn [classify_rules]. cbn [fst snd] in H0. rewrite H0. exact IH.
Qed.

(** In a table with descending scores no matching rule has a higher score
    than the result. *)
Lemma classify_rules_max rules t score rx tag :
  desc_by_score rules = true ->
  (score, rx, tag) ∈ rules ->
  search rx t = true ->
  (score <= (classify_rules rules t).1)%Z.
Proof.
  induction rules as [|[[s0 r0] t0] rules IH]; intros Hdesc Hin Hrx.
  - apply elem_of_nil in Hin. contradiction.
  - cbn [desc_by_score] in Hdesc. apply andb_true_iff in Hdesc as [Hle Hdesc].
    cbn [classify_rules]. destruct (search r0 t) eqn:H0; cbn [fst].
    + apply elem_of_cons in Hin as [[= -> -> ->]|Hin]; [lia|].
      rewrite forallb_forall in Hle. apply list_elem_of_In, Hle in Hin.
      cbn [fst] in Hin. lia.
    + apply elem_of_cons in Hin as [[= -> -> ->]|Hin]; [congruence|].
      apply IH; assumption.
Qed.

(** C2: for a text that is not whitespace only (a whitespace-only text is
    the "empty" case of C3), [classify] returns the score and tag of the
    first rule, in table order, whose pattern is found in the normalised
    text, whatever the table; in a table with descending scores this is a
    rule of the highest score among the matching ones.  In the pregnancy
    table a text matched by the score-3 pattern (and by the score-1
    pattern) is classified 3, "contraindicated". *)
Theorem classify_first_match :
  (forall s pre score rx tag post,
     forallb isspace s = false ->
     Forall (fun r => search r.1.2 (normalize_for_match (Some s)) = false) pre ->
     search rx (normalize_for_match (Some s)) = true ->
     classify (Some s) (pre ++ (score, rx, tag) :: post) = (score, tag))
  /\ (forall s rules score rx tag,
        forallb isspace s = false ->
        desc_by_score rules = true ->
        (score, rx, tag) ∈ rules ->
        search rx (normalize_for_match (Some s)) = true ->
        (score <= (classify (Some s) rules).1)%Z)
  /\ desc_by_score PREG_RULES = true
  /\ (forall s,
        forallb isspace s = false ->
        search PREG_RX3 (normalize_for_match (Some s)) = true ->
        search PREG_RX1 (normalize_for_match (Some s)) = true ->
        classify (Some s) PREG_RULES = (3%Z, u "contraindicated")).
Proof.
  split.
  { intros s pre score rx tag post Hs Hpre Hrx.
    rewrite classify_nonblank by assumption. apply classify_rules_first; assumption. }
  split.
  { intros s rules score rx tag Hs Hdesc Hin Hrx.
    rewrite classify_nonblank by assumption. apply classify_rules_max with rx tag; assumption. }
  split; [reflexivity|].
  intros s Hs H3 _. rewrite classify_nonblank by assumption.
  unfold PREG_RULES. cbn [classify_rules]. rewrite H3. reflexivity.
Qed.

(** C2 on a pregnancy text that the score-3 pattern leaves alone (its
    "投与しないこと" is followed by "が望ましい"): the first matching rule is
    the second one. *)
Lemma classify_first_match_witness :
  classify (Some (u "妊婦には投与しないことが望ましい。慎重に投与すること。"))
           ([(3%Z, PREG_RX3, u "contraindicated")]
            ++ (2%Z, PREG_RX2, u "not_recommended")
            :: [(1%Z, PREG_RX1, u "benefit_over_risk_or_caution")]) =
  (2%Z, u "not_recommended").
Proof.
  apply (proj1 classify_first_match).
  - vm_compute. reflexivity.
  - apply Forall_cons_2; [vm_compute; reflexivity|apply Forall_nil_2].
  - vm_compute. reflexivity.
Defined.

Example classify_priority_sample :
  search PREG_RX3 (normalize_for_match (Some (u "本剤は投与しないこと。
治療上の有益性が危険性を上まわる場合"))) = true
  /\ search PREG_RX1 (normalize_for_match (Some (u "本剤は投与しないこと。
治療上の有益性が危険性を上まわる場合"))) = true
  /\ classify (Some (u "本剤は投与しないこと。
治療上の有益性が危険性を上まわる場合")) PREG_RULES = (3%Z, u "contraindicated").
Proof. repeat split; vm_compute; reflexivity. Qed.

(** C3: [classify] is a total function; on an absent text and on a text
    that is empty or whitespace only it gives (0, "none") whatever the
    table; on any other text that no rule of the table matches, and so on
    every such text for the empty table, it gives (0, "unclear"). *)
Theorem classify_defaults :
  (forall rules, classify None rules = (0%Z, u "none"))
  /\ (forall s rules,
        forallb isspace s = true -> classify (Some s) rules = (0%Z, u "none"))
  /\ (forall s rules,
        forallb isspace s = false ->
        Forall (fun r => search r.1.2 (normalize_for_match (Some s)) = false) rules ->
        classify (Some s) rules = (0%Z, u "unclear"))
  /\ (forall s, forallb isspace s = false -> classify (Some s) [] = (0%Z, u "unclear"))
  /\ classify (Some (u "無関係の文章")) PREG_RULES = (0%Z, u "unclear").
Proof.
  split; [reflexivity|].
  split; [exact classify_blank|].
  split.
  { intros s rules Hs Hno. rewrite classify_nonblank by assumption.
    apply classify_rules_none. exact Hno. }
  split; [intros s Hs; rewrite classify_nonblank by assumption; reflexivity|].
  vm_compute. reflexivity.
Qed.

(** C3 on the nursing table: a text that none of its patterns matches. *)
Lemma classify_defaults_witness :
  classify (Some (u "無関係の文章")) NURS_RULES = (0%Z, u "unclear")
  /\ classify (Some (u " 　
 ")) NURS_RULES = (0%Z, u "none").
Proof.
  split.
  - apply (proj1 (proj2 (proj2 classify_defaults))).
    + vm_compute. reflexivity.
    + repeat (apply Forall_cons_2; [vm_compute; reflexivity|]). apply Forall_nil_2.
  - apply (proj1 (proj2 classify_defaults)). vm_compute. reflexivity.
Defined.

(** ** C4: confidence *)

Lemma flag_set_lookup (flags : gmap (list N) bool) k :
  flag_set flags k = bool_decide (flags !! k = Some true).
Proof.
  unfold flag_set. destruct (flags !! k) as [[|]|]; reflexivity.
Qed.

Lemma boost_count_two (flags : gmap (list N) bool) k1 k2 :
  boost_count flags [k1; k2] =
  ((if flag_set flags k1 then 1 else 0) + (if flag_set flags k2 then 1 else 0))%Z.
Proof.
  unfold boost_count, flag_set. rewrite !filter_cons, filter_nil.
  destruct (flags !! k1) as [[|]|]; destruct (flags !! k2) as [[|]|]; reflexivity.
Qed.

Lemma base_conf_id score : (0 <= score <= 3)%Z -> base_conf score = score.
Proof.
  intros H. unfold base_conf.
  destruct (Z.eqb_spec score 3); [lia|].
  destruct (Z.eqb_spec score 2); [lia|].
  destruct (Z.eqb_spec score 1); lia.
Qed.

(** C4: for a score among 0, 1, 2, 3 and any flag mapping, both
    confidences are min(3, score + b), where b counts the two boost flags
    of the section that are present and true, so b is at most 2 and the
    confidence lies between 0 and 3. *)
Theorem confidence_clamped (score : Z) (flags : gmap (list N) bool) :
  (0 <= score <= 3)%Z ->
  preg_conf score flags =
    Z.min 3 (score + boost_count flags [u "has_human_terato"; u "has_animal_terato"])
  /\ nurs_conf score flags =
    Z.min 3 (score + boost_count flags [u "milk_transfer_detected"; u "adverse_infant_effects"])
  /\ (0 <= boost_count flags [u "has_human_terato"; u "has_animal_terato"] <= 2)%Z
  /\ (0 <= boost_count flags [u "milk_transfer_detected"; u "adverse_infant_effects"] <= 2)%Z
  /\ (0 <= preg_conf score flags <= 3)%Z
  /\ (0 <= nurs_conf score flags <= 3)%Z.
Proof.
  intros Hs. unfold preg_conf, nurs_conf.
  rewrite !boost_count_two, (base_conf_id score Hs).
  destruct (flag_set flags (u "has_human_terato")),
           (flag_set flags (u "has_animal_terato")),
           (flag_set flags (u "milk_transfer_detected")),
           (flag_set flags (u "adverse_infant_effects")); lia.
Qed.

(** C4 at the clamp: score 3 with both boost flags true gives 3. *)
Lemma confidence_clamped_witness :
  preg_conf 3 {[ u "has_human_terato" := true; u "has_animal_terato" := true ]} = 3%Z.
Proof.
  destruct (confidence_clamped 3
              {[ u "has_human_terato" := true; u "has_animal_terato" := true ]})
    as (H & _); [lia|].
  rewrite H. vm_compute. reflexivity.
Defined.

(** * Further properties of the scripts *)

(** ** Text getters of 21_sgml2rawdata.py *)

Lemma or_none_strip_clean t s : or_none (strip t) = Some s -> s <> [] /\ strip s = s.
Proof.
  unfold or_none. destruct (strip t) as [|c r] eqn:E; [discriminate|].
  cbn [truthy]. intros [= <-]. split; [discriminate|]. rewrite <- E. apply strip_idem.
Qed.

Lemma stripped_text_clean el s : stripped_text el = Some s -> s <> [] /\ strip s = s.
Proof.
  unfold stripped_text. destruct el as [e|]; [|discriminate].
  destruct (otruthy (text e)); [apply or_none_strip_clean|discriminate].
Qed.

Lemma text_ja_langs_clean langs s : text_ja_langs langs = Some s -> s <> [] /\ strip s = s.
Proof.
  induction langs as [|l langs IH]; [discriminate|]. cbn [text_ja_langs].
  destruct (bool_decide _ && otruthy (text l)); [|exact IH].
  destruct (strip (default [] (text l))) as [|c r] eqn:E; cbn [truthy]; [exact IH|].
  intros [= <-]. split; [discriminate|]. rewrite <- E. apply strip_idem.
Qed.

Lemma text_ja_clean d s : text_ja d = Some s -> s <> [] /\ strip s = s.
Proof.
  unfold text_ja. destruct d as [e|]; [|discriminate].
  destruct (text_ja_langs _) as [t|] eqn:E.
  - intros [= <-]. exact (text_ja_langs_clean _ _ E).
  - destruct (otruthy (text e)); [|discriminate]. cbn [andb].
    destruct (strip (default [] (text e))) as [|c r] eqn:E'; [discriminate|].
    cbn [truthy]. intros [= <-]. split; [discriminate|]. rewrite <- E'. apply strip_idem.
Qed.

Lemma lang_text_all_clean d s : lang_text_all d = Some s -> s <> [] /\ strip s = s.
Proof.
  unfold lang_text_all. destruct d as [e|]; [|discriminate].
  induction (findall [Child (pi "Lang")] e) as [|l langs IH]; [discriminate|].
  cbn [lang_text_all_langs]. destruct (bool_decide _); [|exact IH].
  destruct (strip (alltext l)) as [|c r] eqn:E; cbn [truthy]; [exact IH|].
  intros [= <-]. split; [discriminate|]. rewrite <- E. apply strip_idem.
Qed.

Lemma get_text_clean node xpath s : get_text node xpath = Some s -> s <> [] /\ strip s = s.
Proof. destruct node as [n|]; [apply stripped_text_clean|discriminate]. Qed.

Lemma detail_text_full_clean el s : detail_text_full el = Some s -> s <> [] /\ strip s = s.
Proof.
  destruct el as [e|]; [|discriminate]. unfold detail_text_full.
  destruct (negb (otruthy _)); [discriminate|]. apply normalize_partner_label_result.
Qed.

(** X1: whatever the element, each text getter of the ingestion script
    returns absent or a non-empty string that carries no whitespace at
    either end; it never returns an empty string. *)
Theorem text_getters_clean :
  (forall node xpath s, get_text node xpath = Some s -> s <> [] /\ strip s = s)
  /\ (forall el s, get_text_direct el = Some s -> s <> [] /\ strip s = s)
  /\ (forall el s, text_ja el = Some s -> s <> [] /\ strip s = s)
  /\ (forall el s, lang_text_all el = Some s -> s <> [] /\ strip s = s)
  /\ (forall el s, detail_text_full el = Some s -> s <> [] /\ strip s = s).
Proof.
  split.
  { intros [n|] xpath s; [apply stripped_text_clean|discriminate]. }
  split; [exact stripped_text_clean|].
  split; [exact text_ja_clean|].
  split; [exact lang_text_all_clean|].
  intros [e|] s; [|discriminate]. unfold detail_text_full.
  destruct (negb (otruthy _)); [discriminate|]. apply normalize_partner_label_result.
Qed.

(** X1 on a [Detail] whose variant text is padded with blanks. *)
Lemma text_getters_clean_witness :
  text_ja (Some (Samples.detail " 本剤　")) = Some (u "本剤")
  /\ u "本剤" <> [] /\ strip (u "本剤") = u "本剤".
Proof.
  assert (text_ja (Some (Samples.detail " 本剤　")) = Some (u "本剤")) as H
    by (vm_compute; reflexivity).
  split; [exact H|].
  exact (proj1 (proj2 (proj2 text_getters_clean)) _ _ H).
Defined.

(** ** A normalised label is a piece of its input *)

Section Pieces.

Lemma piece_of_refl s : piece_of s s.
Proof. exists [], []. rewrite app_nil_r. reflexivity. Qed.

Lemma piece_of_trans r s t : piece_of r s -> piece_of s t -> piece_of r t.
Proof.
  intros (a & b & ->) (c & d & ->). exists (c ++ a), (b ++ d).
  rewrite <- !app_assoc. reflexivity.
Qed.

Lemma piece_of_suffix pre s : piece_of s (pre ++ s).
Proof. exists pre, []. rewrite app_nil_r. reflexivity. Qed.

Lemma piece_of_prefix s post : piece_of s (s ++ post).
Proof. exists [], post. reflexivity. Qed.

Lemma lstrip_by_piece p s : piece_of (lstrip_by p s) s.
Proof.
  induction s as [|c s IH]; [apply piece_of_refl|]. cbn [lstrip_by].
  destruct (p c); [|apply piece_of_refl].
  apply piece_of_trans with s; [exact IH|]. apply (piece_of_suffix [c]).
Qed.

Lemma rstrip_by_prefix p s : exists post, s = rstrip_by p s ++ post.
Proof.
  induction s as [|c s [post IH]]; [exists []; reflexivity|].
  rewrite rstrip_by_cons. destruct (forallb p (c :: s)).
  - exists (c :: s). reflexivity.
  - exists post. cbn [app]. rewrite <- IH. reflexivity.
Qed.

Lemma rstrip_by_piece p s : piece_of (rstrip_by p s) s.
Proof.
  destruct (rstrip_by_prefix p s) as [post H]. rewrite H at 2. apply piece_of_prefix.
Qed.

Lemma strip_piece s : piece_of (strip s) s.
Proof.
  unfold strip. apply piece_of_trans with (lstrip_by isspace s);
    [apply rstrip_by_piece|apply lstrip_by_piece].
Qed.

Lemma cut_trail_noise_prefix s : exists post, s = cut_trail_noise s ++ post.
Proof.
  induction s as [|c s [post IH]]; [exists []; reflexivity|].
  cbn [cut_trail_noise]. destruct (eqs (c :: s) TOU || eqs (c :: s) NADO).
  - exists (c :: s). reflexivity.
  - exists post. cbn [app]. rewrite <- IH. reflexivity.
Qed.

Lemma cut_trail_noise_piece s : piece_of (cut_trail_noise s) s.
Proof.
  destruct (cut_trail_noise_prefix s) as [post H]. rewrite H at 2. apply piece_of_prefix.
Qed.

Lemma cut_lead_noise_piece s : piece_of (cut_lead_noise s) s.
Proof.
  unfold cut_lead_noise.
  destruct (startswith TOU s); [|destruct (startswith NADO s)].
  - rewrite <- (take_drop 1 s) at 2. apply piece_of_suffix.
  - rewrite <- (take_drop 2 s) at 2. apply piece_of_suffix.
  - apply piece_of_refl.
Qed.

End Pieces.

(** X2: a label returned by [normalize_partner_label] is one contiguous
    piece of the input string: characters are removed at the two ends
    only, never inside the label, and none is added or changed. *)
Theorem normalize_partner_label_piece s r :
  normalize_partner_label (Some s) = Some r -> piece_of r s.
Proof.
  rewrite normalize_partner_label_clean. unfold clean_label, or_none.
  destruct (eqs (trim_label s) [] || is_noise (trim_label s)); [discriminate|].
  destruct (truthy _); [|discriminate]. intros [= <-].
  eapply piece_of_trans; [apply strip_piece|].
  eapply piece_of_trans; [apply cut_lead_noise_piece|].
  eapply piece_of_trans; [apply strip_piece|].
  eapply piece_of_trans; [apply cut_trail_noise_piece|].
  unfold trim_label.
  eapply piece_of_trans; [apply rstrip_by_piece|apply lstrip_by_piece].
Qed.

(** X2 on a label wrapped in punctuation and noise tokens. *)
Lemma normalize_partner_label_piece_witness :
  piece_of (u "セイヨウオトギリソウ含有食品") (u " 、などセイヨウオトギリソウ含有食品など，").
Proof.
  apply normalize_partner_label_piece. vm_compute. reflexivity.
Defined.

(** ** Labels that need no cleaning *)

Lemma lstrip_by_id p s :
  (forall c, head s = Some c -> p c = false) -> lstrip_by p s = s.
Proof.
  destruct s as [|c s]; [reflexivity|]. intros H. cbn [lstrip_by].
  rewrite (H c) by reflexivity. reflexivity.
Qed.

Lemma rstrip_by_id p s :
  (forall c, last s = Some c -> p c = false) -> rstrip_by p s = s.
Proof.
  induction s as [|c s IH]; [reflexivity|]. intros H.
  rewrite rstrip_by_cons. destruct (forallb p (c :: s)) eqn:Hall.
  - exfalso. destruct (last (c :: s)) as [d|] eqn:El.
    + pose proof (H d eq_refl) as Hd.
      apply last_Some in El as [l' El].
      rewrite El, forallb_app in Hall. cbn [forallb] in Hall.
      rewrite Hd, andb_false_r in Hall. discriminate.
    + apply last_None in El. discriminate.
  - f_equal. destruct s as [|d s]; [reflexivity|]. apply IH.
    intros x Hx. apply H. exact Hx.
Qed.

(** X3: a label that is not empty, does not start or end with
    whitespace or comma-like punctuation and does not start or end with a
    noise token comes back from [normalize_partner_label] unchanged. *)
Theorem normalize_partner_label_fixed s :
  s <> [] ->
  (forall c, head s = Some c -> punct_or_space c = false) ->
  (forall c, last s = Some c -> punct_or_space c = false) ->
  startswith TOU s = false -> startswith NADO s = false ->
  (forall x, s <> x ++ TOU) -> (forall x, s <> x ++ NADO) ->
  normalize_partner_label (Some s) = Some s.
Proof.
  intros Hne Hhead Hlast Hl1 Hl2 Ht1 Ht2.
  assert (strip s = s) as Hstrip.
  { unfold strip. rewrite lstrip_by_id, rstrip_by_id; [reflexivity| |].
    - intros c Hc. specialize (Hlast c Hc). unfold punct_or_space in Hlast.
      apply orb_false_elim in Hlast. tauto.
    - intros c Hc. specialize (Hhead c Hc). unfold punct_or_space in Hhead.
      apply orb_false_elim in Hhead. tauto. }
  rewrite normalize_partner_label_clean. unfold clean_label, trim_label.
  rewrite lstrip_by_id, rstrip_by_id by assumption.
  assert (eqs s [] || is_noise s = false) as ->.
  { unfold is_noise, eqs. rewrite !orb_false_iff.
    repeat split; apply bool_decide_eq_false_2.
    - exact Hne.
    - intros ->. exact (Ht1 [] eq_refl).
    - intros ->. exact (Ht2 [] eq_refl). }
  rewrite cut_trail_noise_other by assumption. rewrite Hstrip.
  unfold cut_lead_noise. rewrite Hl1, Hl2, Hstrip.
  unfold or_none. destruct s; [congruence|reflexivity].
Qed.

(** X3 on the label イトラコナゾール. *)
Lemma normalize_partner_label_fixed_witness :
  normalize_partner_label (Some (u "イトラコナゾール")) = Some (u "イトラコナゾール").
Proof.
  apply normalize_partner_label_fixed.
  - discriminate.
  - intros c [= <-]. reflexivity.
  - intros c [= <-]. reflexivity.
  - reflexivity.
  - reflexivity.
  - intros x H. apply (f_equal last) in H. unfold TOU in H.
    rewrite last_snoc in H. vm_compute in H. discriminate.
  - intros x H. apply (f_equal last) in H. unfold NADO in H.
    change [12394; 12393] with ([12394] ++ [12393]) in H.
    rewrite app_assoc, last_snoc in H. vm_compute in H. discriminate.
Defined.

(** ** The generic serialiser *)

Lemma Element_ind' (P : Element -> Prop) :
  (forall t a x cs tl, Forall P cs -> P (Elem t a x cs tl)) -> forall e, P e.
Proof.
  intros H. fix IH 1. intros [t a x cs tl]. apply H.
  induction cs as [|c cs IHcs]; constructor; [apply IH|exact IHcs].
Qed.

Section SerializerFacts.

Abbreviation kept := kept_texts (only parsing).

Lemma kept_app l k : kept (l ++ k) = kept l ++ kept k.
Proof. unfold kept_texts. rewrite map_app, filter_app. reflexivity. Qed.

Lemma nonblank_kept t :
  match nonblank t with Some s => [s] | None => [] end = kept (yield_text t).
Proof.
  unfold nonblank, yield_text, kept_texts. destruct t as [s|]; [|reflexivity].
  destruct s as [|c s]; [reflexivity|]. cbn [truthy andb map].
  rewrite filter_cons, filter_nil.
  destruct (strip (c :: s)) as [|d r] eqn:E; cbn [truthy].
  - rewrite decide_False by tauto. reflexivity.
  - rewrite decide_True by discriminate. reflexivity.
Qed.

Lemma tail_nodes_texts t : flat_map json_texts (tail_nodes t) = kept (yield_text t).
Proof.
  rewrite <- nonblank_kept. unfold tail_nodes.
  destruct (nonblank t); reflexivity.
Qed.

Lemma json_texts_node t a x cs :
  json_texts (JNode t a x (match cs with [] => None | _ :: _ => Some cs end)) =
  match x with Some s => [s] | None => [] end ++ flat_map json_texts cs.
Proof. destruct cs; reflexivity. Qed.

Lemma tail_nodes_elements t : flat_map json_elements (tail_nodes t) = [].
Proof.
  unfold tail_nodes. destruct (nonblank t); [|reflexivity].
  cbn [flat_map json_elements]. rewrite bool_decide_eq_true_2 by reflexivity. reflexivity.
Qed.

Lemma json_elements_node t a x cs :
  json_elements (JNode t a x (match cs with [] => None | _ :: _ => Some cs end)) =
  (if bool_decide (t = TAIL) then [] else [(t, default ∅ a)])
  ++ flat_map json_elements cs.
Proof. destruct cs; reflexivity. Qed.

Lemma elem_to_json_elements e :
  Forall (fun x => tag x <> TAIL) (iter e) ->
  json_elements (elem_to_json e) = map (fun x => (tag x, attrib x)) (iter e).
Proof.
  induction e as [t a x cs tl IH] using Element_ind'.
  cbn [elem_to_json iter map]. intros Hall. apply Forall_cons in Hall as [Ht Hcs].
  cbn [tag] in Ht. rewrite json_elements_node, bool_decide_eq_false_2 by exact Ht.
  cbn [app attrib]. f_equal.
  - f_equal. case_bool_decide as Ha; [symmetry; exact Ha|reflexivity].
  - induction IH as [|c cs Hc _ IHcs]; [reflexivity|].
    cbn [flat_map] in *. apply Forall_app in Hcs as [Hc1 Hc2].
    rewrite flat_map_app, map_app. cbn [flat_map].
    rewrite (Hc Hc1), tail_nodes_elements, (IHcs Hc2), app_nil_r. reflexivity.
Qed.

End SerializerFacts.

(** X4: the [text] values of the dictionary built by [elem_to_json], read
    parents first and children left to right, are exactly the text pieces
    of the element ([itertext]: texts and tails of the subtree in document
    order, the tail of the element itself excluded), each stripped, the
    blank ones left out. *)
Theorem elem_to_json_keeps_text e :
  json_texts (elem_to_json e) = kept_texts (itertext e).
Proof.
  induction e as [t a x cs tl IH] using Element_ind'.
  cbn [elem_to_json itertext]. rewrite json_texts_node, kept_app, nonblank_kept.
  f_equal. induction IH as [|c cs Hc _ IHcs]; [reflexivity|].
  cbn [flat_map]. rewrite flat_map_app, !kept_app. cbn [flat_map].
  rewrite Hc, tail_nodes_texts, IHcs. reflexivity.
Qed.

Example elem_to_json_sample :
  elem_to_json Samples.detail_nested =
  JNode (pi "Detail") None (Some (u "x"))
    (Some [ JNode (pi "Lang") (Some {[ Ingest.XML_LANG := u "en" ]}) (Some (u "text")) None;
            JNode (pi "Lang") (Some {[ Ingest.XML_LANG := u "ja" ]}) (Some (u "本剤"))
              (Some [ JNode (pi "Sub") None (Some (u "A")) None;
                      JNode TAIL None (Some (u "と")) None;
                      JNode (pi "Sub") None (Some (u "B")) None ]) ]).
Proof. vm_compute. reflexivity. Qed.

(** X5: when no element of the subtree is itself tagged [__tail__], the
    nodes of the serialisation other than the tail pseudo-nodes carry the
    tags and the attributes of the elements of the subtree, in document
    order; the key [children] is left out exactly when the element has no
    child element. *)
Theorem elem_to_json_keeps_elements e :
  Forall (fun x => tag x <> TAIL) (iter e) ->
  json_elements (elem_to_json e) = map (fun x => (tag x, attrib x)) (iter e)
  /\ (jchildren (elem_to_json e) = None <-> children e = []).
Proof.
  intros H. split; [apply elem_to_json_elements; exact H|].
  destruct e as [t a x [|c cs] tl]; cbn [elem_to_json jchildren children flat_map app].
  - tauto.
  - split; discriminate.
Qed.

(** X5 on [Samples.detail_nested]. *)
Lemma elem_to_json_keeps_elements_witness :
  json_elements (elem_to_json Samples.detail_nested) =
  map (fun x => (tag x, attrib x)) (iter Samples.detail_nested)
  /\ (jchildren (elem_to_json Samples.detail_nested) = None <->
      children Samples.detail_nested = []).
Proof.
  apply elem_to_json_keeps_elements. by_decide.
Defined.

(** ** Records of the flat interaction list *)

Section FlatRecords.

Lemma por_clean a b : clean_or_absent a -> clean_or_absent b -> clean_or_absent (por a b).
Proof. unfold por. destruct (otruthy a); trivial. Qed.

Lemma clean_or_absent_intro o :
  (forall s, o = Some s -> s <> [] /\ strip s = s) -> clean_or_absent o.
Proof. destruct o as [s|]; [|exact (fun _ => I)]. intros H. exact (H s eq_refl). Qed.

Lemma block_text_clean drug name : clean_or_absent (block_text drug name).
Proof.
  unfold block_text. repeat apply por_clean; apply clean_or_absent_intro; intros s.
  - apply lang_text_all_clean.
  - apply text_ja_clean.
  - apply get_text_clean.
Qed.

Lemma first_label_clean dets : clean_or_absent (first_label dets).
Proof.
  apply clean_or_absent_intro. intros s. rewrite first_label_head.
  induction dets as [|d dets IH]; [discriminate|]. cbn [omap list_omap].
  destruct (detail_text_full (Some d)) as [t|] eqn:E; [|exact IH].
  cbn [head]. intros [= <-]. exact (detail_text_full_clean _ _ E).
Qed.

Lemma item_labels_clean its : Forall clean (item_labels its).
Proof.
  induction its as [|it its IH]; cbn [item_labels]; [constructor|].
  destruct (detail_text_full (Some it)) as [s|] eqn:E; [|exact IH].
  destruct (truthy s); [|exact IH]. constructor; [|exact IH].
  exact (detail_text_full_clean _ _ E).
Qed.

Lemma uniq_items_clean l : Forall clean l -> Forall clean (uniq_items l).
Proof.
  rewrite !Forall_forall. intros H x Hx. apply H.
  rewrite uniq_items_dedup_first in Hx. exact (proj1 (dedup_first_elem l x) Hx).
Qed.

Lemma extracted_clean drug :
  clean_or_absent (extract_partner_group_and_items drug).1
  /\ Forall clean (extract_partner_group_and_items drug).2.
Proof.
  unfold extract_partner_group_and_items.
  destruct (find _ drug); cbn [fst snd].
  - split; [apply first_label_clean|apply uniq_items_clean, item_labels_clean].
  - split; [exact I|constructor].
Qed.

Lemma block_records_well_formed cat drug :
  cat = CONTRAINDICATED \/ cat = CAUTION ->
  Forall well_formed_record (block_records cat drug).
Proof.
  intros Hcat. pose proof (extracted_clean drug) as [Hg Hitems].
  pose proof (block_text_clean drug "ClinSymptomsAndMeasures") as Hs.
  pose proof (block_text_clean drug "MechanismAndRiskFactors") as Hm.
  unfold block_records, get_symptoms_and_mechanism.
  destruct (extract_partner_group_and_items drug) as [g items]. cbn [fst snd] in *.
  destruct items as [|p items].
  - destruct g as [l|]; cbn [otruthy].
    + destruct (truthy l); constructor; [|constructor].
      unfold well_formed_record. cbn [partner group symptoms mechanism category].
      split; [exists l; split; [reflexivity|exact Hg]|].
      split; [exact Hg|]. split; [exact Hs|]. split; [exact Hm|exact Hcat].
    + constructor.
  - apply Forall_forall. intros r Hr. apply list_elem_of_In, in_map_iff in Hr.
    destruct Hr as (x & <- & Hx). apply list_elem_of_In in Hx.
    rewrite Forall_forall in Hitems. specialize (Hitems x Hx).
    unfold well_formed_record. cbn [partner group symptoms mechanism category].
    split; [exists x; split; [reflexivity|exact Hitems]|].
    split; [exact Hg|]. split; [exact Hs|]. split; [exact Hm|exact Hcat].
Qed.

Lemma blocks_well_formed cat drugs :
  cat = CONTRAINDICATED \/ cat = CAUTION ->
  Forall well_formed_record (flat_map (block_records cat) drugs).
Proof.
  intros Hcat. induction drugs as [|d ds IH]; cbn [flat_map]; [constructor|].
  apply Forall_app. split; [apply block_records_well_formed, Hcat|exact IH].
Qed.

End FlatRecords.

(** X6: every record of the flat list returned by
    [collect_interactions_flat] has a partner that is a non-empty string
    without surrounding whitespace; its group, symptoms and mechanism are
    each absent or such a string, never an empty one; and its category is
    one of the two literals 併用禁忌 and 併用注意. *)
Theorem flat_records_well_formed root :
  Forall well_formed_record (collect_interactions_flat root).2.
Proof.
  cbn [collect_interactions_flat snd]. apply Forall_app. split.
  - induction (contra_drugs root) as [|d ds IH]; cbn [flat_map]; [constructor|].
    apply Forall_app. split; [apply block_records_well_formed; tauto|exact IH].
  - induction (caution_drugs root) as [|d ds IH]; cbn [flat_map]; [constructor|].
    apply Forall_app. split; [apply block_records_well_formed; tauto|exact IH].
Qed.

(** ** Rows of 22_build_sgml_interaction.py *)

Section InteractionRows.

Variable json_loads : list N -> option json.

Lemma item_row_sound pkg yj item r :
  item_row pkg yj item = Some r ->
  package_insert_no r = pkg /\ yj_code r = yj /\ informative r = true.
Proof.
  unfold item_row. destruct item as [| | | | |fields]; try discriminate.
  destruct (jtruthy (jget fields "partner") || jtruthy (jget fields "group")
            || jtruthy (jget fields "symptoms") || jtruthy (jget fields "mechanism")) eqn:E;
    [|discriminate].
  cbn [negb]. intros [= <-]. unfold informative. cbn. auto.
Qed.

Lemma item_rows_sound pkg yj items :
  Forall (fun r => package_insert_no r = pkg /\ yj_code r = yj /\ informative r = true)
    (item_rows pkg yj items)
  /\ (length (item_rows pkg yj items) <= length items)%nat.
Proof.
  induction items as [|item items [IH1 IH2]]; cbn [item_rows length].
  - split; [constructor|lia].
  - destruct (item_row pkg yj item) as [r|] eqn:E.
    + split; [constructor; [exact (item_row_sound _ _ _ _ E)|exact IH1]|cbn [length]; lia].
    + split; [exact IH1|lia].
Qed.

Lemma build_interaction_rows_cases pkg yj v :
  build_interaction_rows json_loads pkg yj v = [] \/
  exists items, build_interaction_rows json_loads pkg yj v = item_rows pkg yj items
                /\ (v = JArr items \/ exists s, v = JStr s /\ json_loads s = Some (JArr items)).
Proof.
  unfold build_interaction_rows. destruct (negb (jtruthy v)); [left; reflexivity|].
  destruct v as [| | |s|items|]; try (left; reflexivity).
  - destruct (json_loads s) as [[| | | |items|]|] eqn:E; try (left; reflexivity).
    right. exists items. eauto.
  - right. exists items. eauto.
Qed.

End InteractionRows.

(** X7: whatever value [build_interaction_rows] is given, every row it
    returns carries the given package-insert number and YJ code and has a
    partner name, group, symptoms or mechanism that is not empty; a list
    never gives more rows than it has items; and a value that is [None],
    empty, a number, a boolean, a dictionary, or a string that
    [json.loads] rejects or decodes to something other than a list, gives
    no row (no exception is raised). *)
Theorem build_interaction_rows_sound (json_loads : list N -> option json) pkg yj :
  (forall v,
     Forall (fun r => package_insert_no r = pkg /\ yj_code r = yj /\ informative r = true)
       (build_interaction_rows json_loads pkg yj v))
  /\ (forall items,
        (length (build_interaction_rows json_loads pkg yj (JArr items)) <= length items)%nat)
  /\ build_interaction_rows json_loads pkg yj JNull = []
  /\ build_interaction_rows json_loads pkg yj (JArr []) = []
  /\ build_interaction_rows json_loads pkg yj (JStr []) = []
  /\ (forall b, build_interaction_rows json_loads pkg yj (JBool b) = [])
  /\ (forall n d, build_interaction_rows json_loads pkg yj (JNum n d) = [])
  /\ (forall m, build_interaction_rows json_loads pkg yj (JObj m) = [])
  /\ (forall s, json_loads s = None -> build_interaction_rows json_loads pkg yj (JStr s) = [])
  /\ (forall s v, json_loads s = Some v -> (forall items, v <> JArr items) ->
        build_interaction_rows json_loads pkg yj (JStr s) = []).
Proof.
  split.
  { intros v. destruct (build_interaction_rows_cases json_loads pkg yj v) as [->|(items & -> & _)].
    - constructor.
    - apply item_rows_sound. }
  split.
  { intros items. unfold build_interaction_rows.
    destruct (negb (jtruthy (JArr items))); [cbn [length]; lia|apply item_rows_sound]. }
  split; [reflexivity|]. split; [reflexivity|]. split; [reflexivity|].
  split; [intros []; reflexivity|].
  split; [intros n d; unfold build_interaction_rows; destruct (negb _); reflexivity|].
  split; [intros m; unfold build_interaction_rows; destruct (negb _); reflexivity|].
  split.
  - intros s Hs. unfold build_interaction_rows. rewrite Hs. destruct (negb _); reflexivity.
  - intros s v Hs Hv. unfold build_interaction_rows. rewrite Hs.
    destruct (negb _); [reflexivity|].
    destruct v as [| | | |items|]; try reflexivity. exfalso. exact (Hv items eq_refl).
Qed.

(** ** From the flat list of script 21 to the rows of script 22 *)

Lemma item_row_record pkg yj r :
  well_formed_record r ->
  item_row pkg yj (record_json r) = Some (record_row pkg yj r).
Proof.
  intros ((p & Hp & Hne & _) & _). destruct r as [pa g sy me cat].
  cbn [partner] in Hp. subst pa.
  unfold item_row, record_json, record_row, jget.
  cbn [partner group symptoms mechanism category].
  rewrite !lookup_insert.
  repeat (first [rewrite decide_True by reflexivity
                |rewrite decide_False by (vm_compute; discriminate)]).
  cbn [default ojson jtruthy]. destruct p; [congruence|]. reflexivity.
Qed.

Lemma item_rows_records pkg yj flat :
  Forall well_formed_record flat ->
  item_rows pkg yj (map record_json flat) = map (record_row pkg yj) flat.
Proof.
  induction 1 as [|r flat Hr _ IH]; [reflexivity|].
  cbn [map item_rows]. rewrite (item_row_record pkg yj r Hr), IH. reflexivity.
Qed.

(** X8: fed with the flat list that [collect_interactions_flat] produced
    for a document (as decoded from the [interactions_flat] column),
    [build_interaction_rows] skips nothing: it returns one row per flat
    record, in the same order, with the category as section type and the
    group, partner, symptoms and mechanism of the record. *)
Theorem build_interaction_rows_of_flat (json_loads : list N -> option json) pkg yj root :
  build_interaction_rows json_loads pkg yj (flat_json (collect_interactions_flat root).2) =
  map (record_row pkg yj) (collect_interactions_flat root).2.
Proof.
  assert (Forall well_formed_record (collect_interactions_flat root).2) as H.
  { cbn [collect_interactions_flat snd]. apply Forall_app.
    split; apply blocks_well_formed; tauto. }
  destruct ((collect_interactions_flat root).2) as [|r flat] eqn:E; [reflexivity|].
  unfold build_interaction_rows, flat_json. cbn [map jtruthy negb].
  exact (item_rows_records pkg yj (r :: flat) H).
Qed.

(** X7 with a [json.loads] that rejects every string. *)
Lemma build_interaction_rows_sound_witness :
  build_interaction_rows (fun _ => None) (u "P1") (u "Y1") (JStr (u "not json")) = [].
Proof.
  apply (proj1 (proj2 (proj2 (proj2 (proj2 (proj2 (proj2 (proj2 (proj2
           (build_interaction_rows_sound (fun _ => None) (u "P1") (u "Y1"))))))))))).
  reflexivity.
Defined.

Example build_interaction_rows_sample :
  map (fun r => (partner_name_ja r, section_type r))
    (build_interaction_rows (fun _ => None) (u "P1") (u "Y1")
       (flat_json (collect_interactions_flat Samples.interactions_doc).2)) =
  [ (JStr (u "イトラコナゾール"), JStr (u "併用禁忌"));
    (JStr (u "イトラコナゾール"), JStr (u "併用禁忌"));
    (JStr (u "クラリスロマイシン"), JStr (u "併用禁忌"));
    (JStr (u "抗コリン剤"), JStr (u "併用注意")) ].
Proof. vm_compute. reflexivity. Qed.

(** A dictionary with a category only is skipped, as is anything that is
    not a dictionary. *)
Example build_interaction_rows_skips :
  build_interaction_rows (fun _ => None) (u "P1") (u "Y1")
    (JArr [ JObj {[ u "category" := JStr (u "併用注意") ]};
            JStr (u "x"); JNull;
            JObj {[ u "partner" := JStr []; u "symptoms" := JStr (u "s") ]} ]) =
  [ mkRow (u "P1") (u "Y1") JNull JNull (JStr []) (JStr (u "s")) JNull ].
Proof. vm_compute. reflexivity. Qed.

(** ** Local names (31_rawdata2women.py) *)

Section LocalName.

Lemma existsb_eqb_elem sep (l : list N) : existsb (N.eqb sep) l = true <-> sep ∈ l.
Proof.
  rewrite existsb_exists. split.
  - intros (x & Hx & E). apply N.eqb_eq in E. subst. apply list_elem_of_In. exact Hx.
  - intros H. exists sep. split; [apply list_elem_of_In; exact H|apply N.eqb_refl].
Qed.

Lemma existsb_eqb_not_elem sep (l : list N) : sep ∉ l -> existsb (N.eqb sep) l = false.
Proof.
  intros H. destruct (existsb (N.eqb sep) l) eqn:E; [|reflexivity].
  apply existsb_eqb_elem in E. contradiction.
Qed.

Lemma split_last_after sep pre (l : list N) :
  sep ∉ l -> split_last sep (pre ++ sep :: l) = l.
Proof.
  intros Hl. induction pre as [|c pre IH]; cbn [app split_last].
  - rewrite existsb_eqb_not_elem, N.eqb_refl by exact Hl. reflexivity.
  - assert (existsb (N.eqb sep) (pre ++ sep :: l) = true) as ->; [|exact IH].
    apply existsb_eqb_elem. rewrite elem_of_app, elem_of_cons. auto.
Qed.

Lemma split_last_none sep (s : list N) : sep ∉ s -> split_last sep s = s.
Proof.
  destruct s as [|c s]; [reflexivity|]. intros H. cbn [split_last].
  apply not_elem_of_cons in H as [Hc Hs].
  rewrite existsb_eqb_not_elem by exact Hs.
  destruct (N.eqb_spec c sep); [congruence|reflexivity].
Qed.

Lemma split_last_free sep (s : list N) : sep ∉ split_last sep s.
Proof.
  induction s as [|c s IH]; [apply not_elem_of_nil|]. cbn [split_last].
  destruct (existsb (N.eqb sep) s) eqn:E; [exact IH|].
  assert (sep ∉ s) as Hs.
  { intros H. apply existsb_eqb_elem in H. congruence. }
  destruct (N.eqb_spec c sep); [exact Hs|].
  apply not_elem_of_cons. split; [congruence|exact Hs].
Qed.

End LocalName.

(** X9: [local_name] drops the namespace: for a tag [{uri}local] whose
    local part holds no closing brace it returns the local part, whatever
    the URI; a tag without a closing brace is returned as it is; and the
    result never holds a closing brace. *)
Theorem local_name_strips_namespace :
  (forall uri local, 125 ∉ local -> local_name (u "{" ++ uri ++ u "}" ++ local) = local)
  /\ (forall tag, 125 ∉ tag -> local_name tag = tag)
  /\ (forall tag, 125 ∉ local_name tag).
Proof.
  split.
  { intros uri local H. unfold local_name.
    change (u "{" ++ uri ++ u "}" ++ local) with ((u "{" ++ uri) ++ 125 :: local) at 1.
    rewrite <- app_assoc. apply (split_last_after 125 (u "{" ++ uri) local H). }
  split; [intros tag H; apply split_last_none; exact H|].
  intros tag. apply split_last_free.
Qed.

(** X9 on the qualified tag of a [Lang] element. *)
Lemma local_name_strips_namespace_witness :
  local_name (u "{" ++ Ingest.PI_NS ++ u "}" ++ u "Lang") = u "Lang".
Proof.
  apply (proj1 local_name_strips_namespace). by_decide.
Defined.

(** ** What the whitespace substitutions compute *)

Section Collapse.

Variable p : char -> bool.

Lemma collapse_true s : collapse p true s = collapse p false (lstrip_by p s).
Proof.
  induction s as [|c s IH]; [reflexivity|]. cbn [collapse lstrip_by].
  destruct (p c) eqn:Hc; [exact IH|]. cbn [collapse]. rewrite Hc. reflexivity.
Qed.

(** [re.sub(r'X+', ' ', s)] *)
Lemma sub_go_collapse n : forall b s,
  (length s <= n)%nat -> sub_go (PlusC p) [32] 0 b s = collapse p false s.
Proof.
  induction n as [|n IH]; intros b [|c s] Hlen; try reflexivity; cbn [length] in Hlen; [lia|].
  rewrite sub_go_cons, ends_plusC. cbn [collapse]. destruct (p c) eqn:Hc.
  - destruct (star_ends_head p s) as [tl ->].
    pose proof (lstrip_by_length p s).
    replace (length (c :: s) - length (lstrip_by p s))%nat
      with (S (length s - length (lstrip_by p s))) by (cbn [length]; lia).
    cbn [app]. rewrite sub_go_skip, <- lstrip_by_drop, collapse_true.
    f_equal. apply IH. lia.
  - f_equal. apply IH. lia.
Qed.

Lemma sub_collapse s : sub (PlusC p) [32] s = collapse p false s.
Proof. apply (sub_go_collapse (length s)). lia. Qed.

Hypothesis p_space : p 32 = true.

Lemma collapse_single_spaced prev s : single_spaced p prev (collapse p prev s) = true.
Proof.
  revert prev. induction s as [|c s IH]; intros prev; [reflexivity|]. cbn [collapse].
  destruct (p c) eqn:Hc.
  - destruct prev; [apply IH|]. cbn [single_spaced]. rewrite p_space, IH. reflexivity.
  - cbn [single_spaced]. rewrite Hc. apply IH.
Qed.

Lemma collapse_fixed prev s : single_spaced p prev s = true -> collapse p prev s = s.
Proof.
  revert prev. induction s as [|c s IH]; intros prev; [reflexivity|].
  cbn [single_spaced collapse]. destruct (p c) eqn:Hc.
  - intros H. apply andb_true_iff in H as [H Hs]. apply andb_true_iff in H as [Hc32 Hprev].
    apply N.eqb_eq in Hc32. subst c. destruct prev; [discriminate|].
    rewrite (IH true Hs). reflexivity.
  - intros H. rewrite (IH false H). reflexivity.
Qed.

End Collapse.

Section SingleSpaced.

Variable p : char -> bool.

Lemma single_spaced_weaken prev s :
  single_spaced p prev s = true -> single_spaced p false s = true.
Proof.
  destruct s as [|c s]; [reflexivity|]. cbn [single_spaced].
  destruct (p c); [|trivial]. destruct prev; [|trivial].
  rewrite andb_false_r. discriminate.
Qed.

Lemma single_spaced_tail prev c s :
  single_spaced p prev (c :: s) = true -> single_spaced p false s = true.
Proof.
  cbn [single_spaced]. destruct (p c).
  - intros H. apply andb_true_iff in H as [_ H]. exact (single_spaced_weaken true s H).
  - trivial.
Qed.

Lemma single_spaced_suffix prev a s :
  single_spaced p prev (a ++ s) = true -> single_spaced p false s = true.
Proof.
  revert prev. induction a as [|c a IH]; intros prev; cbn [app].
  - apply single_spaced_weaken.
  - cbn [single_spaced]. destruct (p c).
    + intros H. apply andb_true_iff in H as [_ H]. exact (IH true H).
    + apply IH.
Qed.

Lemma single_spaced_prefix prev s b :
  single_spaced p prev (s ++ b) = true -> single_spaced p prev s = true.
Proof.
  revert prev. induction s as [|c s IH]; intros prev; [reflexivity|].
  cbn [app single_spaced]. destruct (p c).
  - intros H. apply andb_true_iff in H as [H1 H]. rewrite H1. exact (IH true H).
  - apply IH.
Qed.

Lemma single_spaced_piece r s :
  piece_of r s -> single_spaced p false s = true -> single_spaced p false r = true.
Proof.
  intros (a & b & ->) H. apply single_spaced_suffix in H.
  exact (single_spaced_prefix false r b H).
Qed.

End SingleSpaced.

Section Squeeze.

Lemma squeeze_drop run s :
  (2 <= run)%nat -> squeeze run s = squeeze 0 (lstrip_by is_nl s).
Proof.
  revert run. induction s as [|c s IH]; intros run Hrun; [reflexivity|].
  cbn [squeeze lstrip_by]. unfold is_nl at 1. destruct (c =? 10) eqn:Hc.
  - destruct (Nat.leb_spec 2 run); [|lia]. apply IH. lia.
  - cbn [squeeze]. rewrite Hc. reflexivity.
Qed.

Lemma squeeze_one s : startswith [10; 10] s = false -> squeeze 1 s = squeeze 0 s.
Proof.
  intros H. destruct s as [|d [|e s]]; cbn [startswith squeeze Nat.leb] in *.
  - reflexivity.
  - destruct (d =? 10); reflexivity.
  - destruct (N.eqb_spec d 10) as [->|]; [|reflexivity].
    destruct (N.eqb_spec e 10) as [->|]; [discriminate H|reflexivity].
Qed.

Lemma startswith_nl3 c s :
  startswith [10; 10; 10] (c :: s) = true -> c = 10 /\ exists t, s = 10 :: 10 :: t.
Proof.
  cbn [startswith]. destruct (N.eqb_spec 10 c) as [<-|]; [|discriminate].
  destruct s as [|d [|e t]]; try discriminate.
  - destruct (10 =? d); discriminate.
  - destruct (N.eqb_spec 10 d) as [<-|]; [|discriminate].
    destruct (N.eqb_spec 10 e) as [<-|]; [|discriminate]. eauto.
Qed.

Lemma ends_rx_newlines b s :
  ends rx_newlines b s =
  if startswith [10; 10; 10] s then star_ends is_nl (drop 3 s) else [].
Proof.
  unfold rx_newlines. rewrite ends_seq. cbn [ends length].
  destruct (startswith [10; 10; 10] s); cbn [flat_map ends]; [apply app_nil_r|reflexivity].
Qed.

(** [re.sub(r'\n{3,}', '\n\n', s)] *)
Lemma sub_go_squeeze n : forall b s,
  (length s <= n)%nat -> sub_go rx_newlines [10; 10] 0 b s = squeeze 0 s.
Proof.
  induction n as [|n IH]; intros b [|c s] Hlen; try reflexivity; cbn [length] in Hlen; [lia|].
  rewrite sub_go_cons, ends_rx_newlines.
  destruct (startswith [10; 10; 10] (c :: s)) eqn:E.
  - apply startswith_nl3 in E as [-> [t ->]]. cbn [skipn]. rewrite drop_0.
    destruct (star_ends_head is_nl t) as [tl ->].
    assert (lstrip_by is_nl (10 :: 10 :: t) = lstrip_by is_nl t) as Hl by reflexivity.
    pose proof (lstrip_by_length is_nl t) as Hle.
    replace (Nat.sub (length (10 :: 10 :: 10 :: t)) (length (lstrip_by is_nl t)))
      with (S (Nat.sub (length (10 :: 10 :: t)) (length (lstrip_by is_nl (10 :: 10 :: t)))))
      by (rewrite Hl; cbn [length]; lia).
    rewrite sub_go_skip, <- lstrip_by_drop, Hl.
    rewrite IH by (cbn [length] in Hlen; lia).
    change (squeeze 0 (10 :: 10 :: 10 :: t)) with (10 :: 10 :: squeeze 3 t).
    rewrite (squeeze_drop 3 t) by lia. reflexivity.
  - rewrite IH by lia. cbn [squeeze]. destruct (N.eqb_spec c 10) as [->|Hc]; [|reflexivity].
    cbn [Nat.leb]. f_equal. symmetry. apply squeeze_one.
    destruct s as [|d [|e t]]; try reflexivity; exact E.
Qed.

Lemma sub_squeeze s : sub rx_newlines [10; 10] s = squeeze 0 s.
Proof. apply (sub_go_squeeze (length s)). lia. Qed.

Lemma short_runs_less run s :
  short_runs (S run) s = true -> short_runs run s = true.
Proof.
  revert run. induction s as [|c s IH]; intros run; [reflexivity|].
  cbn [short_runs]. destruct (c =? 10); [|trivial].
  intros H. apply andb_true_iff in H as [H1 H2]. rewrite (IH _ H2).
  apply Nat.ltb_lt in H1. rewrite (proj2 (Nat.ltb_lt run 2)) by lia. reflexivity.
Qed.

Lemma short_runs_zero run s : short_runs run s = true -> short_runs 0 s = true.
Proof.
  induction run as [|run IH]; [trivial|]. intros H. apply IH, short_runs_less, H.
Qed.

Lemma squeeze_short_runs run s : short_runs run (squeeze run s) = true.
Proof.
  revert run. induction s as [|c s IH]; intros run; [reflexivity|]. cbn [squeeze].
  destruct (c =? 10) eqn:Hc.
  - destruct (Nat.leb_spec 2 run).
    + apply short_runs_less, IH.
    + cbn [short_runs]. rewrite IH, (proj2 (Nat.ltb_lt run 2)) by lia. reflexivity.
  - cbn [short_runs]. rewrite Hc. apply IH.
Qed.

Lemma squeeze_fixed run s : short_runs run s = true -> squeeze run s = s.
Proof.
  revert run. induction s as [|c s IH]; intros run; [reflexivity|].
  cbn [short_runs squeeze]. destruct (c =? 10) eqn:Hc.
  - intros H. apply andb_true_iff in H as [H1 H2]. apply Nat.ltb_lt in H1.
    destruct (Nat.leb_spec 2 run); [lia|]. apply N.eqb_eq in Hc. subst c.
    rewrite (IH _ H2). reflexivity.
  - intros H. rewrite (IH _ H). reflexivity.
Qed.

Lemma short_runs_suffix run a s :
  short_runs run (a ++ s) = true -> short_runs 0 s = true.
Proof.
  revert run. induction a as [|c a IH]; intros run; cbn [app].
  - apply short_runs_zero.
  - cbn [short_runs]. destruct (c =? 10).
    + intros H. apply andb_true_iff in H as [_ H]. exact (IH _ H).
    + apply IH.
Qed.

Lemma short_runs_prefix run s b :
  short_runs run (s ++ b) = true -> short_runs run s = true.
Proof.
  revert run. induction s as [|c s IH]; intros run; [reflexivity|].
  cbn [app short_runs]. destruct (c =? 10).
  - intros H. apply andb_true_iff in H as [H1 H]. rewrite H1. exact (IH _ H).
  - apply IH.
Qed.

Lemma short_runs_piece r s :
  piece_of r s -> short_runs 0 s = true -> short_runs 0 r = true.
Proof.
  intros (a & b & ->) H. apply short_runs_suffix in H.
  exact (short_runs_prefix 0 r b H).
Qed.

(** Squeezing newlines leaves the blanks alone. *)
Lemma squeeze_single_spaced p run prev s :
  p 10 = false -> (run <> 0%nat -> prev = false) ->
  single_spaced p prev s = true -> single_spaced p prev (squeeze run s) = true.
Proof.
  intros Hnl. revert run prev. induction s as [|c s IH]; intros run prev Hrun; [reflexivity|].
  cbn [single_spaced squeeze]. destruct (N.eqb_spec c 10) as [->|Hc].
  - rewrite Hnl. intros H. destruct (Nat.leb_spec 2 run).
    + rewrite (Hrun ltac:(lia)). apply IH; [reflexivity|exact H].
    + cbn [single_spaced]. rewrite Hnl. apply IH; [reflexivity|exact H].
  - cbn [single_spaced]. destruct (p c).
    + intros H. apply andb_true_iff in H as [H1 H2]. rewrite H1.
      apply IH; [intros; congruence|exact H2].
    + apply IH. reflexivity.
Qed.

End Squeeze.

Section ReplaceFacts.

Lemma startswith_true (old s : list N) :
  startswith old s = true -> exists rest, s = old ++ rest.
Proof.
  revert s. induction old as [|a old IH]; intros s H; [exists s; reflexivity|].
  destruct s as [|c s]; [discriminate|]. cbn [startswith] in H.
  apply andb_true_iff in H as [Hc H]. apply N.eqb_eq in Hc. subst c.
  destruct (IH s H) as [rest ->]. exists rest. reflexivity.
Qed.

(** Replacing one character by another is a character-wise map. *)
Lemma replace_one a b s :
  replace [a] [b] s = map (fun c => if c =? a then b else c) s.
Proof.
  unfold replace. induction s as [|c s IH]; [reflexivity|].
  cbn [replace_go startswith length Nat.pred map app]. rewrite andb_true_r, IH.
  rewrite (N.eqb_sym a c). destruct (c =? a); reflexivity.
Qed.

(** Nothing is replaced in a string that lacks the first character of [old]. *)
Lemma replace_absent a old new s : a ∉ s -> replace (a :: old) new s = s.
Proof.
  unfold replace. induction s as [|c s IH]; [reflexivity|]. intros H.
  apply not_elem_of_cons in H as [Hc H]. cbn [replace_go startswith].
  destruct (N.eqb_spec a c) as [->|_]; [congruence|]. cbn [andb].
  rewrite (IH H). reflexivity.
Qed.

End ReplaceFacts.

Section Visible.

Lemma visible_cons_space c s : isspace c = true -> visible (c :: s) = visible s.
Proof. intros H. unfold visible. apply filter_cons_False. congruence. Qed.

Lemma visible_cons_other c s : isspace c = false -> visible (c :: s) = c :: visible s.
Proof. intros H. unfold visible. apply filter_cons_True. exact H. Qed.

Lemma visible_app a b : visible (a ++ b) = visible a ++ visible b.
Proof. apply filter_app. Qed.

Lemma visible_blank s : forallb isspace s = true -> visible s = [].
Proof.
  induction s as [|c s IH]; [reflexivity|]. cbn [forallb]. intros H.
  apply andb_true_iff in H as [Hc H]. rewrite (visible_cons_space _ _ Hc). exact (IH H).
Qed.

Lemma visible_replace_go old new :
  old <> [] -> forallb isspace old = true -> forallb isspace new = true ->
  forall s skip, forallb isspace (take skip s) = true ->
  visible (replace_go old new skip s) = visible s.
Proof.
  intros Hne Hold Hnew. induction s as [|c s IH]; intros skip Hskip; [reflexivity|].
  cbn [replace_go]. destruct skip as [|k].
  - destruct (startswith old (c :: s)) eqn:E.
    + apply startswith_true in E as [rest E].
      destruct old as [|a old]; [congruence|]. cbn [app] in E. injection E as -> ->.
      cbn [forallb] in Hold. apply andb_true_iff in Hold as [Ha Hold].
      rewrite visible_app, (visible_blank new Hnew), (visible_cons_space _ _ Ha).
      cbn [app length Nat.pred]. apply IH. rewrite take_app_length. exact Hold.
    + destruct (isspace c) eqn:Hc.
      * rewrite !(visible_cons_space _ _ Hc). apply IH. reflexivity.
      * rewrite !(visible_cons_other _ _ Hc). f_equal. apply IH. reflexivity.
  - cbn [take forallb] in Hskip. apply andb_true_iff in Hskip as [Hc Hskip].
    rewrite (visible_cons_space _ _ Hc). apply IH. exact Hskip.
Qed.

Lemma visible_replace old new s :
  old <> [] -> forallb isspace old = true -> forallb isspace new = true ->
  visible (replace old new s) = visible s.
Proof. intros Hne Hold Hnew. apply visible_replace_go; trivial. Qed.

Lemma visible_collapse p prev s :
  (forall c, p c = true -> isspace c = true) ->
  visible (collapse p prev s) = visible s.
Proof.
  intros Hp. revert prev. induction s as [|c s IH]; intros prev; [reflexivity|].
  cbn [collapse]. destruct (p c) eqn:Hc.
  - rewrite (visible_cons_space c s (Hp c Hc)). destruct prev; [apply IH|].
    rewrite (visible_cons_space 32) by reflexivity. apply IH.
  - destruct (isspace c) eqn:Hs.
    + rewrite !(visible_cons_space _ _ Hs). apply IH.
    + rewrite !(visible_cons_other _ _ Hs). f_equal. apply IH.
Qed.

Lemma visible_squeeze run s : visible (squeeze run s) = visible s.
Proof.
  revert run. induction s as [|c s IH]; intros run; [reflexivity|].
  cbn [squeeze]. destruct (N.eqb_spec c 10) as [->|Hc].
  - rewrite (visible_cons_space 10 s) by reflexivity. destruct (2 <=? run)%nat; [apply IH|].
    rewrite (visible_cons_space 10) by reflexivity. apply IH.
  - destruct (isspace c) eqn:Hs.
    + rewrite !(visible_cons_space _ _ Hs). apply IH.
    + rewrite !(visible_cons_other _ _ Hs). f_equal. apply IH.
Qed.

Lemma visible_lstrip s : visible (lstrip_by isspace s) = visible s.
Proof.
  induction s as [|c s IH]; [reflexivity|]. cbn [lstrip_by].
  destruct (isspace c) eqn:Hc; [|reflexivity].
  rewrite (visible_cons_space _ _ Hc). exact IH.
Qed.

Lemma visible_rstrip s : visible (rstrip_by isspace s) = visible s.
Proof.
  induction s as [|c s IH]; [reflexivity|]. rewrite rstrip_by_cons.
  destruct (forallb isspace (c :: s)) eqn:Hall.
  - symmetry. apply visible_blank. exact Hall.
  - destruct (isspace c) eqn:Hs.
    + rewrite !(visible_cons_space _ _ Hs). exact IH.
    + rewrite !(visible_cons_other _ _ Hs). f_equal. exact IH.
Qed.

Lemma visible_strip s : visible (strip s) = visible s.
Proof. unfold strip. rewrite visible_rstrip. apply visible_lstrip. Qed.

Lemma visible_nil s : visible s = [] -> forallb isspace s = true.
Proof.
  induction s as [|c s IH]; [reflexivity|]. cbn [forallb]. destruct (isspace c) eqn:Hc.
  - rewrite (visible_cons_space _ _ Hc). exact IH.
  - rewrite (visible_cons_other _ _ Hc). discriminate.
Qed.

End Visible.

Section NormalForm.

Lemma collapse_elem p prev s c : c ∈ collapse p prev s -> c = 32 \/ c ∈ s.
Proof.
  revert prev. induction s as [|d s IH]; intros prev; cbn [collapse]; [set_solver|].
  destruct (p d); [destruct prev|]; rewrite ?elem_of_cons; intros H.
  - destruct (IH _ H); [tauto|]. right. set_solver.
  - destruct H as [->|H]; [tauto|]. destruct (IH _ H); [tauto|]. right. set_solver.
  - destruct H as [->|H]; [set_solver|]. destruct (IH _ H); [tauto|]. right. set_solver.
Qed.

Lemma squeeze_elem run s c : c ∈ squeeze run s -> c ∈ s.
Proof.
  revert run. induction s as [|d s IH]; intros run; cbn [squeeze]; [trivial|].
  destruct (N.eqb_spec d 10) as [->|_]; [destruct (2 <=? run)%nat|];
    rewrite ?elem_of_cons; intros H.
  - right. exact (IH _ H).
  - destruct H as [->|H]; [tauto|]. right. exact (IH _ H).
  - destruct H as [->|H]; [tauto|]. right. exact (IH _ H).
Qed.

Lemma piece_of_elem r s (c : N) : piece_of r s -> c ∈ r -> c ∈ s.
Proof. intros (a & b & ->) H. set_solver. Qed.

Lemma single_spaced_class p prev s c :
  single_spaced p prev s = true -> c ∈ s -> p c = true -> c = 32.
Proof.
  revert prev. induction s as [|d s IH]; intros prev H Hc Hp; [set_solver|].
  cbn [single_spaced] in H. apply elem_of_cons in Hc as [->|Hc].
  - rewrite Hp in H. apply andb_true_iff in H as [H _]. apply andb_true_iff in H as [H _].
    apply N.eqb_eq. exact H.
  - destruct (p d).
    + apply andb_true_iff in H as [_ H]. exact (IH _ H Hc Hp).
    + exact (IH _ H Hc Hp).
Qed.

Lemma single_spaced_no_double p s :
  p 32 = true -> single_spaced p false s = true -> ~ piece_of [32; 32] s.
Proof.
  intros Hp H Hpiece. pose proof (single_spaced_piece p _ _ Hpiece H) as H2.
  cbn [single_spaced] in H2. rewrite Hp in H2. discriminate H2.
Qed.

Lemma short_runs_no_triple s : short_runs 0 s = true -> ~ piece_of [10; 10; 10] s.
Proof.
  intros H Hpiece. pose proof (short_runs_piece _ _ Hpiece H) as H2. discriminate H2.
Qed.

End NormalForm.

Section TextnormFacts.

Lemma textnorm_steps s :
  textnorm (Some s) =
  Some (strip (squeeze 0 (collapse blank_class false (map cr_to_lf (replace [13; 10] [10] s))))).
Proof.
  unfold textnorm, rx_blanks. rewrite sub_squeeze, sub_collapse, replace_one. reflexivity.
Qed.

Lemma cr_to_lf_free (s : list N) : 13 ∉ map cr_to_lf s.
Proof.
  induction s as [|c s IH]; cbn [map]; [apply not_elem_of_nil|].
  apply not_elem_of_cons. split; [|exact IH].
  unfold cr_to_lf. destruct (N.eqb_spec c 13); congruence.
Qed.

(** What [textnorm] establishes, in the terms of the recursive checks. *)
Lemma textnorm_invariant s t :
  textnorm (Some s) = Some t ->
  strip t = t /\ (13 ∉ t) /\ single_spaced blank_class false t = true /\ short_runs 0 t = true.
Proof.
  rewrite textnorm_steps. intros [= <-].
  set (m := map cr_to_lf _). set (k := collapse blank_class false m). set (q := squeeze 0 k).
  assert (single_spaced blank_class false q = true) as Hq.
  { apply squeeze_single_spaced; [reflexivity|congruence|].
    apply collapse_single_spaced. reflexivity. }
  repeat split.
  - apply strip_idem.
  - intros H. apply (piece_of_elem _ _ _ (strip_piece q)) in H.
    apply squeeze_elem, collapse_elem in H as [H|H]; [discriminate H|].
    exact (cr_to_lf_free _ H).
  - exact (single_spaced_piece _ _ _ (strip_piece q) Hq).
  - apply (short_runs_piece _ _ (strip_piece q)). apply squeeze_short_runs.
Qed.

(** A string in that form is left as it is. *)
Lemma textnorm_fixed t :
  strip t = t -> 13 ∉ t -> single_spaced blank_class false t = true -> short_runs 0 t = true ->
  textnorm (Some t) = Some t.
Proof.
  intros Hs Hcr Hsp Hnl. rewrite textnorm_steps, (replace_absent 13 [10] [10] t Hcr).
  assert (map cr_to_lf t = t) as ->.
  { clear -Hcr. induction t as [|c t IH]; [reflexivity|].
    apply not_elem_of_cons in Hcr as [Hc Hcr]. cbn [map]. rewrite (IH Hcr).
    unfold cr_to_lf. destruct (N.eqb_spec c 13); congruence. }
  rewrite (collapse_fixed blank_class false t Hsp), (squeeze_fixed 0 t Hnl), Hs.
  reflexivity.
Qed.

(** Only whitespace is touched. *)
Lemma textnorm_visible s t : textnorm (Some s) = Some t -> visible t = visible s.
Proof.
  rewrite textnorm_steps. intros [= <-]. rewrite visible_strip, visible_squeeze.
  rewrite visible_collapse.
  - unfold cr_to_lf. rewrite <- (replace_one 13 10).
    rewrite visible_replace by (reflexivity || discriminate).
    apply visible_replace; reflexivity || discriminate.
  - intros c Hc. unfold blank_class in Hc.
    apply orb_true_iff in Hc as [Hc|Hc]; [apply orb_true_iff in Hc as [Hc|Hc]|];
      apply N.eqb_eq in Hc; subst c; reflexivity.
Qed.

End TextnormFacts.

(** X10 (31_rawdata2women.py, textnorm): whatever string comes in, the
    string that comes out has no whitespace at either end, holds no carriage
    return, tab or ideographic space, has no two spaces in a row and no
    three newlines in a row. *)
Theorem textnorm_normal_form s :
  exists t, textnorm (Some s) = Some t
    /\ strip t = t
    /\ (forall c, c ∈ t -> c <> 13 /\ c <> 9 /\ c <> 12288)
    /\ ~ piece_of [32; 32] t
    /\ ~ piece_of [10; 10; 10] t.
Proof.
  destruct (textnorm (Some s)) as [t|] eqn:E; [|rewrite textnorm_steps in E; discriminate E].
  exists t. destruct (textnorm_invariant s t E) as (Hs & Hcr & Hsp & Hnl).
  split; [reflexivity|]. split; [exact Hs|]. split; [|split].
  - intros c Hc. split; [intros ->; exact (Hcr Hc)|].
    split; intros ->.
    + discriminate (single_spaced_class blank_class false t 9 Hsp Hc eq_refl).
    + discriminate (single_spaced_class blank_class false t 12288 Hsp Hc eq_refl).
  - apply (single_spaced_no_double blank_class); [reflexivity|exact Hsp].
  - apply short_runs_no_triple, Hnl.
Qed.

(** X11 (31_rawdata2women.py, textnorm): normalising twice gives what
    normalising once gives; None stays None. *)
Theorem textnorm_idempotent o : textnorm (textnorm o) = textnorm o.
Proof.
  destruct o as [s|]; [|reflexivity].
  destruct (textnorm (Some s)) as [t|] eqn:E; [|reflexivity].
  destruct (textnorm_invariant s t E) as (Hs & Hcr & Hsp & Hnl).
  apply textnorm_fixed; assumption.
Qed.

(** X12 (31_rawdata2women.py, textnorm): only whitespace is touched; the
    characters that are not whitespace come out unchanged and in order. *)
Theorem textnorm_keeps_visible o : visible <$> textnorm o = visible <$> o.
Proof.
  destruct o as [s|]; [|reflexivity].
  destruct (textnorm (Some s)) as [t|] eqn:E; [|rewrite textnorm_steps in E; discriminate E].
  cbn [fmap option_fmap option_map]. f_equal. exact (textnorm_visible s t E).
Qed.

Section ReplaceSpacing.

Variable p : char -> bool.

Lemma single_spaced_other prev c s :
  p c = false -> single_spaced p prev (c :: s) = single_spaced p false s.
Proof. intros H. cbn [single_spaced]. rewrite H. reflexivity. Qed.

Lemma single_spaced_app_free a s :
  free_of p a = true -> single_spaced p false (a ++ s) = single_spaced p false s.
Proof.
  induction a as [|c a IH]; [reflexivity|]. cbn [free_of forallb app]. intros H.
  apply andb_true_iff in H as [Hc H]. apply negb_true_iff in Hc.
  rewrite (single_spaced_other _ _ _ Hc). exact (IH H).
Qed.

Lemma single_spaced_app_word prev a s :
  a <> [] -> free_of p a = true ->
  single_spaced p prev (a ++ s) = single_spaced p false s.
Proof.
  destruct a as [|c a]; [congruence|]. intros _ H. cbn [free_of forallb] in H.
  apply andb_true_iff in H as [Hc H]. apply negb_true_iff in Hc.
  cbn [app]. rewrite (single_spaced_other _ _ _ Hc). exact (single_spaced_app_free a s H).
Qed.

(** Replacing a word that holds no character of the class by another such
    word, not empty, keeps the spacing. *)
Lemma single_spaced_replace_go old new :
  old <> [] -> new <> [] -> free_of p old = true -> free_of p new = true ->
  forall s skip prev,
    free_of p (take skip s) = true ->
    single_spaced p prev s = true ->
    single_spaced p (match skip with O => prev | S _ => false end)
                  (replace_go old new skip s) = true.
Proof.
  intros Hold Hnew Fold Fnew. induction s as [|c s IH]; intros skip prev Hskip H; [reflexivity|].
  cbn [replace_go]. destruct skip as [|k].
  - destruct (startswith old (c :: s)) eqn:E.
    + apply startswith_true in E as [rest E].
      destruct old as [|a old]; [congruence|]. cbn [app] in E. injection E as -> ->.
      cbn [free_of forallb] in Fold. apply andb_true_iff in Fold as [Ha Fold].
      apply negb_true_iff in Ha. rewrite (single_spaced_other _ _ _ Ha) in H.
      rewrite (single_spaced_app_word prev new _ Hnew Fnew). cbn [length Nat.pred].
      specialize (IH (length old) false). rewrite take_app_length in IH.
      specialize (IH Fold H). destruct (length old); exact IH.
    + cbn [single_spaced] in *. destruct (p c).
      * apply andb_true_iff in H as [H1 H]. rewrite H1. exact (IH 0%nat true eq_refl H).
      * exact (IH 0%nat false eq_refl H).
  - cbn [take free_of forallb] in Hskip. apply andb_true_iff in Hskip as [Hc Hskip].
    apply negb_true_iff in Hc. rewrite (single_spaced_other _ _ _ Hc) in H.
    specialize (IH k false Hskip H). destruct k; exact IH.
Qed.

Lemma single_spaced_replace old new s :
  old <> [] -> new <> [] -> free_of p old = true -> free_of p new = true ->
  single_spaced p false s = true -> single_spaced p false (replace old new s) = true.
Proof.
  intros Hold Hnew Fold Fnew H.
  exact (single_spaced_replace_go old new Hold Hnew Fold Fnew s 0%nat false eq_refl H).
Qed.

End ReplaceSpacing.

Lemma normalize_for_match_invariant s :
  single_spaced isspace false (normalize_for_match (Some s)) = true.
Proof.
  unfold normalize_for_match. rewrite sub_collapse.
  apply (single_spaced_piece isspace _ _ (strip_piece _)).
  apply single_spaced_replace; try reflexivity; try (vm_compute; discriminate).
  apply single_spaced_replace; try reflexivity; try (vm_compute; discriminate).
  apply collapse_single_spaced. reflexivity.
Qed.

(** X13 (32_label_women_risk.py, normalize_for_match): in the text the
    rules are matched against, the only whitespace character is the plain
    space, no two spaces stand in a row and none stands at either end; a
    value that is no string gives the empty string. *)
Theorem normalize_for_match_spacing o :
  strip (normalize_for_match o) = normalize_for_match o
  /\ (forall c, c ∈ normalize_for_match o -> isspace c = true -> c = 32)
  /\ ~ piece_of [32; 32] (normalize_for_match o).
Proof.
  destruct o as [s|].
  - pose proof (normalize_for_match_invariant s) as H. split; [|split].
    + unfold normalize_for_match. apply strip_idem.
    + intros c Hc Hsp. exact (single_spaced_class isspace false _ c H Hc Hsp).
    + apply (single_spaced_no_double isspace); [reflexivity|exact H].
  - cbn [normalize_for_match]. split; [reflexivity|]. split.
    + intros c Hc. apply elem_of_nil in Hc. destruct Hc.
    + intros (a & b & E). destruct a; discriminate E.
Qed.

Section Joins.

Lemma strip_ends t :
  strip t = t -> t <> [] ->
  (exists c, head t = Some c /\ isspace c = false)
  /\ (exists c, last t = Some c /\ isspace c = false).
Proof.
  intros H Hne. split.
  - destruct t as [|c t]; [congruence|]. exists c. split; [reflexivity|].
    apply (lstrip_by_head isspace (c :: t)). apply (rstrip_by_head isspace).
    fold (strip (c :: t)). rewrite H. reflexivity.
  - destruct (last t) as [c|] eqn:El; [|apply last_None in El; congruence].
    exists c. split; [reflexivity|].
    apply (rstrip_by_last isspace (lstrip_by isspace t)).
    fold (strip t). rewrite H. exact El.
Qed.

Lemma strip_fixed t :
  (forall c, head t = Some c -> isspace c = false) ->
  (forall c, last t = Some c -> isspace c = false) -> strip t = t.
Proof.
  intros Hh Hl. unfold strip. rewrite (lstrip_by_id isspace t Hh).
  apply rstrip_by_id, Hl.
Qed.

Lemma single_spaced_app p prev a r :
  single_spaced p prev a = true -> single_spaced p false r = true ->
  (forall c, head r = Some c -> p c = false) ->
  single_spaced p prev (a ++ r) = true.
Proof.
  intros Ha Hr Hh. revert prev Ha. induction a as [|c a IH]; intros prev Ha.
  - destruct r as [|d r]; [reflexivity|]. cbn [app].
    rewrite (single_spaced_other p prev d r (Hh d eq_refl)).
    rewrite (single_spaced_other p false d r (Hh d eq_refl)) in Hr. exact Hr.
  - cbn [app single_spaced] in *. destruct (p c).
    + apply andb_true_iff in Ha as [H1 Ha]. rewrite H1. exact (IH true Ha).
    + exact (IH false Ha).
Qed.

Lemma short_runs_app run a r :
  short_runs run a = true -> short_runs 0 r = true ->
  (forall c, last a = Some c -> c <> 10) -> a <> [] ->
  short_runs run (a ++ r) = true.
Proof.
  intros Ha Hr. revert run Ha. induction a as [|c a IH]; intros run Ha Hl Hne; [congruence|].
  destruct a as [|d a].
  - cbn [app short_runs]. destruct (N.eqb_spec c 10) as [->|_]; [|exact Hr].
    destruct (Hl 10 eq_refl eq_refl).
  - change ((c :: d :: a) ++ r) with (c :: (d :: a) ++ r).
    cbn [short_runs] in Ha |- *. rewrite last_cons_cons in Hl.
    destruct (c =? 10).
    + apply andb_true_iff in Ha as [H1 Ha]. rewrite H1. apply IH; [exact Ha|exact Hl|discriminate].
    + apply IH; [exact Ha|exact Hl|discriminate].
Qed.

Lemma sep_no_cr : 13 ∉ SEP.
Proof.
  unfold SEP. intros H. apply elem_of_cons in H as [H|H]; [discriminate H|].
  apply elem_of_cons in H as [H|H]; [discriminate H|]. apply elem_of_nil in H. exact H.
Qed.

(** Two filled texts joined by an empty line are a filled text. *)
Lemma filled_sep a b : filled a -> filled b -> filled (a ++ SEP ++ b).
Proof.
  intros (Hane & Has & Hacr & Hasp & Hanl) (Hbne & Hbs & Hbcr & Hbsp & Hbnl).
  destruct (strip_ends a Has Hane) as [(ca & Hca & Hca') (la & Hla & Hla')].
  destruct (strip_ends b Hbs Hbne) as [(cb & Hcb & Hcb') (lb & Hlb & Hlb')].
  split; [destruct a; [congruence|discriminate]|]. split; [|split; [|split]].
  - apply strip_fixed.
    + intros c. rewrite head_app, Hca. intros [= <-]. exact Hca'.
    + intros c. rewrite !last_app, Hlb. intros [= <-]. exact Hlb'.
  - rewrite !not_elem_of_app. split; [exact Hacr|]. split; [exact sep_no_cr|exact Hbcr].
  - apply single_spaced_app; [exact Hasp| |intros c [= <-]; reflexivity].
    rewrite (single_spaced_app_word blank_class false SEP b); [exact Hbsp|discriminate|reflexivity].
  - apply short_runs_app; [exact Hanl| | |exact Hane].
    + destruct b as [|d b]; [congruence|]. cbn [head] in Hcb. injection Hcb as Hd. subst d.
      unfold SEP. cbn [app short_runs N.eqb Pos.eqb Nat.ltb Nat.leb andb] in Hbnl |- *.
      destruct (cb =? 10) eqn:E; [|exact Hbnl].
      apply N.eqb_eq in E. subst cb. discriminate Hcb'.
    + intros c Hc ->. rewrite Hla in Hc. injection Hc as ->. discriminate Hla'.
Qed.

Lemma filled_join l : l <> [] -> Forall filled l -> filled (join SEP l).
Proof.
  induction l as [|a l IH]; [congruence|]. intros _ H.
  apply Forall_cons in H as [Ha Hl]. destruct l as [|b l]; [exact Ha|].
  change (join SEP (a :: b :: l)) with (a ++ SEP ++ join SEP (b :: l)).
  apply filled_sep; [exact Ha|]. apply IH; [discriminate|exact Hl].
Qed.

Lemma filled_uniq l : l <> [] -> Forall filled l -> filled (join SEP (uniq l)).
Proof.
  intros Hne H. rewrite women_uniq_dedup_first. apply filled_join.
  - destruct l; [congruence|discriminate].
  - apply Forall_forall. intros x Hx.
    exact (proj1 (Forall_forall _ _) H x (proj1 (dedup_first_elem l x) Hx)).
Qed.

Lemma filled_textnorm t : filled t -> textnorm (Some t) = Some t.
Proof. intros (_ & Hs & Hcr & Hsp & Hnl). apply textnorm_fixed; assumption. Qed.

Lemma filled_strip t : filled t -> strip t = t.
Proof. intros (_ & Hs & _). exact Hs. Qed.

End Joins.

Section SectionText.

Lemma fold_left_inv {A B} (P : A -> Prop) (f : A -> B -> A) (l : list B) (a : A) :
  (forall a b, P a -> P (f a b)) -> P a -> P (fold_left f l a).
Proof.
  intros Hf. revert a. induction l as [|b l IH]; intros a Ha; [exact Ha|].
  cbn [fold_left]. apply IH, Hf, Ha.
Qed.

Lemma textnorm_some s : exists t, textnorm (Some s) = Some t.
Proof. rewrite textnorm_steps. eexists. reflexivity. Qed.

Lemma lang_step_filled st n :
  Forall filled st.1 /\ Forall filled st.2 ->
  Forall filled (lang_step st n).1 /\ Forall filled (lang_step st n).2.
Proof.
  intros [H1 H2]. unfold lang_step. case_bool_decide; [|tauto].
  destruct (textnorm (Some (alltext n))) as [t|] eqn:E; [|tauto].
  destruct (truthy t) eqn:Ht; cbn [negb]; [|tauto].
  assert (filled t) as Hf.
  { split; [destruct t; [discriminate Ht|discriminate]|].
    exact (textnorm_invariant _ _ E). }
  destruct (is_ja_lang n); cbn [fst snd]; split; try assumption;
    apply Forall_app; split; try assumption; apply Forall_cons_2; [exact Hf|apply Forall_nil_2| |];
    try exact Hf; try apply Forall_nil_2.
Qed.

Lemma collect_langs_filled hits :
  Forall filled (collect_langs hits).1 /\ Forall filled (collect_langs hits).2.
Proof.
  unfold collect_langs.
  apply (fold_left_inv (fun st => Forall filled st.1 /\ Forall filled st.2)).
  - intros st h Hst.
    apply (fold_left_inv (fun st => Forall filled st.1 /\ Forall filled st.2));
      [apply lang_step_filled|exact Hst].
  - split; apply Forall_nil_2.
Qed.

Lemma lang_step_keeps st n x :
  x ∈ st.1 ++ st.2 -> x ∈ (lang_step st n).1 ++ (lang_step st n).2.
Proof.
  intros H. unfold lang_step. case_bool_decide; [|exact H].
  destruct (textnorm (Some (alltext n))) as [t|]; [|exact H].
  destruct (negb (truthy t)); [exact H|].
  destruct (is_ja_lang n); cbn [fst snd]; rewrite !elem_of_app in *; tauto.
Qed.

Lemma lang_step_adds st n t :
  local_name (tag n) = LANG_LOCAL ->
  textnorm (Some (alltext n)) = Some t -> t <> [] ->
  t ∈ (lang_step st n).1 ++ (lang_step st n).2.
Proof.
  intros Hn Ht Hne. unfold lang_step. rewrite bool_decide_eq_true_2 by exact Hn.
  rewrite Ht. destruct t as [|c t]; [congruence|]. cbn [truthy negb].
  destruct (is_ja_lang n); cbn [fst snd]; rewrite !elem_of_app, !elem_of_cons; tauto.
Qed.

Lemma fold_lang_keeps l st x :
  x ∈ st.1 ++ st.2 ->
  x ∈ (fold_left lang_step l st).1 ++ (fold_left lang_step l st).2.
Proof.
  apply (fold_left_inv (fun st => x ∈ st.1 ++ st.2)). intros a b. apply lang_step_keeps.
Qed.

Lemma fold_lang_adds l st n t :
  n ∈ l -> local_name (tag n) = LANG_LOCAL ->
  textnorm (Some (alltext n)) = Some t -> t <> [] ->
  t ∈ (fold_left lang_step l st).1 ++ (fold_left lang_step l st).2.
Proof.
  intros Hin Hn Ht Hne. apply list_elem_of_split in Hin as (l1 & l2 & ->).
  rewrite fold_left_app. cbn [fold_left]. apply fold_lang_keeps.
  apply lang_step_adds; assumption.
Qed.

Lemma collect_langs_adds hits h n t :
  h ∈ hits -> n ∈ iter h -> local_name (tag n) = LANG_LOCAL ->
  textnorm (Some (alltext n)) = Some t -> t <> [] ->
  t ∈ (collect_langs hits).1 ++ (collect_langs hits).2.
Proof.
  intros Hh Hin Hn Ht Hne. unfold collect_langs.
  apply list_elem_of_split in Hh as (h1 & h2 & ->).
  rewrite fold_left_app. cbn [fold_left].
  apply (fold_left_inv (fun st => t ∈ st.1 ++ st.2)).
  - intros a b. apply fold_lang_keeps.
  - apply (fold_lang_adds _ _ n); assumption.
Qed.

Lemma piece_of_join sep (l : list (list N)) x : x ∈ l -> piece_of x (join sep l).
Proof.
  induction l as [|p l IH]; intros H; [apply elem_of_nil in H; destruct H|].
  destruct l as [|q l].
  - apply elem_of_cons in H as [->|H]; [apply piece_of_refl|].
    apply elem_of_nil in H. destruct H.
  - change (join sep (p :: q :: l)) with (p ++ sep ++ join sep (q :: l)).
    apply elem_of_cons in H as [->|H]; [apply piece_of_prefix|].
    apply piece_of_trans with (join sep (q :: l)); [exact (IH H)|].
    rewrite app_assoc. apply piece_of_suffix.
Qed.

Lemma piece_of_uniq (l : list (list N)) x : x ∈ l -> piece_of x (join SEP (uniq l)).
Proof.
  intros H. apply piece_of_join. rewrite women_uniq_dedup_first.
  exact (proj2 (dedup_first_elem l x) H).
Qed.

(** The two ways the text comes about: by the fall-back on the first hit,
    when no Lang text was collected, or joined from one or two parts. *)
Lemma extract_text_cases (root : Element) (targets : gset (list N)) h0 hits :
  find_hits root targets = h0 :: hits ->
  (collect_langs (h0 :: hits) = ([], [])
   /\ (extract_section_texts (Some root) targets).1 = textnorm (Some (alltext h0)))
  \/ (exists parts, parts <> [] /\ Forall filled parts
        /\ (forall x, x ∈ (collect_langs (h0 :: hits)).1 ++ (collect_langs (h0 :: hits)).2 ->
                      exists p, p ∈ parts /\ piece_of x p)
        /\ (extract_section_texts (Some root) targets).1 = Some (strip (join SEP parts))).
Proof.
  intros Eh. unfold extract_section_texts. rewrite Eh.
  destruct (collect_langs_filled (h0 :: hits)) as [Hja Hot].
  destruct (collect_langs (h0 :: hits)) as [ja other]. cbn [fst snd] in Hja, Hot |- *.
  destruct ja as [|j ja]; destruct other as [|o other].
  - left. split; reflexivity.
  - right. exists [join SEP (uniq (o :: other))]. split; [discriminate|]. split; [|split].
    + apply Forall_cons_2; [apply filled_uniq; [discriminate|exact Hot]|apply Forall_nil_2].
    + intros x Hx. cbn [app] in Hx. eexists. split; [apply list_elem_of_here|].
      apply piece_of_uniq, Hx.
    + reflexivity.
  - right. exists [join SEP (uniq (j :: ja))]. split; [discriminate|]. split; [|split].
    + apply Forall_cons_2; [apply filled_uniq; [discriminate|exact Hja]|apply Forall_nil_2].
    + intros x Hx. rewrite app_nil_r in Hx. eexists. split; [apply list_elem_of_here|].
      apply piece_of_uniq, Hx.
    + reflexivity.
  - right. exists [join SEP (uniq (j :: ja)); join SEP (uniq (o :: other))].
    split; [discriminate|]. split; [|split].
    + apply Forall_cons_2; [apply filled_uniq; [discriminate|exact Hja]|].
      apply Forall_cons_2; [apply filled_uniq; [discriminate|exact Hot]|apply Forall_nil_2].
    + intros x Hx. apply elem_of_app in Hx as [Hx|Hx].
      * eexists. split; [apply list_elem_of_here|]. apply piece_of_uniq, Hx.
      * eexists. split; [apply list_elem_of_further, list_elem_of_here|].
        apply piece_of_uniq, Hx.
    + reflexivity.
Qed.

Lemma find_hits_elem (root : Element) (targets : gset (list N)) e :
  e ∈ find_hits root targets <-> local_name (tag e) ∈ targets /\ e ∈ iter root.
Proof. unfold find_hits. rewrite list_elem_of_filter. reflexivity. Qed.

End SectionText.

(** X14 (31_rawdata2women.py, extract_section_texts): the text returned is
    already in the form [textnorm] produces, whichever way it was built (the
    fall-back on the first hit, or Lang texts joined by empty lines):
    normalising it once more changes nothing. *)
Theorem extract_section_texts_normalised root targets :
  textnorm (extract_section_texts root targets).1 = (extract_section_texts root targets).1.
Proof.
  destruct root as [root|]; [|reflexivity].
  destruct (find_hits root targets) as [|h0 hits] eqn:Eh.
  - unfold extract_section_texts. rewrite Eh. reflexivity.
  - destruct (extract_text_cases root targets h0 hits Eh)
      as [[_ ->]|(parts & Hne & Hparts & _ & ->)].
    + destruct (textnorm (Some (alltext h0))) as [t|] eqn:E; [|reflexivity].
      destruct (textnorm_invariant _ _ E) as (Hs & Hcr & Hsp & Hnl).
      apply textnorm_fixed; assumption.
    + pose proof (filled_join parts Hne Hparts) as Hf.
      rewrite (filled_strip _ Hf). exact (filled_textnorm _ Hf).
Qed.

(** X15 (31_rawdata2women.py, extract_section_texts): for a parsed
    document the text is a string, possibly empty, exactly when some element
    has its local name in the target set; it is absent exactly when none
    has. *)
Theorem extract_section_texts_present (root : Element) (targets : gset (list N)) :
  is_Some (extract_section_texts (Some root) targets).1
  <-> exists e, e ∈ iter root /\ local_name (tag e) ∈ targets.
Proof.
  destruct (find_hits root targets) as [|h0 hits] eqn:Eh.
  - split.
    + unfold extract_section_texts. rewrite Eh. intros [t Ht]. discriminate Ht.
    + intros (e & He & Ht). assert (e ∈ find_hits root targets) as Hin
        by (apply find_hits_elem; split; assumption).
      rewrite Eh in Hin. apply elem_of_nil in Hin. destruct Hin.
  - split.
    + intros _. exists h0. assert (h0 ∈ find_hits root targets) as Hin
        by (rewrite Eh; apply list_elem_of_here).
      apply find_hits_elem in Hin as [Ht He]. split; assumption.
    + intros _. destruct (extract_text_cases root targets h0 hits Eh)
        as [[_ ->]|(parts & _ & _ & _ & ->)].
      * destruct (textnorm_some (alltext h0)) as [t ->]. exists t. reflexivity.
      * eexists. reflexivity.
Qed.

(** X16 (31_rawdata2women.py, extract_section_texts): no Lang text is
    lost. When a Lang element below some hit has text that is not all
    whitespace, the text returned is a string that is not empty and contains
    the normalised text of that element as one piece. *)
Theorem extract_section_texts_keeps_lang (root : Element) (targets : gset (list N)) h n :
  h ∈ iter root -> local_name (tag h) ∈ targets ->
  n ∈ iter h -> local_name (tag n) = LANG_LOCAL ->
  forallb isspace (alltext n) = false ->
  exists t tn, (extract_section_texts (Some root) targets).1 = Some t
    /\ textnorm (Some (alltext n)) = Some tn
    /\ tn <> [] /\ piece_of tn t.
Proof.
  intros Hh Hht Hn Hnt Hblank.
  destruct (textnorm_some (alltext n)) as [tn Htn].
  assert (tn <> []) as Hne.
  { intros ->. apply textnorm_visible in Htn. symmetry in Htn.
    apply visible_nil in Htn. congruence. }
  assert (h ∈ find_hits root targets) as Hin by (apply find_hits_elem; split; assumption).
  destruct (find_hits root targets) as [|h0 hits] eqn:Eh; [apply elem_of_nil in Hin; destruct Hin|].
  pose proof (collect_langs_adds (h0 :: hits) h n tn Hin Hn Hnt Htn Hne) as Hmem.
  destruct (extract_text_cases root targets h0 hits Eh)
    as [[E _]|(parts & Hpne & Hparts & Hcover & ->)].
  - rewrite E in Hmem. apply elem_of_nil in Hmem. destruct Hmem.
  - destruct (Hcover tn Hmem) as (p & Hp & Hpiece).
    pose proof (filled_join parts Hpne Hparts) as Hf.
    exists (strip (join SEP parts)), tn. repeat split; try assumption.
    rewrite (filled_strip _ Hf).
    apply piece_of_trans with p; [exact Hpiece|apply piece_of_join, Hp].
Qed.

(** X16 on [Samples.two_sections_doc]: the Lang text of its first
    pregnancy section is part of the text returned. *)
Lemma extract_section_texts_keeps_lang_witness :
  exists t tn,
    (extract_section_texts (Some Samples.two_sections_doc) PREGNANT_TAGS).1 = Some t
    /\ textnorm (Some (alltext (Samples.lang "ja" "妊婦には投与しないこと。"))) = Some tn
    /\ tn <> [] /\ piece_of tn t.
Proof.
  apply (extract_section_texts_keeps_lang Samples.two_sections_doc PREGNANT_TAGS
           (Elem (u "{urn:a}UseInPregnant") {[ u "id" := u "sec-9.5" ]} None
              [Samples.lang "ja" "妊婦には投与しないこと。"] None)
           (Samples.lang "ja" "妊婦には投与しないこと。")).
  - unfold Samples.two_sections_doc. cbn [iter flat_map app].
    apply list_elem_of_further, list_elem_of_further, list_elem_of_here.
  - by_decide.
  - cbn [iter flat_map app]. apply list_elem_of_further, list_elem_of_here.
  - vm_compute. reflexivity.
  - vm_compute. reflexivity.
Defined.

(** ** Rows of 21_sgml2rawdata.py *)

Section RawRows.

Lemma get_text_clean_or_absent node xpath : clean_or_absent (get_text node xpath).
Proof. apply clean_or_absent_intro. intros s. apply get_text_clean. Qed.

Lemma text_ja_clean_or_absent d : clean_or_absent (text_ja d).
Proof. apply clean_or_absent_intro. intros s. apply text_ja_clean. Qed.

Lemma or_empty_clean o :
  clean_or_absent o -> RawData.or_empty o = [] \/ clean (RawData.or_empty o).
Proof.
  destruct o as [s|]; [|left; reflexivity]. cbn [clean_or_absent RawData.or_empty].
  destruct (truthy s); [right; assumption|left; reflexivity].
Qed.

Lemma elem_of_map {A B} (f : A -> B) (l : list A) y :
  y ∈ map f l <-> exists x, y = f x /\ x ∈ l.
Proof.
  rewrite list_elem_of_In, in_map_iff. split; intros (x & H1 & H2); exists x.
  - split; [congruence|]. apply list_elem_of_In, H2.
  - split; [congruence|]. apply list_elem_of_In, H2.
Qed.

End RawRows.

(** Reduction of the projections of a row that is given by its fields. *)
Ltac row_fields :=
  cbn [RawData.package_insert_no RawData.yj_code RawData.company_identifier
       RawData.prepared_ym RawData.brand_name_ja RawData.brand_name_hiragana
       RawData.trademark_en RawData.generic_name_ja RawData.standard_name_ja
       RawData.therapeutic_class_ja RawData.approval_no RawData.start_marketing].

(** X17 (21_sgml2rawdata.py, parse_xml_to_rows): a document gives one row
    per DetailBrandName element under ApprovalEtc and, when it has none,
    exactly one row; there is always at least one row. All rows of the
    document carry the same document columns; the row of a document without
    brands has the empty string as YJ code and no brand column. *)
Theorem parse_xml_to_rows_shape (tostring : Element -> list N) xml_path (root : Element) :
  length (RawData.parse_xml_to_rows tostring xml_path root)
  = Nat.max 1 (length (findall (RawData.path ["ApprovalEtc"; "DetailBrandName"]) root))
  /\ (forall r r',
        r ∈ RawData.parse_xml_to_rows tostring xml_path root ->
        r' ∈ RawData.parse_xml_to_rows tostring xml_path root ->
        RawData.document_columns r = RawData.document_columns r')
  /\ (findall (RawData.path ["ApprovalEtc"; "DetailBrandName"]) root = [] ->
      forall r, r ∈ RawData.parse_xml_to_rows tostring xml_path root ->
        RawData.yj_code r = [] /\ Forall (eq None) (RawData.brand_columns r)).
Proof.
  unfold RawData.parse_xml_to_rows.
  destruct (findall (RawData.path ["ApprovalEtc"; "DetailBrandName"]) root) as [|b brands].
  - split; [reflexivity|]. split.
    + intros r r' Hr Hr'. apply list_elem_of_singleton in Hr, Hr'. subst. reflexivity.
    + intros _ r Hr. apply list_elem_of_singleton in Hr. subst r.
      split; [reflexivity|]. unfold RawData.brand_columns. repeat constructor.
  - split; [|split].
    + rewrite length_map. cbn [length]. lia.
    + intros r r' Hr Hr'. apply elem_of_map in Hr as (x & -> & _).
      apply elem_of_map in Hr' as (x' & -> & _). reflexivity.
    + discriminate.
Qed.

(** X18 (21_sgml2rawdata.py, parse_xml_to_rows): in every row the two key
    columns are the empty string or a non-empty string without surrounding
    whitespace, never absent, and each optional text column is absent or
    such a string, never an empty one. *)
Theorem parse_xml_to_rows_clean (tostring : Element -> list N) xml_path (root : Element) :
  Forall (fun r =>
            (RawData.package_insert_no r = [] \/ clean (RawData.package_insert_no r))
            /\ (RawData.yj_code r = [] \/ clean (RawData.yj_code r))
            /\ Forall clean_or_absent (RawData.text_columns r))
         (RawData.parse_xml_to_rows tostring xml_path root).
Proof.
  unfold RawData.parse_xml_to_rows.
  destruct (findall (RawData.path ["ApprovalEtc"; "DetailBrandName"]) root) as [|b brands].
  - apply Forall_cons_2; [|apply Forall_nil_2].
    row_fields.
    split; [apply or_empty_clean, get_text_clean_or_absent|]. split; [left; reflexivity|].
    unfold RawData.text_columns. row_fields.
    repeat (apply Forall_cons_2;
            [first [exact I | apply get_text_clean_or_absent
                   | apply por_clean; [apply text_ja_clean_or_absent|apply get_text_clean_or_absent]]|]).
    apply Forall_nil_2.
  - apply Forall_forall. intros r Hr. apply elem_of_map in Hr as (br & -> & _).
    row_fields.
    split; [apply or_empty_clean, get_text_clean_or_absent|].
    split; [apply or_empty_clean, get_text_clean_or_absent|].
    unfold RawData.text_columns. row_fields.
    repeat (apply Forall_cons_2;
            [first [apply get_text_clean_or_absent
                   | apply por_clean; [apply text_ja_clean_or_absent|apply get_text_clean_or_absent]]|]).
    apply Forall_nil_2.
Qed.

Example parse_xml_to_rows_sample :
  map (fun r => (RawData.package_insert_no r, RawData.yj_code r, RawData.brand_name_ja r))
      (RawData.parse_xml_to_rows (fun _ => []) [] two_brands_doc)
  = [ (u "123", u "1234567F1020", Some (u "錠A")); (u "123", [], None) ].
Proof. vm_compute. reflexivity. Qed.

(** ** The row of 32_label_women_risk.py *)

Section LabelRow.

Lemma classify_preg_range o :
  classify o PREG_RULES ∈
    [ (3%Z, u "contraindicated"); (2%Z, u "not_recommended");
      (1%Z, u "benefit_over_risk_or_caution"); (0%Z, u "unclear"); (0%Z, u "none") ].
Proof.
  unfold classify. destruct o as [s|]; [|do 4 apply list_elem_of_further; apply list_elem_of_here].
  destruct (negb (truthy (strip s))); [do 4 apply list_elem_of_further; apply list_elem_of_here|].
  unfold PREG_RULES. cbn [classify_rules].
  destruct (search PREG_RX3 _); [apply list_elem_of_here|].
  destruct (search PREG_RX2 _); [apply list_elem_of_further, list_elem_of_here|].
  destruct (search PREG_RX1 _); [do 2 apply list_elem_of_further; apply list_elem_of_here|].
  do 3 apply list_elem_of_further. apply list_elem_of_here.
Qed.

Lemma classify_nurs_range o :
  classify o NURS_RULES ∈
    [ (3%Z, u "stop_lactation"); (2%Z, u "consider_benefit");
      (1%Z, u "info_only"); (0%Z, u "unclear"); (0%Z, u "none") ].
Proof.
  unfold classify. destruct o as [s|]; [|do 4 apply list_elem_of_further; apply list_elem_of_here].
  destruct (negb (truthy (strip s))); [do 4 apply list_elem_of_further; apply list_elem_of_here|].
  unfold NURS_RULES. cbn [classify_rules].
  destruct (search NURS_RX3 _); [apply list_elem_of_here|].
  destruct (search NURS_RX2 _); [apply list_elem_of_further, list_elem_of_here|].
  destruct (search NURS_RX1 _); [do 2 apply list_elem_of_further; apply list_elem_of_here|].
  do 3 apply list_elem_of_further. apply list_elem_of_here.
Qed.

Lemma elem_of_five {A} (x a b c d e : A) :
  x ∈ [a; b; c; d; e] -> x = a \/ x = b \/ x = c \/ x = d \/ x = e.
Proof.
  intros H. repeat (apply elem_of_cons in H as [H|H]; [tauto|]).
  apply elem_of_nil in H. destruct H.
Qed.

Lemma conf_bounds s (b1 b2 : bool) :
  (0 <= s <= 3)%Z ->
  (s <= Z.min 3 (s + (if b1 then 1 else 0) + (if b2 then 1 else 0)) <= 3)%Z.
Proof. intros Hs. destruct b1, b2; lia. Qed.

Lemma preg_conf_bounds s flags :
  (0 <= s <= 3)%Z -> (s <= preg_conf s flags <= 3)%Z.
Proof.
  intros Hs. unfold preg_conf. rewrite (base_conf_id s Hs). exact (conf_bounds s _ _ Hs).
Qed.

Lemma nurs_conf_bounds s flags :
  (0 <= s <= 3)%Z -> (s <= nurs_conf s flags <= 3)%Z.
Proof.
  intros Hs. unfold nurs_conf. rewrite (base_conf_id s Hs). exact (conf_bounds s _ _ Hs).
Qed.

End LabelRow.

(** The three properties checked on each of the five possible results of
    a classification. *)
Ltac label_case :=
  split; [lia|]; split; (split; [intros H; try tauto; try (exfalso; vm_compute in H; congruence)
                                |intros H; try reflexivity; try lia;
                                 try (exfalso; destruct H as [H|H]; vm_compute in H; congruence)]).

(** X19 (32_label_women_risk.py, main with PREG_RULES, NURS_RULES and the
    label tables): whatever the two texts of a row, both scores lie in 0..3
    and so does the overall score, which is 0 only when both are; each
    confidence lies between its score and 3; a score is 0 exactly when its
    rule tag is none or unclear, and exactly then the label is 不明. *)
Theorem label_row_ranges ptx ntx :
  let r := Label.label_row ptx ntx in
  ((0 <= Label.p_score r <= 3)%Z
   /\ (Label.p_score r = 0%Z <-> Label.p_rule r = u "none" \/ Label.p_rule r = u "unclear")
   /\ (Label.pregnant_label r = u "不明" <-> Label.p_score r = 0%Z))
  /\ ((0 <= Label.n_score r <= 3)%Z
      /\ (Label.n_score r = 0%Z <-> Label.n_rule r = u "none" \/ Label.n_rule r = u "unclear")
      /\ (Label.nursing_label r = u "不明" <-> Label.n_score r = 0%Z))
  /\ (0 <= Label.overall r <= 3)%Z
  /\ (Label.overall r = 0%Z <-> Label.p_score r = 0%Z /\ Label.n_score r = 0%Z)
  /\ (Label.p_score r <= Label.preg_confidence r <= 3)%Z
  /\ (Label.n_score r <= Label.nurs_confidence r <= 3)%Z.
Proof.
  unfold Label.label_row.
  pose proof (classify_preg_range (Some (Label.or_blank ptx))) as Hp.
  pose proof (classify_nurs_range (Some (Label.or_blank ntx))) as Hn.
  destruct (classify (Some (Label.or_blank ptx)) PREG_RULES) as [ps pr].
  destruct (classify (Some (Label.or_blank ntx)) NURS_RULES) as [ns nr].
  cbv zeta.
  cbn [Label.p_score Label.p_rule Label.n_score Label.n_rule Label.overall
       Label.preg_confidence Label.nurs_confidence Label.pregnant_label Label.nursing_label].
  assert ((0 <= ps <= 3)%Z
          /\ (ps = 0%Z <-> pr = u "none" \/ pr = u "unclear")
          /\ (Label.tora_label_preg ps = u "不明" <-> ps = 0%Z)) as Hps.
  { apply elem_of_five in Hp.
    destruct Hp as [Hp|[Hp|[Hp|[Hp|Hp]]]]; injection Hp as -> ->; label_case. }
  assert ((0 <= ns <= 3)%Z
          /\ (ns = 0%Z <-> nr = u "none" \/ nr = u "unclear")
          /\ (Label.tora_label_nurs ns = u "不明" <-> ns = 0%Z)) as Hns.
  { apply elem_of_five in Hn.
    destruct Hn as [Hn|[Hn|[Hn|[Hn|Hn]]]]; injection Hn as -> ->; label_case. }
  split; [exact Hps|]. split; [exact Hns|].
  destruct Hps as [Hps _], Hns as [Hns _].
  split; [lia|]. split; [lia|].
  split; [apply preg_conf_bounds, Hps|apply nurs_conf_bounds, Hns].
Qed.

(** ** Matches in the normalised text come from the raw text *)

Section EndsFacts.

Lemma star_ends_any e s : e ∈ star_ends any_char s <-> exists pre, s = pre ++ e.
Proof.
  induction s as [|c s IH]; cbn [star_ends any_char].
  - rewrite list_elem_of_singleton. split.
    + intros ->. exists []. reflexivity.
    + intros (pre & H). symmetry in H. apply app_eq_nil in H as [_ H]. exact H.
  - rewrite elem_of_app, list_elem_of_singleton, IH. split.
    + intros [(pre & ->)| ->]; [exists (c :: pre)|exists []]; reflexivity.
    + intros (pre & H). destruct pre as [|d pre]; [right; exact (eq_sym H)|].
      left. injection H as _ ->. exists pre. reflexivity.
Qed.

Lemma ends_str w bos s e : e ∈ ends (Str w) bos s <-> s = w ++ e.
Proof.
  cbn [ends]. destruct (startswith w s) eqn:E.
  - apply startswith_true in E as [rest ->]. rewrite drop_app_length, list_elem_of_singleton.
    split; [intros ->; reflexivity|]. intros H. apply app_inv_head in H. exact (eq_sym H).
  - split; [intros H; apply elem_of_nil in H; destruct H|].
    intros ->. rewrite startswith_app in E. discriminate E.
Qed.

Lemma ends_seq_elem a b bos s e :
  e ∈ ends (Seq a b) bos s <->
  exists m, m ∈ ends a bos s /\ e ∈ ends b (bos && (length m =? length s)%nat) m.
Proof.
  cbn [ends]. rewrite list_elem_of_In, in_flat_map. split.
  - intros (m & Hm & He). exists m. rewrite !list_elem_of_In. tauto.
  - intros (m & Hm & He). exists m. rewrite !list_elem_of_In in *. tauto.
Qed.

Lemma matches_search_from r bos s e : e ∈ ends r bos s -> search_from r bos s = true.
Proof.
  intros He. assert (matches_at r bos s = true) as H.
  { unfold matches_at. destruct (ends r bos s); [apply elem_of_nil in He; destruct He|reflexivity]. }
  destruct s; cbn [search_from]; rewrite H; reflexivity.
Qed.

Lemma search_from_intro r pre rest e b0 :
  e ∈ ends r (match pre with [] => b0 | _ => false end) rest ->
  search_from r b0 (pre ++ rest) = true.
Proof.
  revert b0. induction pre as [|c pre IH]; intros b0 He.
  - exact (matches_search_from r b0 rest e He).
  - cbn [app search_from]. apply orb_true_iff. right. apply IH.
    destruct pre; exact He.
Qed.

Lemma search_intro r pre rest e :
  e ∈ ends r (match pre with [] => true | _ => false end) rest ->
  search r (pre ++ rest) = true.
Proof. apply search_from_intro. Qed.

Lemma search_from_elim r bos s :
  search_from r bos s = true ->
  exists pre rest b e, s = pre ++ rest /\ e ∈ ends r b rest.
Proof.
  revert bos. induction s as [|c s IH]; intros bos; cbn [search_from]; intros H.
  - rewrite orb_false_r in H. unfold matches_at in H.
    destruct (ends r bos []) as [|e l] eqn:E; [discriminate|].
    exists [], [], bos, e. split; [reflexivity|]. rewrite E. apply list_elem_of_here.
  - apply orb_true_iff in H as [H|H].
    + unfold matches_at in H. destruct (ends r bos (c :: s)) as [|e l] eqn:E; [discriminate|].
      exists [], (c :: s), bos, e. split; [reflexivity|]. rewrite E. apply list_elem_of_here.
    + destruct (IH false H) as (pre & rest & b & e & -> & He).
      exists (c :: pre), rest, b, e. split; [reflexivity|exact He].
Qed.

End EndsFacts.

(** A relation [R t s] between a rewritten text [t] and its source [s]
    that lets every character of [t] outside [junk] be found at the head of
    [s], and that can always be re-established further on in [s]. *)
Section Simulation.

Variable R : list N -> list N -> Prop.
Hypothesis R_head : forall c t s,
  R (c :: t) s -> junk c = false -> exists s', s = c :: s' /\ R t s'.
Hypothesis R_next : forall c t s,
  R (c :: t) s -> exists pre s', s = pre ++ s' /\ R t s'.

Lemma sim_suffix pre : forall e s,
  R (pre ++ e) s -> exists pre' e', s = pre' ++ e' /\ R e e'.
Proof.
  induction pre as [|c pre IH]; intros e s H.
  - exists [], s. split; [reflexivity|exact H].
  - destruct (R_next c _ s H) as (p1 & s1 & -> & H1).
    destruct (IH e s1 H1) as (p2 & e' & -> & H2).
    exists (p1 ++ p2), e'. rewrite app_assoc. split; [reflexivity|exact H2].
Qed.

Lemma sim_word w : forall e s,
  free_of junk w = true -> R (w ++ e) s -> exists e', s = w ++ e' /\ R e e'.
Proof.
  induction w as [|c w IH]; intros e s Hw H.
  - exists s. split; [reflexivity|exact H].
  - cbn [free_of forallb] in Hw. apply andb_true_iff in Hw as [Hc Hw].
    apply negb_true_iff in Hc. destruct (R_head c _ s H Hc) as (s1 & -> & H1).
    destruct (IH e s1 Hw H1) as (e' & -> & H2). exists e'. split; [reflexivity|exact H2].
Qed.

Lemma sim_ends r : plain_rx r -> forall bos bos' t s e,
  R t s -> e ∈ ends r bos t -> exists e', e' ∈ ends r bos' s /\ R e e'.
Proof.
  induction 1 as [w Hw| |a b _ IHa _ IHb|a b _ IHa _ IHb]; intros bos bos' t s e HR He.
  - apply ends_str in He. subst t. destruct (sim_word w e s Hw HR) as (e' & -> & H').
    exists e'. split; [apply ends_str; reflexivity|exact H'].
  - apply star_ends_any in He as (pre & ->).
    destruct (sim_suffix pre e s HR) as (pre' & e' & -> & H').
    exists e'. split; [apply star_ends_any; exists pre'; reflexivity|exact H'].
  - apply ends_seq_elem in He as (m & Hm & He).
    destruct (IHa bos bos' t s m HR Hm) as (m' & Hm' & HRm).
    destruct (IHb _ (bos' && (length m' =? length s)%nat) m m' e HRm He) as (e' & He' & HRe).
    exists e'. split; [|exact HRe]. apply ends_seq_elem. exists m'. split; assumption.
  - cbn [ends] in He. apply elem_of_app in He as [He|He].
    + destruct (IHa bos bos' t s e HR He) as (e' & He' & HRe).
      exists e'. split; [|exact HRe]. cbn [ends]. apply elem_of_app. left. exact He'.
    + destruct (IHb bos bos' t s e HR He) as (e' & He' & HRe).
      exists e'. split; [|exact HRe]. cbn [ends]. apply elem_of_app. right. exact He'.
Qed.

Lemma sim_search r t s :
  plain_rx r -> R t s -> search r t = true -> search r s = true.
Proof.
  intros Hr HR H. apply search_from_elim in H as (pre & rest & b & e & -> & He).
  destruct (sim_suffix pre rest s HR) as (pre' & rest' & -> & HR').
  destruct (sim_ends r Hr b (match pre' with [] => true | _ => false end) rest rest' e HR' He)
    as (e' & He' & _).
  exact (search_intro r pre' rest' e' He').
Qed.

End Simulation.

Section Reflect.

Variable r : regex.
Hypothesis r_plain : plain_rx r.

Lemma free_of_junk_head c w : junk c = true -> free_of junk (c :: w) = false.
Proof. intros H. cbn [free_of forallb]. rewrite H. reflexivity. Qed.

(** Text added at the right end takes no match away. *)
Lemma search_extend_right t x : search r t = true -> search r (t ++ x) = true.
Proof.
  apply (sim_search (fun t s => exists x, s = t ++ x)); [| |exact r_plain|exists x; reflexivity].
  - intros c t' s (y & ->) _. exists (t' ++ y). split; [reflexivity|exists y; reflexivity].
  - intros c t' s (y & ->). exists [c], (t' ++ y). split; [reflexivity|exists y; reflexivity].
Qed.

(** Nor does text added at the left end. *)
Lemma search_extend_left pre t : search r t = true -> search r (pre ++ t) = true.
Proof.
  intros H. apply search_from_elim in H as (p & rest & b & e & -> & He).
  destruct (sim_ends eq) with (r := r) (bos := b)
    (bos' := match pre ++ p with [] => true | _ => false end) (t := rest) (s := rest) (e := e)
    as (e' & He' & _); try assumption; try reflexivity.
  - intros c t s <- _. exists t. split; reflexivity.
  - intros c t s <-. exists [c], t. split; reflexivity.
  - rewrite app_assoc. exact (search_intro r (pre ++ p) rest e' He').
Qed.

Lemma search_piece t s : piece_of t s -> search r t = true -> search r s = true.
Proof.
  intros (a & b & ->) H. apply search_extend_left, search_extend_right, H.
Qed.

(** A character-wise map that fixes the characters outside [junk] and
    maps [junk] into [junk]. *)
Lemma search_map (f : N -> N) s :
  (forall c, junk c = false -> f c = c) -> (forall c, junk c = true -> junk (f c) = true) ->
  search r (map f s) = true -> search r s = true.
Proof.
  intros Hfix Hjunk.
  apply (sim_search (fun t s => t = map f s)); [| |exact r_plain|reflexivity].
  - intros c t s0 H Hc. destruct s0 as [|d s0]; [discriminate H|]. cbn [map] in H.
    injection H as Hd ->. exists s0. split; [|reflexivity]. f_equal.
    destruct (junk d) eqn:Ed; [|rewrite Hd; symmetry; apply Hfix, Ed].
    apply Hjunk in Ed. rewrite <- Hd in Ed. congruence.
  - intros c t s0 H. destruct s0 as [|d s0]; [discriminate H|]. cbn [map] in H.
    injection H as _ ->. exists [d], s0. split; reflexivity.
Qed.

Lemma search_replace_one a b s :
  junk a = true -> junk b = true ->
  search r (replace [a] [b] s) = true -> search r s = true.
Proof.
  intros Ha Hb. rewrite replace_one. apply search_map.
  - intros c Hc. destruct (N.eqb_spec c a) as [->|_]; [congruence|reflexivity].
  - intros c Hc. destruct (c =? a); assumption.
Qed.

Lemma lstrip_by_suffix p s : exists pre, s = pre ++ lstrip_by p s.
Proof.
  induction s as [|c s [pre IH]]; [exists []; reflexivity|]. cbn [lstrip_by].
  destruct (p c); [|exists []; reflexivity]. exists (c :: pre). cbn [app]. f_equal. exact IH.
Qed.

Lemma search_collapse p s :
  (forall c, p c = true -> junk c = true) ->
  search r (collapse p false s) = true -> search r s = true.
Proof.
  intros Hp.
  apply (sim_search (fun t s => t = collapse p false s)); [| |exact r_plain|reflexivity].
  - intros c t s0 H Hc. destruct s0 as [|d s0]; [discriminate H|]. cbn [collapse] in H.
    destruct (p d) eqn:Ed.
    + injection H as -> _. discriminate Hc.
    + injection H as <- ->. exists s0. split; reflexivity.
  - intros c t s0 H. destruct s0 as [|d s0]; [discriminate H|]. cbn [collapse] in H.
    destruct (p d) eqn:Ed.
    + injection H as _ ->. destruct (lstrip_by_suffix p s0) as [pre Hpre].
      exists (d :: pre), (lstrip_by p s0). split; [cbn [app]; f_equal; exact Hpre|].
      apply collapse_true.
    + injection H as _ ->. exists [d], s0. split; reflexivity.
Qed.

Lemma replace_go_skip old new w rest :
  replace_go old new (length w) (w ++ rest) = replace_go old new 0 rest.
Proof.
  induction w as [|c w IH]; [reflexivity|]. cbn [length app replace_go]. exact IH.
Qed.

Lemma search_replace old new s :
  old <> [] -> new <> [] -> forallb junk old = true -> forallb junk new = true ->
  search r (replace old new s) = true -> search r s = true.
Proof.
  intros Hold Hnew Jold Jnew.
  apply (sim_search (fun t s => exists j, forallb junk j = true /\ t = j ++ replace_go old new 0 s));
    [| |exact r_plain|exists []; split; reflexivity].
  - intros c t s0 (j & Hj & H) Hc. destruct j as [|x j].
    + cbn [app] in H. destruct s0 as [|d s0]; [discriminate H|]. cbn [replace_go] in H.
      destruct (startswith old (d :: s0)) eqn:E.
      * destruct new as [|n new]; [congruence|]. cbn [app] in H. injection H as -> _.
        cbn [forallb] in Jnew. rewrite Hc in Jnew. discriminate Jnew.
      * injection H as <- ->. exists s0. split; [reflexivity|]. exists []. split; reflexivity.
    + cbn [app] in H. injection H as <- _. cbn [forallb] in Hj. rewrite Hc in Hj. discriminate Hj.
  - intros c t s0 (j & Hj & H). destruct j as [|x j].
    + cbn [app] in H. destruct s0 as [|d s0]; [discriminate H|]. cbn [replace_go] in H.
      destruct (startswith old (d :: s0)) eqn:E.
      * apply startswith_true in E as [rest E]. destruct old as [|o old]; [congruence|].
        cbn [app] in E. injection E as -> ->. cbn [length Nat.pred] in H.
        rewrite replace_go_skip in H. destruct new as [|n new]; [congruence|].
        cbn [app] in H. injection H as _ ->. exists (o :: old), rest. split; [reflexivity|].
        exists new. split; [|reflexivity]. cbn [forallb] in Jnew.
        apply andb_true_iff in Jnew as [_ Jnew]. exact Jnew.
      * injection H as _ ->. exists [d], s0. split; [reflexivity|].
        exists []. split; reflexivity.
    + cbn [app] in H. injection H as _ ->. exists [], s0. split; [reflexivity|].
      exists j. split; [|reflexivity]. cbn [forallb] in Hj.
      apply andb_true_iff in Hj as [_ Hj]. exact Hj.
Qed.

(** A match of a plain pattern in the normalised text is a match in the
    text itself. *)
Lemma normalize_for_match_reflects s :
  search r (normalize_for_match (Some s)) = true -> search r s = true.
Proof.
  unfold normalize_for_match. rewrite sub_collapse. intros H.
  apply (search_piece _ _ (strip_piece _)) in H.
  apply search_replace in H; [|discriminate|discriminate|reflexivity|reflexivity].
  apply search_replace in H; [|discriminate|discriminate|reflexivity|reflexivity].
  apply search_collapse in H; [|intros c Hc; unfold junk; rewrite Hc; reflexivity].
  apply search_replace_one in H; [|reflexivity|reflexivity].
  apply search_replace_one in H; [|reflexivity|reflexivity].
  apply search_replace_one in H; [|reflexivity|reflexivity]. exact H.
Qed.

End Reflect.

Section Preserve.

Variable r : regex.
Hypothesis r_plain : plain_rx r.

Lemma junk_space c : junk c = false -> isspace c = false.
Proof. unfold junk. intros H. apply orb_false_iff in H as [H _]. exact H. Qed.

Lemma search_lstrip s : search r s = true -> search r (lstrip_by isspace s) = true.
Proof.
  apply (sim_search (fun t s => s = t \/ s = lstrip_by isspace t));
    [| |exact r_plain|right; reflexivity].
  - intros c t s0 H Hc. apply junk_space in Hc. cbn [lstrip_by] in H. rewrite Hc in H.
    exists t. split; [destruct H as [->| ->]; reflexivity|left; reflexivity].
  - intros c t s0 [->|H].
    + exists [c], t. split; [reflexivity|left; reflexivity].
    + cbn [lstrip_by] in H. destruct (isspace c).
      * exists [], s0. split; [reflexivity|right; exact H].
      * exists [c], t. split; [exact H|left; reflexivity].
Qed.

Lemma search_rstrip s : search r s = true -> search r (rstrip_by isspace s) = true.
Proof.
  apply (sim_search (fun t s => s = rstrip_by isspace t)); [| |exact r_plain|reflexivity].
  - intros c t s0 H Hc. apply junk_space in Hc. rewrite rstrip_by_cons in H.
    cbn [forallb] in H. rewrite Hc in H. cbn [andb] in H.
    exists (rstrip_by isspace t). split; [exact H|reflexivity].
  - intros c t s0 H. rewrite rstrip_by_cons in H.
    destruct (forallb isspace (c :: t)) eqn:E.
    + exists [], []. split; [exact H|]. symmetry. apply rstrip_by_nil.
      cbn [forallb] in E. apply andb_true_iff in E as [_ E]. exact E.
    + exists [c], (rstrip_by isspace t). split; [exact H|reflexivity].
Qed.

Lemma search_strip s : search r s = true -> search r (strip s) = true.
Proof. intros H. unfold strip. apply search_rstrip, search_lstrip, H. Qed.

Lemma search_map_keeps (f : N -> N) s :
  (forall c, junk c = false -> f c = c) ->
  search r s = true -> search r (map f s) = true.
Proof.
  intros Hfix.
  apply (sim_search (fun t s => s = map f t)); [| |exact r_plain|reflexivity].
  - intros c t s0 -> Hc. cbn [map]. rewrite (Hfix c Hc). exists (map f t). split; reflexivity.
  - intros c t s0 ->. exists [f c], (map f t). split; reflexivity.
Qed.

Lemma search_replace_one_keeps a b s :
  junk a = true -> search r s = true -> search r (replace [a] [b] s) = true.
Proof.
  intros Ha. rewrite replace_one. apply search_map_keeps.
  intros c Hc. destruct (N.eqb_spec c a) as [->|_]; [congruence|reflexivity].
Qed.

Lemma search_collapse_keeps p s :
  (forall c, p c = true -> junk c = true) ->
  search r s = true -> search r (collapse p false s) = true.
Proof.
  intros Hp.
  apply (sim_search (fun t s => s = collapse p false t \/ s = collapse p true t));
    [| |exact r_plain|left; reflexivity].
  - intros c t s0 H Hc. assert (p c = false) as Hpc.
    { destruct (p c) eqn:E; [|reflexivity]. apply Hp in E. congruence. }
    cbn [collapse] in H. rewrite Hpc in H. exists (collapse p false t).
    split; [destruct H as [->| ->]; reflexivity|left; reflexivity].
  - intros c t s0 H. cbn [collapse] in H. destruct (p c).
    + destruct H as [->| ->].
      * exists [32], (collapse p true t). split; [reflexivity|right; reflexivity].
      * exists [], (collapse p true t). split; [reflexivity|right; reflexivity].
    + exists [c], (collapse p false t). split; [destruct H as [->| ->]; reflexivity|left; reflexivity].
Qed.

Lemma search_replace_keeps old new s :
  old <> [] -> forallb junk old = true ->
  search r s = true -> search r (replace old new s) = true.
Proof.
  intros Hold Jold.
  apply (sim_search (fun t s => exists k, forallb junk (take k t) = true
                                          /\ s = replace_go old new k t));
    [| |exact r_plain|exists 0%nat; split; reflexivity].
  - intros c t s0 (k & Hk & ->) Hc. destruct k as [|k].
    + cbn [replace_go]. destruct (startswith old (c :: t)) eqn:E.
      * apply startswith_true in E as [rest E]. destruct old as [|o old]; [congruence|].
        cbn [app] in E. injection E as -> _. cbn [forallb] in Jold.
        rewrite Hc in Jold. discriminate Jold.
      * exists (replace_go old new 0 t). split; [reflexivity|].
        exists 0%nat. split; reflexivity.
    + cbn [take forallb] in Hk. rewrite Hc in Hk. discriminate Hk.
  - intros c t s0 (k & Hk & ->). destruct k as [|k].
    + cbn [replace_go]. destruct (startswith old (c :: t)) eqn:E.
      * apply startswith_true in E as [rest E]. destruct old as [|o old]; [congruence|].
        cbn [app] in E. injection E as -> ->. cbn [length Nat.pred].
        exists new, (replace_go (o :: old) new (length old) (old ++ rest)).
        split; [reflexivity|]. exists (length old). split; [|reflexivity].
        rewrite take_app_length. cbn [forallb] in Jold.
        apply andb_true_iff in Jold as [_ Jold]. exact Jold.
      * exists [c], (replace_go old new 0 t). split; [reflexivity|].
        exists 0%nat. split; reflexivity.
    + cbn [replace_go]. exists [], (replace_go old new k t). split; [reflexivity|].
      exists k. split; [|reflexivity]. cbn [take forallb] in Hk.
      apply andb_true_iff in Hk as [_ Hk]. exact Hk.
Qed.

(** A match of a plain pattern in a text is still there after
    normalisation. *)
Lemma normalize_for_match_keeps s :
  search r s = true -> search r (normalize_for_match (Some s)) = true.
Proof.
  intros H. unfold normalize_for_match. rewrite sub_collapse.
  apply search_strip.
  apply search_replace_keeps; [discriminate|reflexivity|].
  apply search_replace_keeps; [discriminate|reflexivity|].
  apply search_collapse_keeps; [intros c Hc; unfold junk; rewrite Hc; reflexivity|].
  apply search_replace_one_keeps; [reflexivity|].
  apply search_replace_one_keeps; [reflexivity|].
  apply search_replace_one_keeps; [reflexivity|]. exact H.
Qed.

End Preserve.

(** X20 (32_label_women_risk.py, normalize_for_match with the patterns
    of the tables): for a pattern that is made of literal words joined by
    [.*], sequence and alternation, the words holding no whitespace and none
    of the characters 上 ま わ る 廻 回, the normalisation makes no
    difference: the pattern matches the normalised text exactly when it
    matches the text as it came. *)
Theorem normalize_for_match_plain r s :
  plain_rx r -> search r (normalize_for_match (Some s)) = search r s.
Proof.
  intros Hr. destruct (search r s) eqn:E.
  - exact (normalize_for_match_keeps r Hr s E).
  - destruct (search r (normalize_for_match (Some s))) eqn:E'; [|reflexivity].
    rewrite (normalize_for_match_reflects r Hr s E') in E. discriminate E.
Qed.

(** X20 on the pattern of the score 1 nursing rule and a text with an
    ideographic space and a line break. *)
Lemma normalize_for_match_plain_witness :
  search NURS_RX1 (normalize_for_match (Some (u "母乳中へ　移行
する")))
  = search NURS_RX1 (u "母乳中へ　移行
する").
Proof.
  apply normalize_for_match_plain. unfold NURS_RX1, L.
  repeat (first [apply plain_seq | apply plain_alt | apply plain_any
                | apply plain_str; reflexivity]).
Defined.

(** ** Nursing rules and nursing flags *)

Section PlainPatterns.

Lemma ends_plain_bos r : plain_rx r -> forall b b' s, ends r b s = ends r b' s.
Proof.
  induction 1 as [w Hw| |a c _ IHa _ IHc|a c _ IHa _ IHc]; intros b b' s; try reflexivity.
  - cbn [ends]. rewrite (IHa b b' s). apply flat_map_ext. intros m. apply IHc.
  - cbn [ends]. rewrite (IHa b b' s), (IHc b b' s). reflexivity.
Qed.

(** A plain pattern that matches wherever another one does. *)
Lemma search_incl r1 r2 s :
  plain_rx r1 -> plain_rx r2 ->
  (forall t e, e ∈ ends r1 true t -> exists e', e' ∈ ends r2 true t) ->
  search r1 s = true -> search r2 s = true.
Proof.
  intros H1 H2 Hincl H. apply search_from_elim in H as (pre & rest & b & e & -> & He).
  rewrite (ends_plain_bos r1 H1 b true) in He. destruct (Hincl rest e He) as (e' & He').
  apply (search_intro r2 pre rest e'). rewrite (ends_plain_bos r2 H2 _ true). exact He'.
Qed.

Lemma ends_seq_incl_r a b b' :
  plain_rx b -> plain_rx b' ->
  (forall t e, e ∈ ends b true t -> exists e', e' ∈ ends b' true t) ->
  forall t e, e ∈ ends (Seq a b) true t -> exists e', e' ∈ ends (Seq a b') true t.
Proof.
  intros Hb Hb' Hincl t e He. apply ends_seq_elem in He as (m & Hm & He).
  rewrite (ends_plain_bos b Hb _ true) in He. destruct (Hincl m e He) as (e' & He').
  exists e'. apply ends_seq_elem. exists m. split; [exact Hm|].
  rewrite (ends_plain_bos b' Hb' _ true). exact He'.
Qed.

Lemma ends_seq_incl_l a a' b :
  (forall t e, e ∈ ends a true t -> e ∈ ends a' true t) ->
  forall t e, e ∈ ends (Seq a b) true t -> e ∈ ends (Seq a' b) true t.
Proof.
  intros Hincl t e He. apply ends_seq_elem in He as (m & Hm & He).
  apply ends_seq_elem. exists m. split; [apply Hincl, Hm|exact He].
Qed.

(** After [.*], a word followed by another [.*] can be left out. *)
Lemma ends_drop_word a w t e :
  e ∈ ends (Seq (Seq (Seq a DotStar) (Str w)) DotStar) true t ->
  e ∈ ends (Seq a DotStar) true t.
Proof.
  intros He. apply ends_seq_elem in He as (m2 & Hm2 & He).
  apply star_ends_any in He as (q & ->).
  apply ends_seq_elem in Hm2 as (m1 & Hm1 & Hm2). apply ends_str in Hm2. subst m1.
  apply ends_seq_elem in Hm1 as (m0 & Hm0 & Hm1). apply star_ends_any in Hm1 as (p & ->).
  apply ends_seq_elem. exists (p ++ w ++ q ++ e). split; [exact Hm0|].
  apply star_ends_any. exists (p ++ w ++ q). rewrite <- !app_assoc. reflexivity.
Qed.

(** A longer word matches only where its beginning does. *)
Lemma ends_str_longer w x t e :
  e ∈ ends (Str (w ++ x)) true t -> exists e', e' ∈ ends (Str w) true t.
Proof.
  intros He. apply ends_str in He. subst t. exists (x ++ e). apply ends_str.
  rewrite app_assoc. reflexivity.
Qed.

End PlainPatterns.

Section NursingFacts.

Ltac plain := repeat (first [apply plain_seq | apply plain_alt | apply plain_any
                            | apply plain_str; reflexivity]).

Lemma NURS_RX3_plain : plain_rx NURS_RX3.
Proof. unfold NURS_RX3, L. plain. Qed.

Lemma NURS_RX2_plain : plain_rx NURS_RX2.
Proof. unfold NURS_RX2, L. plain. Qed.

Lemma NURS_RX1_plain : plain_rx NURS_RX1.
Proof. unfold NURS_RX1, L. plain. Qed.

Lemma MILK_plain : plain_rx Label.MILK_TRANSFER_DETECTED.
Proof. unfold Label.MILK_TRANSFER_DETECTED, L. plain. Qed.

Lemma CONSIDER_plain : plain_rx Label.RECOMMEND_CONSIDERATION.
Proof. unfold Label.RECOMMEND_CONSIDERATION, L. plain. Qed.

(** The flag pattern for milk transfer matches exactly where the pattern
    of the score 1 rule does: its fourth word begins with the second. *)
Lemma milk_flag_is_rule1 s : search Label.MILK_TRANSFER_DETECTED s = search NURS_RX1 s.
Proof.
  destruct (search NURS_RX1 s) eqn:E.
  - revert E. apply search_incl; [apply NURS_RX1_plain|apply MILK_plain|].
    unfold NURS_RX1, Label.MILK_TRANSFER_DETECTED.
    apply ends_seq_incl_r; [unfold L; plain|unfold L; plain|].
    intros t e He. exists e. cbn [ends] in He |- *. apply elem_of_app. left. exact He.
  - destruct (search Label.MILK_TRANSFER_DETECTED s) eqn:E'; [|reflexivity].
    rewrite <- E. symmetry. revert E'.
    apply search_incl; [apply MILK_plain|apply NURS_RX1_plain|].
    unfold NURS_RX1, Label.MILK_TRANSFER_DETECTED.
    apply ends_seq_incl_r; [unfold L; plain|unfold L; plain|].
    intros t e He. apply elem_of_app in He as [He|He]; [exists e; exact He|].
    destruct (ends_str_longer (u "検出") (u "された") t e He) as (e' & He').
    exists e'. apply elem_of_app. left. apply elem_of_app. right. exact He'.
Qed.

(** The pattern of the score 2 rule asks for more than the flag pattern
    for consideration. *)
Lemma rule2_gives_consideration s :
  search NURS_RX2 s = true -> search Label.RECOMMEND_CONSIDERATION s = true.
Proof.
  apply search_incl; [apply NURS_RX2_plain|apply CONSIDER_plain|].
  intros t e He. exists e. revert t e He.
  unfold NURS_RX2, Label.RECOMMEND_CONSIDERATION.
  do 3 apply ends_seq_incl_l. intros t e. unfold L. apply ends_drop_word.
Qed.

End NursingFacts.

Section NursingRow.

Lemma flag_of_pattern (d : gmap (list N) regex) key rx s :
  d !! key = Some rx ->
  flag_set (extract_flags (Some s) d) key = truthy (strip s) && search rx s.
Proof.
  intros H. unfold flag_set, extract_flags. destruct (truthy (strip s)); cbn [negb andb].
  - rewrite lookup_fmap, H. reflexivity.
  - rewrite lookup_empty. reflexivity.
Qed.

Lemma lookup_stop :
  Label.NURS_EVIDENCE_RX !! u "recommend_stop_lactation" = Some Label.RECOMMEND_STOP_LACTATION.
Proof. vm_compute. reflexivity. Qed.

Lemma lookup_consider :
  Label.NURS_EVIDENCE_RX !! u "recommend_consideration" = Some Label.RECOMMEND_CONSIDERATION.
Proof. vm_compute. reflexivity. Qed.

Lemma lookup_milk :
  Label.NURS_EVIDENCE_RX !! u "milk_transfer_detected" = Some Label.MILK_TRANSFER_DETECTED.
Proof. vm_compute. reflexivity. Qed.

Lemma search_normalized r s :
  plain_rx r -> search r (normalize_for_match (Some s)) = search r s.
Proof.
  intros Hr. destruct (search r s) eqn:E; [exact (normalize_for_match_keeps r Hr s E)|].
  destruct (search r (normalize_for_match (Some s))) eqn:E'; [|reflexivity].
  rewrite (normalize_for_match_reflects r Hr s E') in E. discriminate E.
Qed.

(** The nursing classification, read off the text as it came. *)
Lemma classify_nurs_raw s :
  classify (Some s) NURS_RULES =
  if negb (truthy (strip s)) then (0%Z, u "none")
  else if search NURS_RX3 s then (3%Z, u "stop_lactation")
  else if search NURS_RX2 s then (2%Z, u "consider_benefit")
  else if search NURS_RX1 s then (1%Z, u "info_only")
  else (0%Z, u "unclear").
Proof.
  unfold classify. destruct (negb (truthy (strip s))); [reflexivity|].
  unfold NURS_RULES. cbn [classify_rules].
  rewrite (search_normalized _ s NURS_RX3_plain), (search_normalized _ s NURS_RX2_plain),
    (search_normalized _ s NURS_RX1_plain). reflexivity.
Qed.

End NursingRow.

(** X21 (32_label_women_risk.py, main with NURS_RULES and
    NURS_EVIDENCE_PATS): the nursing score and the nursing flags of a row
    go together. The score is 3 exactly when the flag
    recommend_stop_lactation is set; a score of 2 comes with
    recommend_consideration; a score of 1 comes with milk_transfer_detected,
    so that its confidence is at least 2; with a score of 0 neither
    recommend_stop_lactation nor milk_transfer_detected is set and the
    confidence is at most 1. *)
Theorem nursing_score_and_flags ptx ntx :
  let r := Label.label_row ptx ntx in
  (Label.n_score r = 3%Z <->
   flag_set (Label.nurs_flags r) (u "recommend_stop_lactation") = true)
  /\ (Label.n_score r = 2%Z ->
      flag_set (Label.nurs_flags r) (u "recommend_consideration") = true)
  /\ (Label.n_score r = 1%Z ->
      flag_set (Label.nurs_flags r) (u "milk_transfer_detected") = true
      /\ (2 <= Label.nurs_confidence r)%Z)
  /\ (Label.n_score r = 0%Z ->
      flag_set (Label.nurs_flags r) (u "recommend_stop_lactation") = false
      /\ flag_set (Label.nurs_flags r) (u "milk_transfer_detected") = false
      /\ (Label.nurs_confidence r <= 1)%Z).
Proof.
  unfold Label.label_row.
  destruct (classify (Some (Label.or_blank ptx)) PREG_RULES) as [ps pr].
  pose proof (classify_nurs_raw (Label.or_blank ntx)) as Hn.
  destruct (classify (Some (Label.or_blank ntx)) NURS_RULES) as [ns nr].
  cbv zeta. cbn [Label.n_score Label.nurs_flags Label.nurs_confidence].
  unfold nurs_conf.
  rewrite (flag_of_pattern _ _ _ (Label.or_blank ntx) lookup_stop).
  rewrite (flag_of_pattern _ _ _ (Label.or_blank ntx) lookup_consider).
  rewrite !(flag_of_pattern _ _ _ (Label.or_blank ntx) lookup_milk).
  rewrite milk_flag_is_rule1.
  change Label.RECOMMEND_STOP_LACTATION with NURS_RX3.
  generalize (flag_set (extract_flags (Some (Label.or_blank ntx)) Label.NURS_EVIDENCE_RX)
                (u "adverse_infant_effects")).
  intros adverse.
  destruct (truthy (strip (Label.or_blank ntx))); cbn [negb andb] in Hn |- *.
  - destruct (search NURS_RX3 (Label.or_blank ntx)).
    { injection Hn as -> _. repeat split; intros; try reflexivity; try lia; discriminate. }
    destruct (search NURS_RX2 (Label.or_blank ntx)) eqn:E2.
    { injection Hn as -> _. rewrite (rule2_gives_consideration _ E2).
      repeat split; intros; try reflexivity; try lia; discriminate. }
    destruct (search NURS_RX1 (Label.or_blank ntx)).
    { injection Hn as -> _. repeat split; intros; try reflexivity; try discriminate.
      change (base_conf 1) with 1%Z. destruct adverse; lia. }
    injection Hn as -> _. repeat split; intros; try reflexivity; try discriminate.
    change (base_conf 0) with 0%Z. destruct adverse; lia.
  - injection Hn as -> _. repeat split; intros; try reflexivity; try discriminate.
    change (base_conf 0) with 0%Z. destruct adverse; lia.
Qed.

(** X22 (32_label_women_risk.py, main): a row whose pregnant text is NULL,
    empty or whitespace only gets pregnancy score 0 with rule none, no
    pregnancy flag at all, confidence 0 and the label 不明, and its overall
    score is its nursing score. *)
Theorem label_row_blank ptx ntx :
  forallb isspace (Label.or_blank ptx) = true ->
  let r := Label.label_row ptx ntx in
  Label.p_score r = 0%Z /\ Label.p_rule r = u "none" /\ Label.preg_flags r = ∅
  /\ Label.preg_confidence r = 0%Z /\ Label.pregnant_label r = u "不明"
  /\ Label.overall r = Label.n_score r.
Proof.
  intros Hblank. unfold Label.label_row.
  rewrite (classify_blank _ PREG_RULES Hblank).
  pose proof (classify_nurs_range (Some (Label.or_blank ntx))) as Hn.
  destruct (classify (Some (Label.or_blank ntx)) NURS_RULES) as [ns nr].
  cbv zeta.
  cbn [Label.p_score Label.p_rule Label.preg_flags Label.preg_confidence
       Label.pregnant_label Label.overall Label.n_score].
  assert (extract_flags (Some (Label.or_blank ptx)) Label.PREG_EVIDENCE_RX = ∅) as ->.
  { unfold extract_flags. rewrite truthy_strip, Hblank. reflexivity. }
  split; [reflexivity|]. split; [reflexivity|]. split; [reflexivity|].
  split; [unfold preg_conf, flag_set; rewrite !lookup_empty; reflexivity|].
  split; [vm_compute; reflexivity|].
  apply elem_of_five in Hn.
  destruct Hn as [Hn|[Hn|[Hn|[Hn|Hn]]]]; injection Hn as -> _; reflexivity.
Qed.

(** X22 on a row whose pregnant text is blanks and whose nursing text
    asks to stop lactation. *)
Lemma label_row_blank_witness :
  let r := Label.label_row (Some (u " 　")) (Some (u "授乳を中止すること")) in
  Label.p_score r = 0%Z /\ Label.p_rule r = u "none" /\ Label.preg_flags r = ∅
  /\ Label.preg_confidence r = 0%Z /\ Label.pregnant_label r = u "不明"
  /\ Label.overall r = Label.n_score r.
Proof.
  apply (label_row_blank (Some (u " 　")) (Some (u "授乳を中止すること"))).
  vm_compute. reflexivity.
Defined.

Example label_row_sample :
  let r := Label.label_row (Some (u "妊婦には投与しないこと。動物実験で催奇形性が報告されている。"))
                           (Some (u "母乳中へ移行することが報告されている。")) in
  (Label.p_score r, Label.n_score r, Label.overall r,
   Label.preg_confidence r, Label.nurs_confidence r)
  = (3%Z, 1%Z, 3%Z, 3%Z, 2%Z)
  /\ Label.pregnant_label r = u "D/X" /\ Label.nursing_label r = u "情報提供".
Proof. vm_compute. split; [reflexivity|]. split; reflexivity. Qed.
